(** * Zaman Bank front end: a shallow embedding of the browser-side modules

  The development follows the JavaScript sources module by module:

  - [JsString]  : strings as sequences of UTF-16 code units, with the
                  methods the sources call ([trim], [includes]);
  - [JsNumber]  : the Number type with its three special values; a
                  finite value is the rational it stands for, and the
                  results of reading a literal and of the division and
                  the multiplication of a percentage are rounded to
                  binary64 (there is no negative zero);
  - [Utils]     : [calculatePercentage] and the dashboard's progress;
  - [GoalCard]  : the days left and the progress bar of a goal card;
  - [Regex]     : the pattern of [validateEmail];
  - [Validator] : [parseFloat], the validators, and [validateForm] on
                  the tree of the form;
  - [JsParse]   : [parseInt] and the decimal text of an integer;
  - [Speech]    : the voice adapter's module state and its operations;
  - [Api], [ApiData] : the HTTP client with its simulated backend;
  - [Auth]      : the session in local storage;
  - [Chat]      : the chat controller, as an event-driven machine whose
                  suspended [async] activations are explicit, on a page
                  whose bubbles hold what the platform parses of the
                  texts written into them;
  - [Admin], [Dashboard], [Timing] : the log filter, the dashboard's
                  loading and goal form, and [debounce] and [throttle].
*)

From Stdlib Require Import QArith Qround ZArith NArith List Lia Bool String Ascii.
From Stdlib Require Import Permutation.
From Stdlib Require Import Lqa.
From Stdlib Require Import Qpower.
Import ListNotations.

Set Implicit Arguments.
Set Warnings "-register-all".

(* ================================================================== *)
(** * Strings *)

Module JsString.

(** A JavaScript string is a sequence of 16-bit code units. *)
Definition jsstring := list N.

(** Source literals are written as UTF-8 text; [utf16] re-encodes the bytes
    of such a literal as code units (a surrogate pair above the BMP). *)
Fixpoint utf16 (bs : list N) : jsstring :=
  match bs with
  | [] => []
  | b0 :: r0 =>
      if (b0 <? 128)%N then b0 :: utf16 r0
      else if (b0 <? 224)%N then
        match r0 with
        | b1 :: r1 => ((b0 - 192) * 64 + (b1 - 128))%N :: utf16 r1
        | [] => []
        end
      else if (b0 <? 240)%N then
        match r0 with
        | b1 :: b2 :: r2 =>
            ((b0 - 224) * 4096 + (b1 - 128) * 64 + (b2 - 128))%N :: utf16 r2
        | _ => []
        end
      else
        match r0 with
        | b1 :: b2 :: b3 :: r3 =>
            let cp := ((b0 - 240) * 262144 + (b1 - 128) * 4096
                       + (b2 - 128) * 64 + (b3 - 128))%N in
            let v := (cp - 65536)%N in
            (55296 + v / 1024)%N :: (56320 + v mod 1024)%N :: utf16 r3
        | _ => []
        end
  end.

Definition js (s : string) : jsstring :=
  utf16 (map N_of_ascii (list_ascii_of_string s)).

(** WhiteSpace and LineTerminator code units, the set stripped by
    [String.prototype.trim] and skipped by [parseFloat]. *)
Definition is_white_space (c : N) : bool :=
  ((9 <=? c) && (c <=? 13) || (c =? 32) || (c =? 160) || (c =? 5760)
   || (8192 <=? c) && (c <=? 8202) || (c =? 8232) || (c =? 8233)
   || (c =? 8239) || (c =? 8287) || (c =? 12288) || (c =? 65279))%N.

Fixpoint trimStart (s : jsstring) : jsstring :=
  match s with
  | [] => []
  | c :: r => if is_white_space c then trimStart r else s
  end.

Definition trimEnd (s : jsstring) : jsstring := rev (trimStart (rev s)).

Definition trim (s : jsstring) : jsstring := trimEnd (trimStart s).

Fixpoint startsWith (s p : jsstring) {struct p} : bool :=
  match p, s with
  | [], _ => true
  | _ :: _, [] => false
  | a :: p', b :: s' => (a =? b)%N && startsWith s' p'
  end.

(** [s.includes(sub)] *)
Fixpoint includes (s sub : jsstring) : bool :=
  startsWith s sub ||
  match s with
  | [] => false
  | _ :: r => includes r sub
  end.

Fixpoint eqb (s t : jsstring) : bool :=
  match s, t with
  | [], [] => true
  | a :: s', b :: t' => (a =? b)%N && eqb s' t'
  | _, _ => false
  end.

(** Truthiness of a string: only the empty string is falsy. *)
Definition truthy (s : jsstring) : bool :=
  match s with [] => false | _ :: _ => true end.

End JsString.

(* ================================================================== *)
(** * Numbers *)

Module JsNumber.

(** A Number is NaN, an infinity, or a finite value. *)
Inductive number : Type :=
| NaN
| NegInf
| Fin (q : Q)
| PosInf.

Definition isNaN (x : number) : bool :=
  match x with NaN => true | _ => false end.

Definition Qltb (x y : Q) : bool := negb (Qle_bool y x).

(** [x < y] *)
Definition lt (x y : number) : bool :=
  match x, y with
  | NaN, _ | _, NaN => false
  | NegInf, NegInf => false
  | NegInf, _ => true
  | _, NegInf => false
  | PosInf, _ => false
  | Fin _, PosInf => true
  | Fin a, Fin b => Qltb a b
  end.

(** [x > y] *)
Definition gt (x y : number) : bool := lt y x.

(** [x <= y]: false as soon as an operand is NaN, else [!(y < x)]. *)
Definition le (x y : number) : bool :=
  match x, y with
  | NaN, _ | _, NaN => false
  | _, _ => negb (lt y x)
  end.

(** [x === y] on numbers. *)
Definition strict_eq (x y : number) : bool :=
  match x, y with
  | NegInf, NegInf | PosInf, PosInf => true
  | Fin a, Fin b => Qeq_bool a b
  | _, _ => false
  end.

(** The sign of a finite operand decides the sign of an infinite result. *)
Definition signed_inf (c : comparison) : number :=
  match c with Eq => NaN | Lt => NegInf | Gt => PosInf end.

Definition neg (x : number) : number :=
  match x with
  | NaN => NaN
  | NegInf => PosInf
  | PosInf => NegInf
  | Fin a => Fin (- a)
  end.

(** [x / y], the exact quotient where it is finite. *)
Definition div (x y : number) : number :=
  match x, y with
  | NaN, _ | _, NaN => NaN
  | Fin a, Fin b =>
      match b ?= 0 with
      | Eq => signed_inf (a ?= 0)
      | _ => Fin (a / b)
      end
  | Fin _, _ => Fin 0
  | PosInf, Fin b => if Qltb b 0 then NegInf else PosInf
  | NegInf, Fin b => if Qltb b 0 then PosInf else NegInf
  | _, _ => NaN
  end.

(** [x * y], the exact product where it is finite. *)
Definition mul (x y : number) : number :=
  match x, y with
  | NaN, _ | _, NaN => NaN
  | Fin a, Fin b => Fin (a * b)
  | PosInf, Fin b | Fin b, PosInf => signed_inf (b ?= 0)
  | NegInf, Fin b | Fin b, NegInf => neg (signed_inf (b ?= 0))
  | PosInf, PosInf | NegInf, NegInf => PosInf
  | PosInf, NegInf | NegInf, PosInf => NegInf
  end.

(** [Math.round]: the nearest integer, a tie going towards +Infinity. *)
Definition Math_round (x : number) : number :=
  match x with
  | Fin a => Fin (inject_Z (Qfloor (a + (1 # 2))))
  | _ => x
  end.

(** [Math.min] of two arguments. *)
Definition Math_min (x y : number) : number :=
  match x, y with
  | NaN, _ | _, NaN => NaN
  | _, _ => if lt y x then y else x
  end.

Definition of_Z (z : Z) : number := Fin (inject_Z z).

(** [x >= y] *)
Definition ge (x y : number) : bool := le y x.

(** [x - y], the exact difference where it is finite. *)
Definition sub (x y : number) : number :=
  match x, y with
  | NaN, _ | _, NaN => NaN
  | Fin a, Fin b => Fin (a - b)
  | PosInf, PosInf | NegInf, NegInf => NaN
  | PosInf, _ | _, NegInf => PosInf
  | NegInf, _ | _, PosInf => NegInf
  end.

(** [Math.ceil] *)
Definition Math_ceil (x : number) : number :=
  match x with
  | Fin a => Fin (inject_Z (Qceiling a))
  | _ => x
  end.

(** The binary exponent of a positive rational: the [e] with
    [2^e <= a < 2^(e+1)]. *)
Definition ilog2 (a : Q) : Z :=
  let e0 := (Z.log2 (Qnum a) - Z.log2 (Zpos (Qden a)))%Z in
  if Qle_bool (2 ^ e0) a then e0 else (e0 - 1)%Z.

(** The nearest integer, a tie going to the even one. *)
Definition rne (x : Q) : Z :=
  let f := Qfloor x in
  match Qcompare (x - inject_Z f) (1 # 2) with
  | Lt => f
  | Gt => (f + 1)%Z
  | Eq => if Z.even f then f else (f + 1)%Z
  end.


(** Rounding of a positive rational to binary64: 53 bits of precision, the
    exponent not below -1022 (so that small values fall on the subnormal
    grid), the nearest value with ties to the even one, and Infinity from
    [2^1024] on. *)
Definition round_pos (a : Q) : number :=
  let e := Z.max (ilog2 a) (-1022) in
  let u := 2 ^ (e - 52) in
  let v := inject_Z (rne (a / u)) * u in
  if Qle_bool (2 ^ 1024) v then PosInf else Fin (Qred v).

(** The Number value of a rational. *)
Definition round64 (q : Q) : number :=
  match Qcompare q 0 with
  | Eq => Fin 0
  | Gt => round_pos q
  | Lt => neg (round_pos (- q))
  end.

(** The Number value of an exact result. *)
Definition rounded (x : number) : number :=
  match x with
  | Fin q => round64 q
  | _ => x
  end.

(** [x / y] and [x * y] as the platform computes them. *)
Definition fdiv (x y : number) : number := rounded (div x y).
Definition fmul (x y : number) : number := rounded (mul x y).

End JsNumber.

(* ================================================================== *)
(** * Utility functions (the utilities module) *)

Module Utils.
Import JsNumber.

(** [calculatePercentage(current, total)] *)
Definition calculatePercentage (current total : number) : number :=
  if strict_eq total (Fin 0) then Fin 0
  else Math_min (Math_round (fmul (fdiv current total) (Fin 100))) (Fin 100).

(** The dashboard's [renderGoalCard] computes the same expression inline,
    without the guard on a zero target. *)
Definition goalProgress (current_amount target_amount : number) : number :=
  Math_min (Math_round (fmul (fdiv current_amount target_amount) (Fin 100)))
           (Fin 100).

(** The least ratio of current amount to target at which the percentage
    comes to 100 is passed: the midpoint of the two binary64 values
    around [0.995] from which on the product with 100 rounds to at least
    [99.5]. *)
Definition full_ratio : Q := 17924326516934573 # 18014398509481984.

End Utils.

(* ================================================================== *)
(** * Dashboard module: what a goal card shows *)

Module GoalCard.
Import JsNumber.

(** The milliseconds in a day, [1000 * 60 * 60 * 24]. *)
Definition day : Q := 1000 * 60 * 60 * 24.

(** [daysLeft] in [renderGoalCard]: [deadline] and [now] are the times of
    [new Date(goal.deadline)] and [new Date()] in milliseconds (NaN for a
    date that does not parse).  Times are whole numbers of milliseconds;
    their difference and its quotient by the day are taken exactly. *)
Definition daysLeft (deadline now : number) : number :=
  Math_ceil (div (sub deadline now) (Fin day)).

(** The progress bar takes the success class when [progress >= 100]. *)
Definition progress_bar_success (progress : number) : bool :=
  ge progress (Fin 100).

End GoalCard.

(* ================================================================== *)
(** * Regular expressions *)

Module Regex.

(** The fragment of regular expressions the sources use, over code units:
    character classes, sequencing and repetition. A pattern anchored with
    [^] and [$] and used through [test] asks whether the whole string is
    in its language. *)
Inductive re : Type :=
| Empty
| Eps
| Class (p : N -> bool)
| Seq (r1 r2 : re)
| Alt (r1 r2 : re)
| Star (r : re).

(** [r+] *)
Definition Plus (r : re) : re := Seq r (Star r).

(** A literal character. *)
Definition Chr (c : N) : re := Class (N.eqb c).

(** The language of an expression. *)
Inductive matches : re -> list N -> Prop :=
| MEps : matches Eps []
| MClass p c : p c = true -> matches (Class p) [c]
| MSeq r1 r2 s1 s2 :
    matches r1 s1 -> matches r2 s2 -> matches (Seq r1 r2) (s1 ++ s2)
| MAltL r1 r2 s : matches r1 s -> matches (Alt r1 r2) s
| MAltR r1 r2 s : matches r2 s -> matches (Alt r1 r2) s
| MStarNil r : matches (Star r) []
| MStarApp r s1 s2 :
    matches r s1 -> matches (Star r) s2 -> matches (Star r) (s1 ++ s2).

Fixpoint nullable (r : re) : bool :=
  match r with
  | Empty => false
  | Eps => true
  | Class _ => false
  | Seq r1 r2 => nullable r1 && nullable r2
  | Alt r1 r2 => nullable r1 || nullable r2
  | Star _ => true
  end.

(** What is left of the expression once the character has been read. *)
Fixpoint deriv (c : N) (r : re) : re :=
  match r with
  | Empty => Empty
  | Eps => Empty
  | Class p => if p c then Eps else Empty
  | Seq r1 r2 =>
      if nullable r1 then Alt (Seq (deriv c r1) r2) (deriv c r2)
      else Seq (deriv c r1) r2
  | Alt r1 r2 => Alt (deriv c r1) (deriv c r2)
  | Star r1 => Seq (deriv c r1) (Star r1)
  end.

(** [/^r$/.test(s)] *)
Fixpoint test (r : re) (s : list N) : bool :=
  match s with
  | [] => nullable r
  | c :: s' => test (deriv c r) s'
  end.

End Regex.

(* ================================================================== *)
(** * Validation module *)

Module Validator.
Import JsString JsNumber.

(** Validators return [{ok, message}]. *)
Record result : Type := mkResult { ok : bool; message : jsstring }.

(** The argument of [validateNumber] is a string or a number. *)
Inductive value : Type :=
| VStr (s : jsstring)
| VNum (n : number).

Definition is_digit (c : N) : bool := ((48 <=? c) && (c <=? 57))%N.

(** The longest run of decimal digits at the front, and what follows it. *)
Fixpoint take_digits (s : jsstring) : list N * jsstring :=
  match s with
  | [] => ([], [])
  | c :: r =>
      if is_digit c then let (ds, rest) := take_digits r in (c :: ds, rest)
      else ([], s)
  end.

Definition digits_value (ds : list N) : Z :=
  fold_left (fun acc d => (acc * 10 + Z.of_N (d - 48))%Z) ds 0%Z.

(** ExponentPart: [e] or [E], an optional sign, at least one digit. An
    incomplete exponent is not part of the literal. *)
Definition exponent_part (s : jsstring) : Z :=
  match s with
  | c :: r =>
      if ((c =? 101) || (c =? 69))%N then
        let (sgn, r') :=
          match r with
          | 43%N :: t => (1%Z, t)
          | 45%N :: t => ((-1)%Z, t)
          | _ => (1%Z, r)
          end in
        match fst (take_digits r') with
        | [] => 0%Z
        | ds => (sgn * digits_value ds)%Z
        end
      else 0%Z
  | [] => 0%Z
  end.

(** The value of the literal [ip.fp] times ten to the [e]. *)
Definition decimal (ip fp : list N) (e : Z) : Q :=
  inject_Z (digits_value (ip ++ fp)) * 10 ^ (e - Z.of_nat (List.length fp)).

(** StrUnsignedDecimalLiteral, longest prefix. *)
Definition unsigned_literal (s : jsstring) : number :=
  if startsWith s (js "Infinity") then PosInf
  else
    let (ip, r) := take_digits s in
    match r with
    | 46%N :: r1 =>
        let (fp, r2) := take_digits r1 in
        match ip, fp with
        | [], [] => NaN
        | _, _ => round64 (decimal ip fp (exponent_part r2))
        end
    | _ =>
        match ip with
        | [] => NaN
        | _ => round64 (decimal ip [] (exponent_part r))
        end
    end.

(** [parseFloat] on a string: leading white space is skipped, the longest
    prefix that is a decimal literal is read and its value rounded to the
    nearest Number, and NaN is the answer when there is none. *)
Definition parseFloat_string (s : jsstring) : number :=
  match trimStart s with
  | 43%N :: r => unsigned_literal r
  | 45%N :: r => neg (unsigned_literal r)
  | r => unsigned_literal r
  end.

(** [parseFloat(value)]. A number argument is first converted to its
    string, whose literal reads back as the same number. *)
Definition parseFloat (v : value) : number :=
  match v with
  | VStr s => parseFloat_string s
  | VNum n => n
  end.

Section WithNumberToString.

(** The platform's conversion of a number to text, as used by the template
    literals of the messages. *)
Variable Number_toString : number -> jsstring.

(** [validateNumber(value, min = null, max = null)]; [None] is [null]. *)
Definition validateNumber (v : value) (min max : option number) : result :=
  let num := parseFloat v in
  if isNaN num then
    mkResult false (js "Введите корректное число")
  else if match min with Some m => lt num m | None => false end then
    mkResult false
      (js "Минимальное значение: "
       ++ match min with Some m => Number_toString m | None => js "null" end)
  else if match max with Some M => gt num M | None => false end then
    mkResult false
      (js "Максимальное значение: "
       ++ match max with Some M => Number_toString M | None => js "null" end)
  else mkResult true [].

End WithNumberToString.

(** The class [[^\s@]]. *)
Definition not_space_or_at (c : N) : bool :=
  negb (is_white_space c) && negb (c =? 64)%N.

(** The pattern of [validateEmail]: [/^[^\s@]+@[^\s@]+\.[^\s@]+$/]. *)
Definition email_re : Regex.re :=
  Regex.Seq (Regex.Plus (Regex.Class not_space_or_at))
    (Regex.Seq (Regex.Chr 64)
       (Regex.Seq (Regex.Plus (Regex.Class not_space_or_at))
          (Regex.Seq (Regex.Chr 46)
             (Regex.Plus (Regex.Class not_space_or_at))))).

(** [validateEmail(email)] *)
Definition validateEmail (email : jsstring) : result :=
  if negb (truthy email) then mkResult false (js "Email обязателен")
  else if negb (Regex.test email_re email) then
    mkResult false (js "Неверный формат email")
  else mkResult true [].

(** [validatePassword(password)] *)
Definition validatePassword (password : jsstring) : result :=
  if negb (truthy password) then mkResult false (js "Пароль обязателен")
  else if (N.of_nat (List.length password) <? 6)%N then
    mkResult false (js "Пароль должен содержать минимум 6 символов")
  else mkResult true [].

(** [validateRequired(value, fieldName = 'Поле')] *)
Definition validateRequired (v : jsstring) (fieldName : option jsstring)
    : result :=
  let name := match fieldName with Some n => n | None => js "Поле" end in
  if negb (truthy v) || JsString.eqb (trim v) [] then
    mkResult false (name ++ js " обязательно")
  else mkResult true [].

Section WithDate.

(** [new Date(dateString).getTime()], the platform's reading of a date:
    a time in milliseconds, or NaN. *)
Variable Date_getTime : jsstring -> number.

(** [validateDate(dateString)] *)
Definition validateDate (dateString : jsstring) : result :=
  if negb (truthy dateString) then mkResult false (js "Дата обязательна")
  else if isNaN (Date_getTime dateString) then
    mkResult false (js "Неверный формат даты")
  else mkResult true [].

End WithDate.

(** A form control, with what [showError] and [clearError] change on the
    control itself: the [error] class. *)
Record input : Type := mkInput {
  value_of : jsstring;
  error_class : bool
}.

(** The form as the two functions see it: its controls by name, the
    elements of class [form-error] with their text (they are taken to
    hold text only), and the elements these lie in.  Elements that are
    none of these and hold none of these are left out.  Names are taken
    to name one control each, the first of the name in tree order. *)
Inductive node : Type :=
| Control (name : jsstring) (i : input)
| FormError (text : jsstring)
| Box (children : list node).

(** The children of the form element. *)
Definition form := list node.

(** [form.elements[name]], below one element and among several. *)
Fixpoint element_in (name : jsstring) (n : node) : option input :=
  match n with
  | Control m i => if JsString.eqb name m then Some i else None
  | FormError _ => None
  | Box cs =>
      (fix first (l : list node) : option input :=
         match l with
         | [] => None
         | c :: r =>
             match element_in name c with
             | Some i => Some i
             | None => first r
             end
         end) cs
  end.

Fixpoint element (name : jsstring) (f : list node) : option input :=
  match f with
  | [] => None
  | c :: r =>
      match element_in name c with
      | Some i => Some i
      | None => element name r
      end
  end.

(** What is done to the element that [querySelector('.form-error')]
    finds among the elements, the first one of that class in tree order:
    it is given the text ([Some]) or removed ([None]); the answer is
    [None] where there is no such element. *)
Fixpoint put_error_in (k : option jsstring) (n : node) : option node :=
  match n with
  | Box cs =>
      option_map Box
        ((fix put (l : list node) : option (list node) :=
            match l with
            | [] => None
            | FormError _ :: r =>
                Some (match k with Some msg => FormError msg :: r | None => r end)
            | c :: r =>
                match put_error_in k c with
                | Some c' => Some (c' :: r)
                | None => option_map (cons c) (put r)
                end
            end) cs)
  | _ => None
  end.

Fixpoint put_error (k : option jsstring) (l : list node) : option (list node) :=
  match l with
  | [] => None
  | FormError _ :: r =>
      Some (match k with Some msg => FormError msg :: r | None => r end)
  | c :: r =>
      match put_error_in k c with
      | Some c' => Some (c' :: r)
      | None => option_map (cons c) (put_error k r)
      end
  end.

(** The [error] class of the control, among the children of its parent. *)
Fixpoint set_class (name : jsstring) (b : bool) (l : list node) : list node :=
  match l with
  | [] => []
  | Control m i :: r =>
      if JsString.eqb name m then Control m (mkInput (value_of i) b) :: r
      else Control m i :: set_class name b r
  | c :: r => c :: set_class name b r
  end.

(** Where the control of a name lies among some elements: among them, in
    one of them (given here with the change made), or nowhere. *)
Inductive found : Type :=
| Here
| Below (l : list node)
| Nowhere.

(** The element with the children of [input.parentElement] changed by
    [g], [input] being the control of the name. *)
Fixpoint at_parent_in (name : jsstring) (g : list node -> list node)
    (n : node) : option node :=
  match n with
  | Box cs =>
      match
        (fix scan (l : list node) : found :=
           match l with
           | [] => Nowhere
           | Control m i :: r =>
               if JsString.eqb name m then Here
               else
                 match scan r with
                 | Below r' => Below (Control m i :: r')
                 | x => x
                 end
           | c :: r =>
               match at_parent_in name g c with
               | Some c' => Below (c' :: r)
               | None =>
                   match scan r with
                   | Below r' => Below (c :: r')
                   | x => x
                   end
               end
           end) cs
      with
      | Here => Some (Box (g cs))
      | Below cs' => Some (Box cs')
      | Nowhere => None
      end
  | _ => None
  end.

Fixpoint scan (name : jsstring) (g : list node -> list node) (l : list node)
    : found :=
  match l with
  | [] => Nowhere
  | Control m i :: r =>
      if JsString.eqb name m then Here
      else
        match scan name g r with
        | Below r' => Below (Control m i :: r')
        | x => x
        end
  | c :: r =>
      match at_parent_in name g c with
      | Some c' => Below (c' :: r)
      | None =>
          match scan name g r with
          | Below r' => Below (c :: r')
          | x => x
          end
      end
  end.

(** The same in the form, whose controls may lie in the form element
    itself. *)
Definition at_parent (name : jsstring) (g : list node -> list node)
    (f : form) : form :=
  match scan name g f with
  | Here => g f
  | Below f' => f'
  | Nowhere => f
  end.

(** [showError(input, message)], for the control of the name: the
    element of class [form-error] is looked for below the parent of the
    control, and made as its last child where there is none. *)
Definition showError (name : jsstring) (msg : jsstring) (f : form) : form :=
  at_parent name
    (fun cs =>
       let cs1 := set_class name true cs in
       match put_error (Some msg) cs1 with
       | Some cs2 => cs2
       | None => cs1 ++ [FormError msg]
       end) f.

(** [clearError(input)], for the control of the name. *)
Definition clearError (name : jsstring) (f : form) : form :=
  at_parent name
    (fun cs =>
       let cs1 := set_class name false cs in
       match put_error None cs1 with
       | Some cs2 => cs2
       | None => cs1
       end) f.

Definition validator := jsstring -> result.

(** The inner loop of [validateForm]: the message of the first validator
    that rejects the value. *)
Fixpoint first_failure (validators : list validator) (v : jsstring)
    : option jsstring :=
  match validators with
  | [] => None
  | check :: rest =>
      let r := check v in
      if negb (ok r) then Some (message r) else first_failure rest v
  end.

(** [validateForm(form, rules)]: the answer and the form as annotated. *)
Fixpoint validateForm (f : form) (rules : list (jsstring * list validator))
    : bool * form :=
  match rules with
  | [] => (true, f)
  | (fieldName, validators) :: rest =>
      match element fieldName f with
      | None => validateForm f rest
      | Some i =>
          let cleared := clearError fieldName f in
          match first_failure validators (value_of i) with
          | Some msg =>
              let (_, f') :=
                validateForm (showError fieldName msg cleared) rest in
              (false, f')
          | None => validateForm cleared rest
          end
      end
  end.

(** The value in a control, if the form has it. *)
Definition field_value (name : jsstring) (f : form) : option jsstring :=
  option_map value_of (element name f).

(** Every validator of every rule accepts the value of its field, where
    the form has the field. *)
Definition all_pass (f : form) (rules : list (jsstring * list validator)) : Prop :=
  Forall (fun rule =>
            forall v, field_value (fst rule) f = Some v ->
                      Forall (fun check : validator => ok (check v) = true) (snd rule))
         rules.

(** The names and values of the controls, in tree order. *)
Fixpoint values_in (n : node) : list (jsstring * jsstring) :=
  match n with
  | Control m i => [(m, value_of i)]
  | FormError _ => []
  | Box cs =>
      (fix all (l : list node) : list (jsstring * jsstring) :=
         match l with
         | [] => []
         | c :: r => values_in c ++ all r
         end) cs
  end.

Fixpoint values (l : list node) : list (jsstring * jsstring) :=
  match l with
  | [] => []
  | c :: r => values_in c ++ values r
  end.

(** The first entry of a name. *)
Fixpoint assoc {A : Type} (name : jsstring) (l : list (jsstring * A))
    : option A :=
  match l with
  | [] => None
  | (n, a) :: r => if JsString.eqb name n then Some a else assoc name r
  end.

(** The first entry of a name changed. *)
Fixpoint update {A : Type} (name : jsstring) (h : A -> A)
    (l : list (jsstring * A)) : list (jsstring * A) :=
  match l with
  | [] => []
  | (n, a) :: r =>
      if JsString.eqb name n then (n, h a) :: r else (n, a) :: update name h r
  end.

(** A form laid out in groups: each control in an element of its own,
    with its [form-error] element after it, if it has one. *)
Definition field : Type := input * option jsstring.

Definition group (e : jsstring * field) : node :=
  Box (Control (fst e) (fst (snd e))
       :: match snd (snd e) with Some t => [FormError t] | None => [] end).

Definition groups (l : list (jsstring * field)) : form := map group l.

(** What [validateForm] leaves on a field of such a form that it has a
    rule for. *)
Definition annotated (vs : list validator) (e : field) : field :=
  match first_failure vs (value_of (fst e)) with
  | Some msg => (mkInput (value_of (fst e)) true, Some msg)
  | None => (mkInput (value_of (fst e)) false, None)
  end.

(** Being within the bounds: an absent bound admits every number. *)
Definition above (min : option number) (n : number) : bool :=
  match min with Some m => le m n | None => true end.

Definition below (max : option number) (n : number) : bool :=
  match max with Some M => le n M | None => true end.

(** A supplied bound is a number when it is not NaN. *)
Definition is_bound (b : option number) : Prop :=
  match b with Some m => isNaN m = false | None => True end.

End Validator.

(* ================================================================== *)
(** * [parseInt] *)

Module JsParse.
Import JsString JsNumber.

(** The value of a character as a digit: [0-9], then [a-z] or [A-Z] from
    ten on. *)
Definition digit_value (c : N) : option Z :=
  if ((48 <=? c) && (c <=? 57))%N then Some (Z.of_N (c - 48))
  else if ((97 <=? c) && (c <=? 122))%N then Some (Z.of_N (c - 97) + 10)%Z
  else if ((65 <=? c) && (c <=? 90))%N then Some (Z.of_N (c - 65) + 10)%Z
  else None.

(** The digits of the radix at the front of the string, by value. *)
Fixpoint radix_digits (radix : Z) (s : jsstring) : list Z :=
  match s with
  | [] => []
  | c :: r =>
      match digit_value c with
      | Some v => if (v <? radix)%Z then v :: radix_digits radix r else []
      | None => []
      end
  end.

Definition radix_value (radix : Z) (ds : list Z) : Z :=
  fold_left (fun acc v => (acc * radix + v)%Z) ds 0%Z.

(** The integer read in the radix, NaN when there is no digit. *)
Definition read_integer (sign radix : Z) (s : jsstring) : number :=
  match radix_digits radix s with
  | [] => NaN
  | ds => of_Z (sign * radix_value radix ds)
  end.

(** After the sign: a [0x] or [0X] prefix selects radix 16. *)
Definition read_unsigned (sign : Z) (s : jsstring) : number :=
  match s with
  | 48%N :: x :: r =>
      if ((x =? 120) || (x =? 88))%N then read_integer sign 16 r
      else read_integer sign 10 s
  | _ => read_integer sign 10 s
  end.

(** [parseInt(string)], no radix given: leading white space is skipped, a
    sign is read, then the longest run of digits. *)
Definition parseInt (s : jsstring) : number :=
  match trimStart s with
  | 45%N :: r => read_unsigned (-1) r
  | 43%N :: r => read_unsigned 1 r
  | r => read_unsigned 1 r
  end.

(** The decimal digits of a natural number, most significant first. *)
Fixpoint decimal_digits (fuel : nat) (n : N) (acc : jsstring) : jsstring :=
  match fuel with
  | O => acc
  | S f =>
      let acc' := (48 + n mod 10)%N :: acc in
      if (n / 10 =? 0)%N then acc' else decimal_digits f (n / 10) acc'
  end.

(** The text of an integer, as [String(n)] and template literals give it
    for integers below [10^21] in size (larger ones are written with an
    exponent). *)
Definition integer_toString (z : Z) : jsstring :=
  let n := Z.to_N (Z.abs z) in
  let ds := decimal_digits (S (N.to_nat (N.log2 n))) n [] in
  if (z <? 0)%Z then 45%N :: ds else ds.

(** A decimal digit. *)
Definition is_dec (c : N) : bool := ((48 <=? c) && (c <=? 57))%N.

(** The number a string of decimal digits stands for. *)
Definition dec_value (s : jsstring) : Z :=
  radix_value 10 (map (fun c => Z.of_N (c - 48)) s).

End JsParse.

(* ================================================================== *)
(** * Speech module: voice input and text-to-speech *)

Module Speech.
Import JsString.

Section WithCallbacks.

(** The functions a caller hands to the module. The module only stores
    and invokes them, so their type is left to the caller. *)
Variable callback : Type.

(** The SpeechRecognition object made by [init]. A handler property holds
    the closure assigned by [startListening], which captures the caller's
    callback (possibly none). [started] is the platform's own record of an
    open recognition session. *)
Record recognizer : Type := mkRecognizer {
  lang : jsstring;
  continuous : bool;
  interimResults : bool;
  maxAlternatives : N;
  onresult : option (option callback);
  onerror : option (option callback);
  onend : bool;
  started : bool
}.

Record utterance : Type := mkUtterance {
  text : jsstring;
  u_lang : jsstring;
  rate : Q;
  pitch : Q;
  volume : Q;
  u_onend : option callback
}.

(** The module's variables, with the two facts about [window] it reads:
    whether a recognition constructor exists, and the synthesis object
    with its queue of utterances ([None] where the platform has none). *)
Record state : Type := mkState {
  supported : bool;
  recognition : option recognizer;
  synthesis : option (list utterance);
  isListening : bool;
  isSpeechEnabled : bool
}.

(** What a callback is invoked with. *)
Inductive payload : Type :=
| Str (s : jsstring)
| ExceptionMessage
| EndEvent.

(** Calls that leave the module. *)
Inductive effect : Type :=
| Invoke (f : callback) (arg : payload)
| ConsoleWarn
| ConsoleError
| RecognitionStart
| RecognitionStop
| SynthesisCancel
| SynthesisSpeak (u : utterance).

(** The module as loaded. *)
Definition loaded (sup : bool) (syn : option (list utterance)) : state :=
  mkState sup None syn false true.

Definition set_recognition (r : option recognizer) (st : state) : state :=
  mkState (supported st) r (synthesis st) (isListening st) (isSpeechEnabled st).

Definition set_synthesis (q : option (list utterance)) (st : state) : state :=
  mkState (supported st) (recognition st) q (isListening st) (isSpeechEnabled st).

Definition set_isListening (b : bool) (st : state) : state :=
  mkState (supported st) (recognition st) (synthesis st) b (isSpeechEnabled st).

Definition set_isSpeechEnabled (b : bool) (st : state) : state :=
  mkState (supported st) (recognition st) (synthesis st) (isListening st) b.

(** [isSupported()] *)
Definition isSupported (st : state) : bool := supported st.

(** [init()]: its return value, the state, the calls made. *)
Definition init (st : state) : bool * state * list effect :=
  if negb (isSupported st) then (false, st, [ConsoleWarn])
  else
    (true,
     set_recognition
       (Some (mkRecognizer (js "ru-RU") false false 1 None None false false)) st,
     []).

Definition invoke (f : option callback) (arg : payload) : list effect :=
  match f with Some g => [Invoke g arg] | None => [] end.

(** The part of [startListening] after the recognizer is known to exist. *)
Definition listen (onResult onError : option callback) (r : recognizer)
    (st : state) : state * list effect :=
  if isListening st then (st, [])
  else
    let r1 :=
      mkRecognizer (lang r) (continuous r) (interimResults r)
        (maxAlternatives r) (Some onResult) (Some onError) true (started r) in
    if started r then
      (* [recognition.start()] throws on an open session *)
      (set_isListening false (set_recognition (Some r1) st),
       ConsoleError :: invoke onError ExceptionMessage)
    else
      (set_isListening true
         (set_recognition
            (Some (mkRecognizer (lang r1) (continuous r1) (interimResults r1)
                     (maxAlternatives r1) (onresult r1) (onerror r1) (onend r1)
                     true)) st),
       [RecognitionStart]).

(** [startListening(onResult, onError)] *)
Definition startListening (onResult onError : option callback) (st : state)
    : state * list effect :=
  match recognition st with
  | Some r => listen onResult onError r st
  | None =>
      let '(ok, st1, tr) := init st in
      if negb ok then
        (st1, tr ++ invoke onError (Str (js "Speech recognition not supported")))
      else
        match recognition st1 with
        | Some r =>
            let (st2, tr2) := listen onResult onError r st1 in (st2, tr ++ tr2)
        | None => (st1, tr)
        end
  end.

(** [stopListening()] *)
Definition stopListening (st : state) : state * list effect :=
  match recognition st with
  | Some _ =>
      if isListening st then (set_isListening false st, [RecognitionStop])
      else (st, [])
  | None => (st, [])
  end.

(** [getIsListening()] *)
Definition getIsListening (st : state) : bool := isListening st.

(** [speak(text, onEnd)] *)
Definition speak (t : jsstring) (onEnd : option callback) (st : state)
    : state * list effect :=
  if negb (isSpeechEnabled st) then (st, [])
  else
    match synthesis st with
    | None => (st, [])
    | Some _ =>
        let u := mkUtterance t (js "ru-RU") 1 1 1 onEnd in
        (set_synthesis (Some [u]) st, [SynthesisCancel; SynthesisSpeak u])
    end.

(** [stopSpeaking()] *)
Definition stopSpeaking (st : state) : state * list effect :=
  match synthesis st with
  | Some _ => (set_synthesis (Some []) st, [SynthesisCancel])
  | None => (st, [])
  end.

(** [setSpeechEnabled(enabled)] *)
Definition setSpeechEnabled (enabled : bool) (st : state)
    : state * list effect :=
  let st1 := set_isSpeechEnabled enabled st in
  if negb enabled then stopSpeaking st1 else (st1, []).

(** [getSpeechEnabled()] *)
Definition getSpeechEnabled (st : state) : bool := isSpeechEnabled st.

(** The handlers [startListening] assigns, run when the platform fires
    the event on an open session. *)
Definition fire_result (transcript : jsstring) (st : state)
    : state * list effect :=
  match recognition st with
  | Some r =>
      match started r, onresult r with
      | true, Some onResult => (st, invoke onResult (Str transcript))
      | _, _ => (st, [])
      end
  | None => (st, [])
  end.

Definition fire_error (code : jsstring) (st : state) : state * list effect :=
  match recognition st with
  | Some r =>
      match started r, onerror r with
      | true, Some onError =>
          (set_isListening false st, ConsoleError :: invoke onError (Str code))
      | _, _ => (st, [])
      end
  | None => (st, [])
  end.

(** The end of a session: the platform closes it, and the [onend] handler,
    if assigned, clears the flag. *)
Definition fire_end (st : state) : state * list effect :=
  match recognition st with
  | Some r =>
      if started r then
        let r1 :=
          mkRecognizer (lang r) (continuous r) (interimResults r)
            (maxAlternatives r) (onresult r) (onerror r) (onend r) false in
        let st1 := set_recognition (Some r1) st in
        (if onend r then set_isListening false st1 else st1, [])
      else (st, [])
  | None => (st, [])
  end.

(** The utterance at the head of the queue has been spoken to its end. *)
Definition fire_utterance_end (st : state) : state * list effect :=
  match synthesis st with
  | Some (u :: q) => (set_synthesis (Some q) st, invoke (u_onend u) EndEvent)
  | _ => (st, [])
  end.

(** Calls into the module and events of the platform. *)
Inductive op : Type :=
| Init
| StartListening (onResult onError : option callback)
| StopListening
| Speak (t : jsstring) (onEnd : option callback)
| StopSpeaking
| SetSpeechEnabled (enabled : bool)
| FireResult (transcript : jsstring)
| FireError (code : jsstring)
| FireEnd
| FireUtteranceEnd.

Definition step (o : op) (st : state) : state * list effect :=
  match o with
  | Init => let '(_, st1, tr) := init st in (st1, tr)
  | StartListening onResult onError => startListening onResult onError st
  | StopListening => stopListening st
  | Speak t onEnd => speak t onEnd st
  | StopSpeaking => stopSpeaking st
  | SetSpeechEnabled b => setSpeechEnabled b st
  | FireResult t => fire_result t st
  | FireError c => fire_error c st
  | FireEnd => fire_end st
  | FireUtteranceEnd => fire_utterance_end st
  end.

Fixpoint run (ops : list op) (st : state) : state * list effect :=
  match ops with
  | [] => (st, [])
  | o :: rest =>
      let (st1, tr1) := step o st in
      let (st2, tr2) := run rest st1 in
      (st2, tr1 ++ tr2)
  end.

(** The utterances queued or being spoken. *)
Definition utterances (st : state) : list utterance :=
  match synthesis st with Some q => q | None => [] end.

Definition is_speak (e : effect) : bool :=
  match e with SynthesisSpeak _ => true | _ => false end.

Definition is_invoke (e : effect) : bool :=
  match e with Invoke _ _ => true | _ => false end.

(** States the module can be in: the module as loaded, after any calls and
    platform events. *)
Definition reachable (st : state) : Prop :=
  exists sup syn ops, st = fst (run ops (loaded sup syn)).

(** The flag is only ever raised on an existing recognizer. *)
Definition listening_has_recognizer (st : state) : Prop :=
  isListening st = true -> recognition st <> None.

(** Re-enabling is the one operation that lifts the mute. *)
Definition enables (o : op) : bool :=
  match o with SetSpeechEnabled true => true | _ => false end.

(** Speech output is off and nothing is queued or being spoken. *)
Definition silent (st : state) : Prop :=
  isSpeechEnabled st = false /\ utterances st = [].

Definition is_start (e : effect) : bool :=
  match e with RecognitionStart => true | _ => false end.

(** The platform has no recognition and the module has made none. *)
Definition unsupported (st : state) : Prop :=
  supported st = false /\ recognition st = None /\ isListening st = false.

End WithCallbacks.

Arguments ConsoleWarn {callback}.
Arguments ConsoleError {callback}.
Arguments RecognitionStart {callback}.
Arguments RecognitionStop {callback}.
Arguments SynthesisCancel {callback}.
Arguments Init {callback}.
Arguments StopListening {callback}.
Arguments StopSpeaking {callback}.
Arguments SetSpeechEnabled {callback} enabled.
Arguments FireResult {callback} transcript.
Arguments FireError {callback} code.
Arguments FireEnd {callback}.
Arguments FireUtteranceEnd {callback}.
Arguments loaded {callback} sup syn.

End Speech.

(* ================================================================== *)
(** * API module: the HTTP client and its simulated backend *)

Module Api.
Import JsString JsNumber.

(** JSON values; an object keeps its properties in insertion order. *)
Inductive json : Type :=
| JNull
| JBool (b : bool)
| JNum (n : number)
| JStr (s : jsstring)
| JArr (items : list json)
| JObj (props : list (jsstring * json)).

(** What a condition makes of a value: [null], [false], zero, NaN and the
    empty string count as false, everything else as true. *)
Definition is_truthy (v : json) : bool :=
  match v with
  | JNull => false
  | JBool b => b
  | JNum NaN => false
  | JNum (Fin q) => negb (Qeq_bool q 0)
  | JNum _ => true
  | JStr s => truthy s
  | JArr _ | JObj _ => true
  end.

(** [o[k]], with [None] for [undefined]. *)
Fixpoint prop (k : jsstring) (props : list (jsstring * json)) : option json :=
  match props with
  | [] => None
  | (k', v) :: rest => if JsString.eqb k k' then Some v else prop k rest
  end.

(** Defining a property: an existing key keeps its place and takes the new
    value, a new key goes last. *)
Fixpoint define (k : jsstring) (v : json) (props : list (jsstring * json))
    : list (jsstring * json) :=
  match props with
  | [] => [(k, v)]
  | (k', v') :: rest =>
      if JsString.eqb k k' then (k, v) :: rest else (k', v') :: define k v rest
  end.

(** [{...target, ...source}] for a source that is an object; the request
    bodies of this client are objects, and any other body is taken to
    contribute no property. *)
Definition spread (source : json) (target : list (jsstring * json))
    : list (jsstring * json) :=
  match source with
  | JObj props => fold_left (fun acc kv => define (fst kv) (snd kv) acc) props target
  | _ => target
  end.

Definition num (z : Z) : json := JNum (of_Z z).
Definition str (s : string) : json := JStr (js s).

(** The fixture data [MOCK_DATA]. *)
Definition MOCK_DATA_user : json :=
  JObj [(js "id", num 1); (js "name", str "John Doe");
        (js "email", str "john@example.com"); (js "balance", num 250000)].

Definition MOCK_DATA_token : json := str "mock_jwt_token_12345".

Definition goal (id : Z) (title : string) (target current : Z)
    (deadline created : string) : json :=
  JObj [(js "id", num id); (js "title", str title);
        (js "target_amount", num target); (js "current_amount", num current);
        (js "deadline", str deadline); (js "created_at", str created)].

Definition MOCK_DATA_goals : list json :=
  [goal 1 "Emergency Fund" 100000 75000 "2025-12-31" "2025-01-15";
   goal 2 "New Car" 500000 250000 "2026-06-30" "2025-02-01";
   goal 3 "Vacation to Dubai" 200000 50000 "2025-09-01" "2025-03-10"].

Definition MOCK_DATA_aiResponses : list (jsstring * json) :=
  [(js "баланс",
    JObj [(js "text", str "Ваш текущий баланс составляет 250,000 ₸. У вас есть 3 активные финансовые цели.");
          (js "suggested_action", JNull)]);
   (js "помоги с целями",
    JObj [(js "text", str "У вас 3 финансовые цели. Рекомендую увеличить ежемесячные взносы на Emergency Fund на 10,000 ₸.");
          (js "suggested_action",
           JObj [(js "type", str "update_goal_contribution");
                 (js "goal_id", num 1);
                 (js "amount", num 10000);
                 (js "title", str "Увеличить взнос на Emergency Fund");
                 (js "description", str "Увеличить ежемесячный взнос с текущего до 10,000 ₸ для достижения цели быстрее.")])]);
   (js "создай новую цель",
    JObj [(js "text", str "Хорошо! Давайте создадим новую финансовую цель. Какую сумму вы хотите накопить?");
          (js "suggested_action", JNull)])].

(** The module's configuration and the one fixture it mutates. *)
Record state : Type := mkState {
  BASE_URL : jsstring;
  USE_MOCK : bool;
  goals : list json
}.

Definition loaded : state :=
  mkState (js "http://127.0.0.1:5000") false MOCK_DATA_goals.

(** [setBaseUrl(url)] *)
Definition setBaseUrl (url : jsstring) (st : state) : state :=
  mkState url (USE_MOCK st) (goals st).

(** [setMockMode(useMock)] *)
Definition setMockMode (useMock : bool) (st : state) : state :=
  mkState (BASE_URL st) useMock (goals st).

(** [isMockMode()] *)
Definition isMockMode (st : state) : bool := USE_MOCK st.

(** Why a request fails: a status that is not a success, an exception of
    the transport, or a body that is not JSON. *)
Inductive failure : Type :=
| HttpError (status : N)
| TransportError
| BodyError.

(** How a promise ends: resolved with a value, rejected, or never settled
    (its timer callback threw before resolving). *)
Inductive outcome : Type :=
| Resolved (v : json)
| Rejected (why : failure)
| NeverSettled.

(** A promise, by the time it takes to settle and how it ends. *)
Record promise : Type := mkPromise { after : N; settles : outcome }.

(** What the network answers to a [fetch]: a transport failure, or a
    response with its [ok] flag, status and body ([None] when the body is
    not JSON). *)
Inductive fetch_result : Type :=
| NetworkFailure
| Response (ok : bool) (status : N) (body : option json).

(** What the module reads from its surroundings during a request. *)
Record env : Type := mkEnv {
  today : jsstring;                (* [new Date().toISOString().split('T')[0]] *)
  access_token : option jsstring;  (* [localStorage.getItem('access_token')] *)
  network : fetch_result;
  latency : N
}.

Record request : Type := mkRequest {
  url : jsstring;
  method : jsstring;
  content_type : jsstring;
  authorization : jsstring;
  payload : option json
}.

Inductive effect : Type :=
| Fetch (r : request)
| ConsoleError.

(** [authHeaders()]: the Authorization header. *)
Definition authHeaders (e : env) : jsstring :=
  match access_token e with
  | Some token => if truthy token then js "Bearer " ++ token else []
  | None => []
  end.

Section WithToLowerCase.

(** [String.prototype.toLowerCase], the platform's case mapping. *)
Variable toLowerCase : jsstring -> jsstring.

(** The reply chosen for a chat message: the first fixture whose key the
    lower-cased message includes, the balance reply when there is none. *)
Fixpoint first_match (message : jsstring) (entries : list (jsstring * json))
    : option json :=
  match entries with
  | [] => None
  | (key, value) :: rest =>
      if includes message (toLowerCase key) then Some value
      else first_match message rest
  end.

Definition or_undefined (v : option json) : json :=
  match v with Some j => j | None => JNull end.

(** [mockPost(path, body)] *)
Definition mockPost (e : env) (path : jsstring) (body : json) (st : state)
    : promise * state :=
  if includes path (js "/auth/login") then
    (mkPromise 500
       (Resolved
          (JObj [(js "user_id",
                  match MOCK_DATA_user with
                  | JObj u => or_undefined (prop (js "id") u)
                  | _ => JNull
                  end);
                 (js "access_token", MOCK_DATA_token);
                 (js "user", MOCK_DATA_user)])), st)
  else if includes path (js "/auth/register") then
    (mkPromise 500
       (Resolved
          (JObj [(js "user_id",
                  match MOCK_DATA_user with
                  | JObj u => or_undefined (prop (js "id") u)
                  | _ => JNull
                  end);
                 (js "access_token", MOCK_DATA_token)])), st)
  else if includes path (js "/ai/message") then
    match body with
    | JObj b =>
        match prop (js "message") b with
        | Some (JStr m) =>
            let message := toLowerCase m in
            let response :=
              match first_match message MOCK_DATA_aiResponses with
              | Some value => value
              | None => or_undefined (prop (js "баланс") MOCK_DATA_aiResponses)
              end in
            (mkPromise 500 (Resolved response), st)
        | _ => (mkPromise 500 NeverSettled, st)
        end
    | _ => (mkPromise 500 NeverSettled, st)
    end
  else if includes path (js "/ai/execute") then
    (mkPromise 500
       (Resolved
          (JObj [(js "success", JBool true);
                 (js "result",
                  JObj [(js "message", str "Action executed successfully")])])),
     st)
  else if includes path (js "/goals") then
    let newGoal :=
      JObj (define (js "created_at") (JStr (today e))
              (define (js "current_amount") (num 0)
                 (spread body
                    [(js "id", num (Z.of_nat (List.length (goals st)) + 1))]))) in
    (mkPromise 500 (Resolved newGoal),
     mkState (BASE_URL st) (USE_MOCK st) (goals st ++ [newGoal]))
  else
    (mkPromise 500 (Resolved (JObj [(js "message", str "Mock POST response")])),
     st).

(** [post(path, body)] *)
Definition post (e : env) (path : jsstring) (body : json) (st : state)
    : promise * state * list effect :=
  if USE_MOCK st then
    let (p, st1) := mockPost e path body st in (p, st1, [])
  else
    let req :=
      mkRequest (BASE_URL st ++ path) (js "POST") (js "application/json")
        (authHeaders e) (Some body) in
    match network e with
    | NetworkFailure =>
        (mkPromise (latency e) (Rejected TransportError), st,
         [Fetch req; ConsoleError])
    | Response false status _ =>
        (mkPromise (latency e) (Rejected (HttpError status)), st,
         [Fetch req; ConsoleError])
    | Response true _ None =>
        (mkPromise (latency e) (Rejected BodyError), st,
         [Fetch req; ConsoleError])
    | Response true _ (Some v) =>
        (mkPromise (latency e) (Resolved v), st, [Fetch req])
    end.

(** [login(email, password)] *)
Definition login (e : env) (email password : jsstring) (st : state)
    : promise * state * list effect :=
  post e (js "/auth/login")
    (JObj [(js "email", JStr email); (js "password", JStr password)]) st.

(** [register(userData)] *)
Definition register (e : env) (userData : json) (st : state)
    : promise * state * list effect :=
  post e (js "/auth/register") userData st.

(** [sendAIMessage(userId, message)] *)
Definition sendAIMessage (e : env) (userId : json) (message : jsstring)
    (st : state) : promise * state * list effect :=
  post e (js "/ai/message")
    (JObj [(js "user_id", userId); (js "message", JStr message)]) st.

(** [executeAIAction(userId, action)] *)
Definition executeAIAction (e : env) (userId : json) (action : json)
    (st : state) : promise * state * list effect :=
  post e (js "/ai/execute")
    (JObj [(js "user_id", userId); (js "action", action)]) st.

End WithToLowerCase.

(** What a simulated login resolves with. *)
Definition login_reply : json :=
  JObj [(js "user_id", JNum (Fin 1));
        (js "access_token", JStr (js "mock_jwt_token_12345"));
        (js "user", MOCK_DATA_user)].

End Api.

(* ================================================================== *)
(** * Authentication module: the session in local storage *)

Module Auth.
Import JsString JsNumber JsParse.

(** [localStorage]: string values under string keys, one per key. *)
Definition storage := list (jsstring * jsstring).

Fixpoint getItem (k : jsstring) (ls : storage) : option jsstring :=
  match ls with
  | [] => None
  | (k', v) :: rest => if JsString.eqb k k' then Some v else getItem k rest
  end.

Fixpoint removeItem (k : jsstring) (ls : storage) : storage :=
  match ls with
  | [] => []
  | (k', v) :: rest =>
      if JsString.eqb k k' then removeItem k rest else (k', v) :: removeItem k rest
  end.

Definition setItem (k v : jsstring) (ls : storage) : storage :=
  removeItem k ls ++ [(k, v)].

(** [isLoggedIn()] *)
Definition isLoggedIn (ls : storage) : bool :=
  match getItem (js "access_token") ls with
  | Some token => truthy token
  | None => false
  end.

(** [getCurrentUserId()]; [None] is [null]. *)
Definition getCurrentUserId (ls : storage) : option number :=
  match getItem (js "user_id") ls with
  | Some userId => if truthy userId then Some (parseInt userId) else None
  | None => None
  end.

(** What the login and register endpoints answer with; the user id is an
    integer. *)
Record credentials : Type := mkCredentials {
  access_token : jsstring;
  user_id : Z;
  user : option Api.json
}.

(** The submit button of a form. *)
Record button : Type := mkButton { disabled : bool; textContent : jsstring }.

(** Calls that leave the module. *)
Inductive effect : Type :=
| ApiLogin (email password : jsstring)
| ApiRegister (name email password : jsstring)
| ShowToast (message type : jsstring)
| ConsoleError
| RedirectAfter (ms : N) (href : jsstring).

Section WithJson.

(** [JSON.stringify] *)
Variable JSON_stringify : Api.json -> jsstring.

(** [handleLogin(event)], up to the await. *)
Definition handleLogin (email password : jsstring) (b : button)
    : button * list effect :=
  (mkButton true (js "Вход..."), [ApiLogin email password]).

(** [handleLogin] resumed with the response. *)
Definition login_resolved (response : credentials) (ls : storage) (b : button)
    : storage * button * list effect :=
  let ls1 := setItem (js "access_token") (access_token response) ls in
  let ls2 := setItem (js "user_id") (integer_toString (user_id response)) ls1 in
  let ls3 :=
    match user response with
    | Some u =>
        if Api.is_truthy u then setItem (js "user_data") (JSON_stringify u) ls2
        else ls2
    | None => ls2
    end in
  (ls3, b,
   [ShowToast (js "Успешный вход!") (js "success");
    RedirectAfter 1000 (js "dashboard.html")]).

(** [handleLogin] resumed with the failure. *)
Definition login_rejected (ls : storage) (b : button)
    : storage * button * list effect :=
  (ls, mkButton false (js "Войти"),
   [ConsoleError; ShowToast (js "Ошибка входа. Проверьте данные.") (js "error")]).

End WithJson.

(** [handleRegister(event)], up to the await: nothing is sent when the two
    passwords differ. *)
Definition handleRegister (name email password confirmPassword : jsstring)
    (b : button) : button * list effect :=
  if negb (JsString.eqb password confirmPassword) then
    (b, [ShowToast (js "Пароли не совпадают") (js "error")])
  else (mkButton true (js "Регистрация..."), [ApiRegister name email password]).

(** [handleRegister] resumed with the response. *)
Definition register_resolved (response : credentials) (ls : storage)
    (b : button) : storage * button * list effect :=
  let ls1 := setItem (js "access_token") (access_token response) ls in
  let ls2 := setItem (js "user_id") (integer_toString (user_id response)) ls1 in
  (ls2, b,
   [ShowToast (js "Регистрация успешна!") (js "success");
    RedirectAfter 1000 (js "dashboard.html")]).

(** [handleRegister] resumed with the failure. *)
Definition register_rejected (ls : storage) (b : button)
    : storage * button * list effect :=
  (ls, mkButton false (js "Зарегистрироваться"),
   [ConsoleError;
    ShowToast (js "Ошибка регистрации. Попробуйте снова.") (js "error")]).

(** [logout()] *)
Definition logout (ls : storage) : storage * list effect :=
  (removeItem (js "user_data")
     (removeItem (js "user_id") (removeItem (js "access_token") ls)),
   [ShowToast (js "Вы вышли из системы") (js "info");
    RedirectAfter 1000 (js "index.html")]).

(** What the API module reads of the session when it builds its headers. *)
Definition request_env (ls : storage) (e : Api.env) : Api.env :=
  Api.mkEnv (Api.today e) (getItem (js "access_token") ls) (Api.network e)
    (Api.latency e).

(** The three keys of the session. *)
Definition session_key (k : jsstring) : bool :=
  JsString.eqb k (js "access_token") || JsString.eqb k (js "user_id")
  || JsString.eqb k (js "user_data").

Definition is_register (e : effect) : bool :=
  match e with ApiRegister _ _ _ => true | _ => false end.

End Auth.

(* ================================================================== *)
(** * AI chat module *)

Module Chat.
Import JsString.

Inductive role : Type := User | Assistant.

(** An element that carries an id, with the elements carrying an id that
    lie inside it, in tree order.  Elements without an id are left out:
    what lies inside them counts as lying where they are. *)
Inductive tag : Type := Tag (id : jsstring) (inside : list tag).

Definition tag_id (t : tag) : jsstring :=
  match t with Tag i _ => i end.

(** The platform's HTML parser, as far as ids go: [addMessage] writes the
    text of a message into its bubble as markup, and these are the
    elements with an id that the bubble then holds. *)
Class HtmlParser : Type := innerHTML : jsstring -> list tag.

(** The children of the messages container: a message with the text it
    was written with, its kind, the clock reading shown under it and the
    elements with an id inside its bubble; or a typing indicator, whose
    element id is ["typing-"] followed by [id] in decimal.  Nothing else
    of the page is taken to carry such an id in front of the container;
    the dialogs and toasts come after it. *)
Inductive element : Type :=
| Message (text : jsstring) (type : role) (time : N) (inside : list tag)
| TypingIndicator (id : N).

(** The element without the first element of the id below it, if there is
    one; [cut] is the same for a sequence of elements, the elements
    themselves included. *)
Fixpoint cut_in (id : jsstring) (t : tag) : option tag :=
  match t with
  | Tag i inside =>
      option_map (Tag i)
        ((fix cut (ts : list tag) : option (list tag) :=
            match ts with
            | [] => None
            | c :: rest =>
                if JsString.eqb (tag_id c) id then Some rest
                else
                  match cut_in id c with
                  | Some c' => Some (c' :: rest)
                  | None => option_map (cons c) (cut rest)
                  end
            end) inside)
  end.

Fixpoint cut (id : jsstring) (ts : list tag) : option (list tag) :=
  match ts with
  | [] => None
  | c :: rest =>
      if JsString.eqb (tag_id c) id then Some rest
      else
        match cut_in id c with
        | Some c' => Some (c' :: rest)
        | None => option_map (cons c) (cut id rest)
        end
  end.

(** The id of a typing indicator. *)
Definition typing_id (id : N) : jsstring :=
  js "typing-" ++ JsParse.integer_toString (Z.of_N id).

(** A suggested action: the two properties the controller reads, and the
    object it passes on. *)
Record action : Type := mkAction {
  title : option jsstring;
  description : option jsstring;
  data : Api.json
}.

(** The reply of the assistant endpoint. *)
Record response : Type := mkResponse {
  text : jsstring;
  suggested_action : option action
}.

(** The two functions [handleMicClick] hands to the speech module. *)
Inductive closure : Type := MicOnResult | MicOnError.

(** An activation of [handleSendMessage] suspended at one of its awaits:
    at the reply request (holding the id of its indicator), at the
    confirmation dialog, or at the execution request. *)
Inductive activation : Type :=
| AwaitingReply (typingId : N)
| AwaitingConfirmation (a : action)
| AwaitingExecution (a : action).

Record state : Type := mkState {
  messages : list element;        (* children of [messagesContainer] *)
  inputValue : jsstring;          (* [messageInput.value] *)
  micActive : bool;               (* class [mic-active] on the mic button *)
  micListening : bool;            (* class [listening] on the mic button *)
  micWired : bool;                (* the mic button has its click listener *)
  speech : Speech.state closure;
  pending : list activation;
  currentUserId : Api.json;       (* what [auth.getCurrentUserId()] returns *)
  pathname : jsstring             (* [window.location.pathname] *)
}.

(** Calls that leave the controller. *)
Inductive effect : Type :=
| SendAIMessage (userId : Api.json) (message : jsstring)
| ExecuteAIAction (userId : Api.json) (a : action)
| ShowConfirmModal (title message confirmText cancelText : jsstring)
| ShowToast (message type : jsstring)
| ConsoleError
| DispatchDashboardRefresh
| SpeechEffect (e : Speech.effect closure).

Definition set_messages (m : list element) (st : state) : state :=
  mkState m (inputValue st) (micActive st) (micListening st) (micWired st)
    (speech st) (pending st) (currentUserId st) (pathname st).

Definition set_inputValue (v : jsstring) (st : state) : state :=
  mkState (messages st) v (micActive st) (micListening st) (micWired st)
    (speech st) (pending st) (currentUserId st) (pathname st).

Definition set_mic (b : bool) (st : state) : state :=
  mkState (messages st) (inputValue st) b b (micWired st)
    (speech st) (pending st) (currentUserId st) (pathname st).

Definition set_speech (s : Speech.state closure) (st : state) : state :=
  mkState (messages st) (inputValue st) (micActive st) (micListening st)
    (micWired st) s (pending st) (currentUserId st) (pathname st).

Definition set_pending (p : list activation) (st : state) : state :=
  mkState (messages st) (inputValue st) (micActive st) (micListening st)
    (micWired st) (speech st) p (currentUserId st) (pathname st).

Section WithParser.

Context {parser : HtmlParser}.

(** [addMessage(text, type)] *)
Definition addMessage (t : jsstring) (type : role) (now : N) (st : state)
    : state :=
  set_messages (messages st ++ [Message t type now (innerHTML t)]) st.

(** [showTypingIndicator()]: the id comes from the clock. *)
Definition showTypingIndicator (now : N) (st : state) : N * state :=
  (now, set_messages (messages st ++ [TypingIndicator now]) st).

(** [document.getElementById(id)] followed by [remove()]: the first
    element carrying the id, in tree order, goes, if there is one; it may
    be an indicator or an element inside a bubble. *)
Fixpoint remove_by_id (id : N) (l : list element) : list element :=
  match l with
  | [] => []
  | TypingIndicator i :: r =>
      if (i =? id)%N then r else TypingIndicator i :: remove_by_id id r
  | Message t type time inside :: r =>
      match cut (typing_id id) inside with
      | Some inside' => Message t type time inside' :: r
      | None => Message t type time inside :: remove_by_id id r
      end
  end.

(** [removeTypingIndicator(id)] *)
Definition removeTypingIndicator (id : N) (st : state) : state :=
  set_messages (remove_by_id id (messages st)) st.

(** [handleSendMessage()], up to its first await. *)
Definition handleSendMessage (now : N) (st : state) : state * list effect :=
  let message := trim (inputValue st) in
  if negb (truthy message) then (st, [])
  else
    let st1 := set_inputValue [] st in
    let st2 := addMessage message User now st1 in
    let (typingId, st3) := showTypingIndicator now st2 in
    (set_pending (pending st3 ++ [AwaitingReply typingId]) st3,
     [SendAIMessage (currentUserId st3) message]).

(** The closures of [handleMicClick], run when the speech module invokes
    them; every call of the speech module is passed on as an effect. *)
Definition on_speech_effect (now : N) (e : Speech.effect closure) (st : state)
    : state * list effect :=
  match e with
  | Speech.Invoke MicOnResult (Speech.Str transcript) =>
      handleSendMessage now (set_mic false (set_inputValue transcript st))
  | Speech.Invoke MicOnError _ =>
      (set_mic false st,
       [ConsoleError; ShowToast (js "Ошибка распознавания речи") (js "error")])
  | _ => (st, [])
  end.

Fixpoint deliver (now : N) (tr : list (Speech.effect closure)) (st : state)
    : state * list effect :=
  match tr with
  | [] => (st, [])
  | e :: rest =>
      let (st1, out1) := on_speech_effect now e st in
      let (st2, out2) := deliver now rest st1 in
      (st2, SpeechEffect e :: out1 ++ out2)
  end.

(** A call into the speech module, or one of its platform events. *)
Definition with_speech (now : N) (o : Speech.op closure) (st : state)
    : state * list effect :=
  let (sp, tr) := Speech.step o (speech st) in
  deliver now tr (set_speech sp st).

(** [handleMicClick()] *)
Definition handleMicClick (now : N) (st : state) : state * list effect :=
  if Speech.getIsListening (speech st) then
    let (st1, out) := with_speech now Speech.StopListening st in
    (set_mic false st1, out)
  else
    let (st1, out) :=
      with_speech now
        (Speech.StartListening (Some MicOnResult) (Some MicOnError)) st in
    (set_mic true st1, out).

(** [x || d] for an optional string. *)
Definition or_default (x : option jsstring) (d : jsstring) : jsstring :=
  match x with
  | Some s => if truthy s then s else d
  | None => d
  end.

Definition remove_nth (k : nat) (l : list activation) : list activation :=
  firstn k l ++ skipn (S k) l.

Definition replace_nth (k : nat) (a : activation) (l : list activation)
    : list activation :=
  firstn k l ++ a :: skipn (S k) l.

Definition apology : jsstring := js "Извините, произошла ошибка. Попробуйте снова.".

(** [handleSuggestedAction(action)], up to its first await: the dialog is
    put up and the activation waits for the choice. *)
Definition handleSuggestedAction (a : action) : activation * list effect :=
  (AwaitingConfirmation a,
   [ShowConfirmModal
      (or_default (title a) (js "Подтвердите действие"))
      (or_default (description a)
         (js "AI предлагает выполнить действие. Продолжить?"))
      (js "Подтвердить") (js "Отмена")]).

(** [handleSendMessage] resumed with the reply: the rest of the [try]
    block, up to the await in [handleSuggestedAction] when the reply
    suggests an action. *)
Definition reply_arrives (k : nat) (r : response) (now : N) (st : state)
    : state * list effect :=
  match nth_error (pending st) k with
  | Some (AwaitingReply typingId) =>
      let st1 := removeTypingIndicator typingId st in
      let st2 := addMessage (text r) Assistant now st1 in
      let (st3, out) :=
        if Speech.getSpeechEnabled (speech st2) then
          with_speech now (Speech.Speak (text r) None) st2
        else (st2, []) in
      match suggested_action r with
      | Some a =>
          let (waiting, shown) := handleSuggestedAction a in
          (set_pending (replace_nth k waiting (pending st3)) st3, out ++ shown)
      | None => (set_pending (remove_nth k (pending st3)) st3, out)
      end
  | _ => (st, [])
  end.

(** [handleSendMessage] resumed with the rejection: the [catch] block. *)
Definition reply_fails (k : nat) (now : N) (st : state) : state * list effect :=
  match nth_error (pending st) k with
  | Some (AwaitingReply typingId) =>
      let st1 := removeTypingIndicator typingId st in
      let st2 := addMessage apology Assistant now st1 in
      (set_pending (remove_nth k (pending st2)) st2, [ConsoleError])
  | _ => (st, [])
  end.

(** [handleSuggestedAction] resumed with the user's choice. *)
Definition modal_closes (k : nat) (confirmed : bool) (st : state)
    : state * list effect :=
  match nth_error (pending st) k with
  | Some (AwaitingConfirmation a) =>
      if confirmed then
        (set_pending (replace_nth k (AwaitingExecution a) (pending st)) st,
         [ExecuteAIAction (currentUserId st) a])
      else (set_pending (remove_nth k (pending st)) st, [])
  | _ => (st, [])
  end.

(** [handleSuggestedAction] resumed with the result of the execution. *)
Definition execution_returns (k : nat) (success : bool) (now : N) (st : state)
    : state * list effect :=
  match nth_error (pending st) k with
  | Some (AwaitingExecution a) =>
      let st1 := set_pending (remove_nth k (pending st)) st in
      if success then
        (addMessage (js "Действие выполнено успешно!") Assistant now st1,
         ShowToast (js "Действие выполнено успешно") (js "success")
         :: (if includes (pathname st) (js "dashboard.html")
             then [DispatchDashboardRefresh] else []))
      else
        (addMessage (js "Извините, не удалось выполнить действие.") Assistant now st1,
         [ShowToast (js "Не удалось выполнить действие") (js "error")])
  | _ => (st, [])
  end.

(** [handleSuggestedAction] resumed with a failed execution request. *)
Definition execution_fails (k : nat) (now : N) (st : state)
    : state * list effect :=
  match nth_error (pending st) k with
  | Some (AwaitingExecution a) =>
      let st1 := set_pending (remove_nth k (pending st)) st in
      (addMessage (js "Произошла ошибка при выполнении действия.") Assistant now st1,
       [ConsoleError; ShowToast (js "Ошибка выполнения действия") (js "error")])
  | _ => (st, [])
  end.

(** What happens on the page: the user's actions, the platform's speech
    events, and the settling of the promises the controller awaits ([k]
    is the position of the activation in [pending]). Each carries the
    reading of the clock where the handler reads it. *)
Inductive event : Type :=
| Input (v : jsstring)
| ClickSend (now : N)
| KeyPress (key : jsstring) (shiftKey : bool) (now : N)
| ClickMic (now : N)
| VoiceToggle (checked : bool) (now : N)
| Platform (o : Speech.op closure) (now : N)
| ReplyArrives (k : nat) (r : response) (now : N)
| ReplyFails (k : nat) (now : N)
| ModalCloses (k : nat) (confirmed : bool)
| ExecutionReturns (k : nat) (success : bool) (now : N)
| ExecutionFails (k : nat) (now : N).

(** The platform's events among the operations of the speech module. *)
Definition is_platform_event (o : Speech.op closure) : bool :=
  match o with
  | Speech.FireResult _ | Speech.FireError _ | Speech.FireEnd
  | Speech.FireUtteranceEnd => true
  | _ => false
  end.

Definition step (ev : event) (st : state) : state * list effect :=
  match ev with
  | Input v => (set_inputValue v st, [])
  | ClickSend now => handleSendMessage now st
  | KeyPress key shiftKey now =>
      if JsString.eqb key (js "Enter") && negb shiftKey
      then handleSendMessage now st
      else (st, [])
  | ClickMic now => if micWired st then handleMicClick now st else (st, [])
  | VoiceToggle checked now =>
      with_speech now (Speech.SetSpeechEnabled checked) st
  | Platform o now =>
      if is_platform_event o then with_speech now o st else (st, [])
  | ReplyArrives k r now => reply_arrives k r now st
  | ReplyFails k now => reply_fails k now st
  | ModalCloses k confirmed => modal_closes k confirmed st
  | ExecutionReturns k success now => execution_returns k success now st
  | ExecutionFails k now => execution_fails k now st
  end.

Fixpoint run (evs : list event) (st : state) : state * list effect :=
  match evs with
  | [] => (st, [])
  | ev :: rest =>
      let (st1, out1) := step ev st in
      let (st2, out2) := run rest st1 in
      (st2, out1 ++ out2)
  end.

(** [displayWelcomeMessage()]: [name] is the stored user's name, if a
    user is stored. *)
Definition displayWelcomeMessage (name : option jsstring) (now : N)
    (st : state) : state :=
  addMessage
    (js "Здравствуйте, "
     ++ match name with Some n => n | None => js "пользователь" end
     ++ js "! Я ваш финансовый AI-помощник. Чем могу помочь сегодня?")
    Assistant now st.

(** [init()], on a page that has the chat elements, the mic button and the
    voice toggle: the recognizer is made and the mic button wired where
    recognition is supported, and the welcome is shown. *)
Definition init (name : option jsstring) (userId : Api.json) (path : jsstring)
    (sup : bool) (syn : option (list (Speech.utterance closure))) (now : N)
    : state :=
  let sp0 := Speech.loaded sup syn in
  let sp :=
    if negb (Speech.isSupported sp0) then sp0
    else snd (fst (Speech.init sp0)) in
  displayWelcomeMessage name now
    (mkState [] [] false false (Speech.isSupported sp0) sp [] userId path).

(** The ids of the indicators on the page, in order. *)
Fixpoint indicator_ids (l : list element) : list N :=
  match l with
  | [] => []
  | TypingIndicator i :: r => i :: indicator_ids r
  | Message _ _ _ _ :: r => indicator_ids r
  end.

(** The indicator ids held by the sends whose reply is still awaited. *)
Fixpoint awaited_ids (p : list activation) : list N :=
  match p with
  | [] => []
  | AwaitingReply i :: r => i :: awaited_ids r
  | _ :: r => awaited_ids r
  end.

Definition is_reply_request (e : effect) : bool :=
  match e with SendAIMessage _ _ => true | _ => false end.

Definition is_execute_request (e : effect) : bool :=
  match e with ExecuteAIAction _ _ => true | _ => false end.

(** The states of the controller's loop, read off the suspended
    activations: it awaits input when nothing is suspended. *)
Definition AwaitingInput (st : state) : Prop := pending st = [].

(** States the page can be in: the controller as initialised, after any
    sequence of events. *)
Definition reachable (st : state) : Prop :=
  exists name userId path sup syn now evs,
    st = fst (run evs (init name userId path sup syn now)).

(** The indicators on the page are those of the sends still awaiting
    their reply, one each. *)
Definition coherent (st : state) : Prop :=
  Permutation (indicator_ids (messages st)) (awaited_ids (pending st)).

(** The state after the reply has been shown and, if enabled, spoken. *)
Definition spoken (t : jsstring) (st : state) : state * list effect :=
  if Speech.getSpeechEnabled (speech st) then
    (set_speech (fst (Speech.speak t None (speech st))) st,
     map SpeechEffect (snd (Speech.speak t None (speech st))))
  else (st, []).

(** The page as initialised for a guest, with the text typed in. *)
Definition fresh (typed : jsstring) : state :=
  fst (run [Input typed] (init None Api.JNull (js "/index.html") false None 0)).

(** The page after a send from a state that awaits input. *)
Definition sent (now : N) (st : state) : state :=
  set_pending [AwaitingReply now]
    (set_messages
       (messages st ++ [Message (trim (inputValue st)) User now
                          (innerHTML (trim (inputValue st)));
                        TypingIndicator now])
       (set_inputValue [] st)).

(** The messages on the page, the indicators left out. *)
Definition is_message (e : element) : bool :=
  match e with Message _ _ _ _ => true | TypingIndicator _ => false end.

Definition shown_messages (l : list element) : list element :=
  filter is_message l.

(** The texts of the user's messages on the page, in order. *)
Fixpoint user_texts (l : list element) : list jsstring :=
  match l with
  | [] => []
  | Message t User _ _ :: r => t :: user_texts r
  | _ :: r => user_texts r
  end.

(** The texts sent to the reply endpoint, in order. *)
Fixpoint requested_texts (out : list effect) : list jsstring :=
  match out with
  | [] => []
  | SendAIMessage _ m :: r => m :: requested_texts r
  | _ :: r => requested_texts r
  end.

Definition is_dialog (e : effect) : bool :=
  match e with ShowConfirmModal _ _ _ _ => true | _ => false end.

(** The actions whose dialog is up and not yet answered. *)
Fixpoint awaiting_choice (p : list activation) : list action :=
  match p with
  | [] => []
  | AwaitingConfirmation a :: r => a :: awaiting_choice r
  | _ :: r => awaiting_choice r
  end.

(** The numbers of execution requests made and of dialogs put up. *)
Definition executions (out : list effect) : nat :=
  List.length (filter is_execute_request out).

Definition dialogs (out : list effect) : nat :=
  List.length (filter is_dialog out).

(** The messages as they were written on the page, each with its text,
    its kind and its time, in order. *)
Fixpoint writings (l : list element) : list (jsstring * role * N) :=
  match l with
  | [] => []
  | Message t type time _ :: r => (t, type, time) :: writings r
  | TypingIndicator _ :: r => writings r
  end.

(** What a step does to the page and what it asks of the reply endpoint:
    it appends messages, and the user's messages it appends are the texts
    it requests a reply for. *)
Definition extends (st st' : state) (out : list effect) : Prop :=
  (exists added, writings (messages st')
                 = writings (messages st) ++ added)
  /\ user_texts (messages st')
     = user_texts (messages st) ++ requested_texts out.

(** Every execution request answers a dialog: over a step or a run, the
    requests made and the dialogs still open are covered by the dialogs
    that were open and those put up. *)
Definition answered (st st' : state) (out : list effect) : Prop :=
  (executions out + List.length (awaiting_choice (pending st'))
   <= List.length (awaiting_choice (pending st)) + dialogs out)%nat.

Definition is_refresh (e : effect) : bool :=
  match e with DispatchDashboardRefresh => true | _ => false end.

(** How an execution request ends: with a result that reports success or
    not, or with an error ([None]). *)
Definition execution_ends (k : nat) (outcome : option bool) (now : N) : event :=
  match outcome with
  | Some success => ExecutionReturns k success now
  | None => ExecutionFails k now
  end.

(** The message the controller appends for each ending. *)
Definition execution_message (outcome : option bool) : jsstring :=
  match outcome with
  | Some true => js "Действие выполнено успешно!"
  | Some false => js "Извините, не удалось выполнить действие."
  | None => js "Произошла ошибка при выполнении действия."
  end.

(** The calls the chat page makes into the speech module, and the
    platform's events: [init] is called once, before any of them, and
    [startListening] always with the two closures of [handleMicClick]. *)
Definition page_op (o : Speech.op closure) : Prop :=
  match o with
  | Speech.Init => False
  | Speech.StartListening onResult onError =>
      onResult = Some MicOnResult /\ onError = Some MicOnError
  | _ => True
  end.

(** A recognition session is open on the platform. *)
Definition session_open (sp : Speech.state closure) : bool :=
  match Speech.recognition sp with
  | Some r => Speech.started r
  | None => false
  end.

(** What the speech module holds while the chat page drives it: only the
    two closures of [handleMicClick] are ever assigned as handlers, an
    open session has them assigned, and the listening flag is up only
    during an open session. *)
Definition mic_session (sp : Speech.state closure) : Prop :=
  (Speech.isListening sp = true -> Speech.recognition sp <> None)
  /\ forall r, Speech.recognition sp = Some r ->
       (Speech.isListening sp = true -> Speech.started r = true)
       /\ (Speech.started r = true ->
           Speech.onresult r = Some (Some MicOnResult)
           /\ Speech.onerror r = Some (Some MicOnError)
           /\ Speech.onend r = true).

(** What the page keeps about its microphone: the speech module is in a
    session of the page's making, and a wired mic button has a recognizer
    behind it. *)
Definition mic_ready (st : state) : Prop :=
  mic_session (speech st)
  /\ (micWired st = true -> Speech.recognition (speech st) <> None).

(** An element of the id among the elements, at any depth. *)
Fixpoint tag_has (id : jsstring) (t : tag) : bool :=
  match t with
  | Tag i inside =>
      JsString.eqb i id
      || (fix any (ts : list tag) : bool :=
            match ts with
            | [] => false
            | c :: rest => tag_has id c || any rest
            end) inside
  end.

Fixpoint tags_have (id : jsstring) (ts : list tag) : bool :=
  match ts with
  | [] => false
  | c :: rest => tag_has id c || tags_have id rest
  end.

(** An element of the page carries the id of the indicator [id]. *)
Fixpoint has_id (id : N) (l : list element) : bool :=
  match l with
  | [] => false
  | TypingIndicator i :: r => (i =? id)%N || has_id id r
  | Message _ _ _ inside :: r => tags_have (typing_id id) inside || has_id id r
  end.

(** No bubble holds an element with the id of an indicator. *)
Fixpoint plain (l : list element) : Prop :=
  match l with
  | [] => True
  | TypingIndicator _ :: r => plain r
  | Message _ _ _ inside :: r =>
      (forall id, tags_have (typing_id id) inside = false) /\ plain r
  end.

(** A run through pages that are all plain. *)
Fixpoint plainly (evs : list event) (st : state) : Prop :=
  plain (messages st)
  /\ match evs with
     | [] => True
     | ev :: rest => plainly rest (fst (step ev st))
     end.

(** The indicators on the page cover the sends still awaiting their
    reply: each of those has one, and [stale] are the others. *)
Definition covered (st : state) (stale : list N) : Prop :=
  Permutation (indicator_ids (messages st)) (awaited_ids (pending st) ++ stale).

End WithParser.

(** What the platform makes of the texts of the examples: the markup
    [<i id=typing-7>] gives an element of that id, and a text without it
    gives none. *)
Definition example_parser : HtmlParser :=
  fun t => if includes t (js "<i id=typing-7>") then [Tag (js "typing-7") []]
           else [].

End Chat.

(* ================================================================== *)
(** * Admin panel module *)

Module Admin.
Import JsString JsNumber JsParse.

(** An entry of the action log. *)
Record log : Type := mkLog {
  id : number;
  user_id : number;
  action_type : jsstring;
  timestamp : jsstring;
  status : jsstring
}.

(** The filters object: a property is [None] when absent. *)
Record filters : Type := mkFilters {
  by_user_id : option jsstring;
  by_action_type : option jsstring;
  by_status : option jsstring
}.

(** What the logs container shows. *)
Inductive view : Type :=
| Loading
| EmptyState
| ErrorText
| Table (rows : list log).

(** The module's [logsData] and the logs container. *)
Record state : Type := mkState {
  logsData : list log;
  logs_table : view
}.

(** A filter property is used when it is truthy. *)
Definition given (x : option jsstring) : option jsstring :=
  match x with
  | Some s => if truthy s then Some s else None
  | None => None
  end.

(** [filterLogs(filters)]: the three passes over a copy of [logsData],
    and the table rendered from what is left. *)
Definition filterLogs (fl : filters) (st : state) : state :=
  let filtered := logsData st in
  let filtered :=
    match given (by_user_id fl) with
    | Some u => filter (fun l => strict_eq (user_id l) (parseInt u)) filtered
    | None => filtered
    end in
  let filtered :=
    match given (by_action_type fl) with
    | Some a => filter (fun l => JsString.eqb (action_type l) a) filtered
    | None => filtered
    end in
  let filtered :=
    match given (by_status fl) with
    | Some s => filter (fun l => JsString.eqb (status l) s) filtered
    | None => filtered
    end in
  mkState (logsData st) (Table filtered).

(** An entry passes the filters that are given. *)
Definition admits (fl : filters) (l : log) : bool :=
  match given (by_user_id fl) with
  | Some u => strict_eq (user_id l) (parseInt u)
  | None => true
  end
  && match given (by_action_type fl) with
     | Some a => JsString.eqb (action_type l) a
     | None => true
     end
  && match given (by_status fl) with
     | Some s => JsString.eqb (status l) s
     | None => true
     end.

(** The fixture logs. *)
Definition fixture : list log :=
  [mkLog (of_Z 1) (of_Z 1) (js "update_goal_contribution")
     (js "2025-10-18 14:30:00") (js "completed");
   mkLog (of_Z 2) (of_Z 1) (js "create_goal")
     (js "2025-10-17 10:15:00") (js "completed");
   mkLog (of_Z 3) (of_Z 2) (js "balance_check")
     (js "2025-10-16 16:45:00") (js "completed")].

End Admin.


(* ================================================================== *)
(** * api.js: reading data, and creating a goal *)

Module ApiData.
Import JsString JsNumber Api.

Definition transaction (id : Z) (date description : string) (amount : Z)
    (type : string) : json :=
  JObj [(js "id", num id); (js "date", str date);
        (js "description", str description); (js "amount", num amount);
        (js "type", str type)].

Definition MOCK_DATA_transactions : list json :=
  [transaction 1 "2025-10-18" "Salary Deposit" 150000 "credit";
   transaction 2 "2025-10-17" "Grocery Shopping" (-15000) "debit";
   transaction 3 "2025-10-16" "Utility Bills" (-8500) "debit";
   transaction 4 "2025-10-15" "Online Purchase" (-25000) "debit";
   transaction 5 "2025-10-14" "Transfer from Savings" 50000 "credit"].

Definition log_entry (id user_id : Z) (action_type timestamp status : string)
    : json :=
  JObj [(js "id", num id); (js "user_id", num user_id);
        (js "action_type", str action_type); (js "timestamp", str timestamp);
        (js "status", str status)].

Definition MOCK_DATA_logs : list json :=
  [log_entry 1 1 "update_goal_contribution" "2025-10-18 14:30:00" "completed";
   log_entry 2 1 "create_goal" "2025-10-17 10:15:00" "completed";
   log_entry 3 2 "balance_check" "2025-10-16 16:45:00" "completed"].

(** [mockGet(path)].  The timers of the mock all run for the same time,
    so they fire in the order of the calls, and what a call resolves with
    is what the fixture holds once the earlier calls have had their
    effect. *)
Definition mockGet (path : jsstring) (st : state) : promise :=
  mkPromise 500
    (Resolved
       (if includes path (js "/goals") then JArr (goals st)
        else if includes path (js "/transactions") then
          JArr MOCK_DATA_transactions
        else if includes path (js "/admin/logs") then JArr MOCK_DATA_logs
        else JObj [(js "message", str "Mock GET response")])).

(** [get(path)] *)
Definition get (e : env) (path : jsstring) (st : state)
    : promise * list effect :=
  if USE_MOCK st then (mockGet path st, [])
  else
    let req :=
      mkRequest (BASE_URL st ++ path) (js "GET") (js "application/json")
        (authHeaders e) None in
    match network e with
    | NetworkFailure =>
        (mkPromise (latency e) (Rejected TransportError),
         [Fetch req; ConsoleError])
    | Response false status _ =>
        (mkPromise (latency e) (Rejected (HttpError status)),
         [Fetch req; ConsoleError])
    | Response true _ None =>
        (mkPromise (latency e) (Rejected BodyError), [Fetch req; ConsoleError])
    | Response true _ (Some v) =>
        (mkPromise (latency e) (Resolved v), [Fetch req])
    end.

(** [getUserGoals(userId)]; [userId] is the text the template literal
    gives the id. *)
Definition getUserGoals (e : env) (userId : jsstring) (st : state)
    : promise * list effect :=
  get e (js "/users/" ++ userId ++ js "/goals") st.

(** [getUserTransactions(userId)] *)
Definition getUserTransactions (e : env) (userId : jsstring) (st : state)
    : promise * list effect :=
  get e (js "/users/" ++ userId ++ js "/transactions") st.

(** [getAdminLogs(filters)]; [query] is the text of
    [new URLSearchParams(filters)]. *)
Definition getAdminLogs (e : env) (query : jsstring) (st : state)
    : promise * list effect :=
  get e (js "/admin/logs" ++ (if truthy query then js "?" ++ query else []))
    st.

Section WithToLowerCase.

Variable toLowerCase : jsstring -> jsstring.

(** [createGoal(userId, goalData)] *)
Definition createGoal (e : env) (userId : jsstring) (goalData : json)
    (st : state) : promise * state * list effect :=
  post toLowerCase e (js "/users/" ++ userId ++ js "/goals") goalData st.

End WithToLowerCase.

(** A property of a JSON value, [None] when it has none of that name. *)
Definition field (k : jsstring) (v : json) : option json :=
  match v with JObj props => prop k props | _ => None end.

(** No slash in the text. *)
Definition no_slash (s : jsstring) : bool :=
  forallb (fun c => negb (c =? 47)%N) s.

(** The text of a user id in a path: no slash in it, and neither [a] nor
    [g] at its front.  The text of a number qualifies, and so do [null] and
    [NaN]. *)
Definition id_segment (s : jsstring) : bool :=
  no_slash s && negb (startsWith s (js "a")) && negb (startsWith s (js "g")).

(** The code unit [a] directly followed by [b] somewhere in the text. *)
Fixpoint has_pair (a b : N) (s : jsstring) : bool :=
  match s with
  | [] => false
  | x :: r =>
      match r with
      | [] => false
      | y :: _ => ((x =? a) && (y =? b))%N || has_pair a b r
      end
  end.

(** The requests among the effects. *)
Fixpoint requests (es : list effect) : list request :=
  match es with
  | [] => []
  | Fetch r :: rest => r :: requests rest
  | ConsoleError :: rest => requests rest
  end.

End ApiData.

(* ================================================================== *)
(** * dashboard.js: loading the dashboard, and the goal form *)

Module Dashboard.
Import JsString JsNumber JsParse Validator.

(** [!userId] for what [getCurrentUserId] returns: [null], NaN and zero
    are falsy. *)
Definition no_user (userId : option number) : bool :=
  match userId with
  | None => true
  | Some NaN => true
  | Some (Fin q) => Qeq_bool q 0
  | Some _ => false
  end.

(** What [loadDashboard] goes on to do. *)
Inductive step : Type :=
| Redirect (href : jsstring)
| LoadGoals (userId : number)
| LoadTransactions (userId : number)
| UpdateBalance.

(** [loadDashboard()]: the redirection, or the three loads in their
    order; [loadGoals] and [loadTransactions] catch their own failures. *)
Definition loadDashboard (ls : Auth.storage) : list step :=
  match Auth.getCurrentUserId ls with
  | Some userId =>
      if no_user (Some userId) then [Redirect (js "login.html")]
      else [LoadGoals userId; LoadTransactions userId; UpdateBalance]
  | None => [Redirect (js "login.html")]
  end.

(** How [handleCreateGoal] reaches its await, if it does. *)
Inductive submission : Type :=
| Invalid (f : form)
| Sent (f : form) (submitBtn : Auth.button) (userId : option number)
       (goalData : Api.json).

Section WithPlatform.

Variable Number_toString : number -> jsstring.
Variable Date_getTime : jsstring -> number.

(** The rules of the goal form. *)
Definition goal_rules : list (jsstring * list validator) :=
  [(js "goal_title",
    [fun val => validateRequired val (Some (js "Название цели"))]);
   (js "target_amount",
    [fun val => validateNumber Number_toString (VStr val)
                  (Some (of_Z 1000)) None]);
   (js "deadline", [fun val => validateDate Date_getTime val])].

(** What the three rules ask of the values of the three controls. *)
Definition acceptable (title amount deadline : jsstring) : Prop :=
  (exists c, In c title /\ is_white_space c = false)
  /\ ge (parseFloat (VStr amount)) (of_Z 1000) = true
  /\ deadline <> [] /\ isNaN (Date_getTime deadline) = false.

(** [handleCreateGoal(event)], up to the await; [None] is the TypeError of
    reading the value of a control the form does not have. *)
Definition handleCreateGoal (f : form) (submitBtn : Auth.button)
    (ls : Auth.storage) : option submission :=
  match element (js "goal_title") f, element (js "target_amount") f,
        element (js "deadline") f with
  | Some t, Some a, Some d =>
      let title := value_of t in
      let targetAmount := parseFloat (VStr (value_of a)) in
      let deadline := value_of d in
      let (isValid, f') := validateForm f goal_rules in
      if negb isValid then Some (Invalid f')
      else
        Some (Sent f' (Auth.mkButton true (js "Создание..."))
                (Auth.getCurrentUserId ls)
                (Api.JObj [(js "title", Api.JStr title);
                           (js "target_amount", Api.JNum targetAmount);
                           (js "deadline", Api.JStr deadline)]))
  | _, _, _ => None
  end.

End WithPlatform.

End Dashboard.

(* ================================================================== *)
(** * utils.js: [debounce] and [throttle] *)

Module Timing.

(** A pending timer of the page: its id, the time before which it does not
    run, and what it was set with. *)
Record timer (P : Type) : Type := mkTimer {
  timer_id : nat;
  due : N;
  payload : P
}.

Arguments mkTimer {P}.
Arguments timer_id {P}.
Arguments due {P}.
Arguments payload {P}.

(** The pending timers without the one of that id. *)
Definition without {P} (id : nat) (ts : list (timer P)) : list (timer P) :=
  filter (fun t => negb (Nat.eqb (timer_id t) id)) ts.

(** [clearTimeout(id)]; [None] is [undefined], which clears nothing. *)
Definition clearTimeout {P} (id : option nat) (ts : list (timer P))
    : list (timer P) :=
  match id with
  | Some i => without i ts
  | None => ts
  end.

(** The timer of that id, if it is pending and its time has come. *)
Definition ready {P} (id : nat) (now : N) (ts : list (timer P))
    : option (timer P) :=
  match find (fun t => Nat.eqb (timer_id t) id) ts with
  | Some t => if (due t <=? now)%N then Some t else None
  | None => None
  end.

Section WithArgs.

(** The arguments of a call. *)
Variable A : Type.

(** What happens to the function returned: it is called, or one of its
    timers runs. *)
Inductive event : Type :=
| Invoke (args : A)
| Fire (id : nat).

(** The variables of a closure made by [throttle], with the timers it has
    set and the id the next timer gets. *)
Record throttled : Type := mkThrottled {
  inThrottle : bool;
  resets : list (timer unit);
  t_next : nat
}.

(** As returned by [throttle(func, limit)]: [inThrottle] is undefined. *)
Definition throttle : throttled := mkThrottled false [] 0.

(** One event at the time [now]; the calls of [func] it makes are
    returned, and [None] says the event cannot happen. *)
Definition throttle_step (limit now : N) (ev : event) (st : throttled)
    : option (throttled * list A) :=
  match ev with
  | Invoke args =>
      if negb (inThrottle st) then
        Some (mkThrottled true
                (resets st ++ [mkTimer (t_next st) (now + limit)%N tt])
                (S (t_next st)),
              [args])
      else Some (st, [])
  | Fire id =>
      match ready id now (resets st) with
      | Some _ =>
          Some (mkThrottled false (without id (resets st)) (t_next st), [])
      | None => None
      end
  end.

(** The variables of a closure made by [debounce]: [timeout], and the
    timers set, each with the arguments its [later] was made for. *)
Record debounced : Type := mkDebounced {
  timeout : option nat;
  laters : list (timer A);
  d_next : nat
}.

(** As returned by [debounce(func, wait)]: [timeout] is undefined. *)
Definition debounce : debounced := mkDebounced None [] 0.

Definition debounce_step (wait now : N) (ev : event) (st : debounced)
    : option (debounced * list A) :=
  match ev with
  | Invoke args =>
      let cleared := clearTimeout (timeout st) (laters st) in
      Some (mkDebounced (Some (d_next st))
              (cleared ++ [mkTimer (d_next st) (now + wait)%N args])
              (S (d_next st)),
            [])
  | Fire id =>
      match ready id now (laters st) with
      | Some t =>
          Some (mkDebounced (timeout st)
                  (clearTimeout (timeout st) (without id (laters st)))
                  (d_next st),
                [payload t])
      | None => None
      end
  end.

(** A run of timed events from the time [clock] on: the calls of [func]
    with their times, oldest first.  Time does not go back. *)
Fixpoint run {S : Type} (step : N -> event -> S -> option (S * list A))
    (evs : list (N * event)) (clock : N) (st : S)
    : option (S * list (N * A)) :=
  match evs with
  | [] => Some (st, [])
  | (now, ev) :: rest =>
      if (now <? clock)%N then None
      else
        match step now ev st with
        | Some (st1, calls) =>
            match run step rest now st1 with
            | Some (st2, later_calls) =>
                Some (st2, map (fun a => (now, a)) calls ++ later_calls)
            | None => None
            end
        | None => None
        end
  end.

(** Calls at least [gap] apart. *)
Fixpoint spaced (gap : N) (calls : list (N * A)) : Prop :=
  match calls with
  | [] => True
  | (t1, _) :: rest =>
      match rest with
      | [] => True
      | (t2, _) :: _ => (t1 + gap <= t2)%N /\ spaced gap rest
      end
  end.

(** The calls of the function returned, with their times. *)
Fixpoint invocations (evs : list (N * event)) : list (N * A) :=
  match evs with
  | [] => []
  | (t, Invoke a) :: rest => (t, a) :: invocations rest
  | (_, Fire _) :: rest => invocations rest
  end.

(** What the variables of a throttled function are once [func] was last
    called at [last]: in the throttle the one timer of that call is
    pending, out of it none is and the time of the limit has passed. *)
Definition throttle_inv (limit clock : N) (last : option N) (st : throttled)
    : Prop :=
  if inThrottle st then
    exists id t1, last = Some t1
                  /\ resets st = [mkTimer id (t1 + limit)%N tt]
  else
    resets st = []
    /\ match last with Some t1 => (t1 + limit <= clock)%N | None => True end.

(** What the variables of a debounced function are after a call that no
    timer has followed yet ([prev], with its time and arguments), and when
    there is none. *)
Definition debounce_inv (wait : N) (prev : option (N * A)) (st : debounced)
    : Prop :=
  match prev with
  | Some (t0, a) =>
      exists id, laters st = [mkTimer id (t0 + wait)%N a]
                 /\ timeout st = Some id
  | None => laters st = []
  end.

(** [settled], told the call that came just before. *)
Fixpoint settled_after (prev : option (N * A)) (evs : list (N * event))
    : list (N * N * A) :=
  match evs with
  | [] => []
  | (t, Invoke a) :: rest => settled_after (Some (t, a)) rest
  | (t, Fire _) :: rest =>
      match prev with
      | Some (t0, a) => (t0, t, a) :: settled_after None rest
      | None => settled_after None rest
      end
  end.

(** The calls that a timer follows directly: the time of the call, the
    time of the timer, and the arguments of the call. *)
Fixpoint settled (evs : list (N * event)) : list (N * N * A) :=
  match evs with
  | [] => []
  | (t0, Invoke a) :: rest =>
      match rest with
      | (t, Fire _) :: _ => (t0, t, a) :: settled rest
      | _ => settled rest
      end
  | (_, Fire _) :: rest => settled rest
  end.

End WithArgs.

End Timing.
(* ================================================================== *)
(** * Properties of strings and numbers *)

Module JsStringFacts.
Import JsString.

Lemma eqb_eq s t : eqb s t = true <-> s = t.
Proof.
  revert t; induction s as [|a s IH]; intros [|b t]; simpl;
    try (split; [discriminate | congruence]); [tauto|].
  rewrite andb_true_iff, N.eqb_eq, IH. split.
  - intros [-> ->]; reflexivity.
  - intros E; injection E; auto.
Qed.

Lemma startsWith_refl s : startsWith s s = true.
Proof. induction s as [|a s IH]; simpl; [|rewrite N.eqb_refl; simpl]; auto. Qed.

Lemma startsWith_app s r : startsWith (s ++ r) s = true.
Proof. induction s as [|a s IH]; simpl; [|rewrite N.eqb_refl; simpl]; auto. Qed.

Lemma includes_of_startsWith s p : startsWith s p = true -> includes s p = true.
Proof. intros H. destruct s; cbn [includes]; rewrite H; reflexivity. Qed.

Lemma includes_app_intro l s r : includes (l ++ s ++ r) s = true.
Proof.
  induction l as [|a l IH].
  - cbn [app]. apply includes_of_startsWith, startsWith_app.
  - cbn [app includes]. rewrite IH. apply orb_true_r.
Qed.

Lemma trimStart_blank s : forallb is_white_space s = true -> trimStart s = [].
Proof.
  induction s as [|c s IH]; cbn [forallb trimStart]; [reflexivity|].
  intros H. apply andb_true_iff in H as [-> H]. auto.
Qed.

Lemma trimStart_nil_blank s : trimStart s = [] -> forallb is_white_space s = true.
Proof.
  induction s as [|c s IH]; cbn [forallb trimStart]; [reflexivity|].
  destruct (is_white_space c); [exact IH | discriminate].
Qed.

(** What [trimStart] leaves is empty or starts with a character that is
    not white space. *)
Lemma trimStart_head s :
  match trimStart s with [] => True | c :: _ => is_white_space c = false end.
Proof.
  induction s as [|c s IH]; cbn [trimStart]; [exact I|].
  destruct (is_white_space c) eqn:E; [exact IH | exact E].
Qed.

(** A string trims to nothing exactly when it is white space throughout. *)
Lemma trim_nil_iff s : trim s = [] <-> forallb is_white_space s = true.
Proof.
  unfold trim, trimEnd. split.
  - intros H. apply trimStart_nil_blank.
    apply (f_equal (@rev N)) in H. rewrite rev_involutive in H. cbn [rev] in H.
    apply trimStart_nil_blank in H.
    assert (H' : forallb is_white_space (trimStart s) = true).
    { apply forallb_forall. intros x Hx.
      apply (proj1 (forallb_forall _ _) H), in_rev. rewrite rev_involutive.
      exact Hx. }
    clear H. rename H' into H.
    pose proof (trimStart_head s) as T.
    destruct (trimStart s) as [|c r]; [reflexivity|].
    cbn [forallb] in H. rewrite T in H. discriminate.
  - intros H. rewrite (trimStart_blank _ H). reflexivity.
Qed.

End JsStringFacts.

Module JsNumberFacts.
Import JsNumber.
Lemma Qltb_lt a b : Qltb a b = true <-> (a < b)%Q.
Proof.
  unfold Qltb. rewrite negb_true_iff. split.
  - intros H. apply Qnot_le_lt. intros L.
    apply Qle_bool_iff in L. congruence.
  - intros H. destruct (Qle_bool b a) eqn:E; auto.
    apply Qle_bool_iff in E. exfalso. exact (Qlt_not_le _ _ H E).
Qed.

Lemma Qltb_ge a b : Qltb a b = false <-> (b <= a)%Q.
Proof.
  unfold Qltb. rewrite negb_false_iff. apply Qle_bool_iff.
Qed.

Lemma le_Fin a b : le (Fin a) (Fin b) = true <-> (a <= b)%Q.
Proof. simpl. rewrite negb_true_iff. apply Qltb_ge. Qed.

Lemma lt_Fin a b : lt (Fin a) (Fin b) = true <-> (a < b)%Q.
Proof. apply Qltb_lt. Qed.

Lemma Math_min_of_Z z w : Math_min (of_Z z) (of_Z w) = of_Z (Z.min z w).
Proof.
  unfold Math_min, of_Z, lt.
  destruct (Qltb (inject_Z w) (inject_Z z)) eqn:E.
  - apply Qltb_lt in E. rewrite <- Zlt_Qlt in E.
    rewrite Z.min_r by lia. reflexivity.
  - apply Qltb_ge in E. rewrite <- Zle_Qle in E.
    rewrite Z.min_l by lia. reflexivity.
Qed.

Lemma two_pos e : 0 < 2 ^ e.
Proof. apply Qpower_0_lt. reflexivity. Qed.

Lemma two_succ e : 2 ^ (e + 1) == 2 * 2 ^ e.
Proof. rewrite Qpower_plus by discriminate. rewrite Qpower_1_r. ring. Qed.

Lemma two_le e f : (e <= f)%Z -> 2 ^ e <= 2 ^ f.
Proof. intros H. apply Qpower_le_compat_l; [exact H | discriminate]. Qed.

Lemma two_lt e f : (e < f)%Z -> 2 ^ e < 2 ^ f.
Proof. intros H. apply Qpower_lt_compat_l; [exact H | reflexivity]. Qed.

Lemma two_Z k : (0 <= k)%Z -> inject_Z (2 ^ k) == 2 ^ k.
Proof. intros H. apply (Zpower_Qpower 2 k H). Qed.

(** floor of the binary logarithm *)
Lemma ilog2_spec a : 0 < a -> 2 ^ ilog2 a <= a /\ a < 2 ^ (ilog2 a + 1).
Proof.
  intros Ha. unfold ilog2.
  destruct a as [n d]. cbn [Qnum Qden].
  assert (Hn : (0 < n)%Z) by (unfold Qlt in Ha; cbn in Ha; lia).
  set (ln := Z.log2 n). set (ld := Z.log2 (Z.pos d)).
  assert (Ln : (0 <= ln)%Z) by apply Z.log2_nonneg.
  assert (Ld : (0 <= ld)%Z) by apply Z.log2_nonneg.
  destruct (Z.log2_spec n Hn) as [N1 N2]. fold ln in N1, N2.
  destruct (Z.log2_spec (Z.pos d) (eq_refl : (0 < Z.pos d)%Z)) as [D1 D2].
  fold ld in D1, D2.
  assert (Q1 : 2 ^ ln <= inject_Z n) by (rewrite <- two_Z by lia; rewrite <- Zle_Qle; exact N1).
  assert (Q2 : inject_Z n < 2 ^ (ln + 1)).
  { rewrite <- two_Z by lia. rewrite <- Zlt_Qlt. replace (ln + 1)%Z with (Z.succ ln) by lia. exact N2. }
  assert (Q3 : 2 ^ ld <= inject_Z (Z.pos d)) by (rewrite <- two_Z by lia; rewrite <- Zle_Qle; exact D1).
  assert (Q4 : inject_Z (Z.pos d) < 2 ^ (ld + 1)).
  { rewrite <- two_Z by lia. rewrite <- Zlt_Qlt. replace (ld + 1)%Z with (Z.succ ld) by lia. exact D2. }
  assert (E : n # d == inject_Z n / inject_Z (Z.pos d)) by apply Qmake_Qdiv.
  assert (Dp : 0 < inject_Z (Z.pos d)) by reflexivity.
  (* a < 2^(e0+1) and 2^(e0-1) < a *)
  assert (U : n # d < 2 ^ (ln - ld + 1)).
  { rewrite E. apply Qlt_shift_div_r; [exact Dp|].
    eapply Qlt_le_trans; [exact Q2|].
    replace (ln + 1)%Z with ((ln - ld + 1) + ld)%Z by lia.
    rewrite Qpower_plus by discriminate.
    apply Qmult_le_l; [apply two_pos | exact Q3]. }
  assert (L : 2 ^ (ln - ld - 1) <= n # d).
  { rewrite E. apply Qle_shift_div_l; [exact Dp|].
    eapply Qle_trans; [|exact Q1].
    replace ln with ((ln - ld - 1) + (ld + 1))%Z at 2 by lia.
    rewrite Qpower_plus by discriminate.
    apply Qmult_le_l; [apply two_pos | apply Qlt_le_weak, Q4]. }
  destruct (Qle_bool (2 ^ (ln - ld)) (n # d)) eqn:B.
  - apply Qle_bool_iff in B. split; assumption.
  - split; [exact L|].
    replace (ln - ld - 1 + 1)%Z with (ln - ld)%Z by lia.
    apply Qnot_le_lt. intros C. apply Qle_bool_iff in C. congruence.
Qed.

Lemma ilog2_unique a e : 2 ^ e <= a -> a < 2 ^ (e + 1) -> ilog2 a = e.
Proof.
  intros L U.
  assert (Ha : 0 < a) by (eapply Qlt_le_trans; [apply (two_pos e) | exact L]).
  destruct (ilog2_spec Ha) as [L' U'].
  assert (A : (e < ilog2 a + 1)%Z).
  { apply (Qpower_lt_compat_l_inv 2); [|reflexivity].
    eapply Qle_lt_trans; eassumption. }
  assert (B : (ilog2 a < e + 1)%Z).
  { apply (Qpower_lt_compat_l_inv 2); [|reflexivity].
    eapply Qle_lt_trans; eassumption. }
  lia.
Qed.

Lemma ilog2_mono a b : 0 < a -> a <= b -> (ilog2 a <= ilog2 b)%Z.
Proof.
  intros Ha Hab.
  assert (Hb : 0 < b) by (eapply Qlt_le_trans; eassumption).
  destruct (ilog2_spec Ha) as [L _]. destruct (ilog2_spec Hb) as [_ U].
  assert (A : (ilog2 a < ilog2 b + 1)%Z).
  { apply (Qpower_lt_compat_l_inv 2); [|reflexivity].
    eapply Qle_lt_trans; [exact L|]. eapply Qle_lt_trans; eassumption. }
  lia.
Qed.

Lemma ilog2_comp a b : 0 < a -> a == b -> ilog2 a = ilog2 b.
Proof.
  intros Ha E. destruct (ilog2_spec Ha) as [L U].
  symmetry. apply ilog2_unique; rewrite <- E; assumption.
Qed.

(** * Rounding to the nearest integer, ties to even *)

Lemma rne_cases x :
  let f := Qfloor x in
  (rne x = f /\ (x - inject_Z f < 1 # 2 \/ (x - inject_Z f == 1 # 2 /\ Z.even f = true)))
  \/ (rne x = (f + 1)%Z
      /\ ((1 # 2) < x - inject_Z f \/ (x - inject_Z f == 1 # 2 /\ Z.even f = false))).
Proof.
  cbv zeta. unfold rne.
  destruct (Qcompare (x - inject_Z (Qfloor x)) (1 # 2)) eqn:C.
  - apply Qeq_alt in C. destruct (Z.even (Qfloor x)) eqn:E; [left | right]; auto.
  - apply Qlt_alt in C. left; auto.
  - apply Qgt_alt in C. right; auto.
Qed.

Lemma floor_bounds x : inject_Z (Qfloor x) <= x /\ x < inject_Z (Qfloor x) + 1.
Proof.
  split; [apply Qfloor_le|].
  pose proof (Qlt_floor x) as H. rewrite inject_Z_plus in H. exact H.
Qed.

Lemma inj_succ z : inject_Z (z + 1) == inject_Z z + 1.
Proof. rewrite inject_Z_plus. reflexivity. Qed.

(** An integer at most [x] is at most its rounding, and one at least [x]
    is at least its rounding. *)
Lemma rne_lower k x : inject_Z k <= x -> (k <= rne x)%Z.
Proof.
  intros H. assert (F : (k <= Qfloor x)%Z).
  { rewrite <- (Qfloor_Z k). apply Qfloor_resp_le, H. }
  destruct (rne_cases x) as [[-> _]|[-> _]]; lia.
Qed.

Lemma rne_upper k x : x <= inject_Z k -> (rne x <= k)%Z.
Proof.
  intros H. destruct (floor_bounds x) as [F1 F2].
  destruct (Z_lt_le_dec (Qfloor x) k) as [L|G].
  - destruct (rne_cases x) as [[-> _]|[-> _]]; lia.
  - assert (E : x == inject_Z (Qfloor x)).
    { apply Qle_antisym; [|exact F1].
      eapply Qle_trans; [exact H|]. rewrite <- Zle_Qle. exact G. }
    assert (K : Qfloor x = k).
    { apply Z.le_antisymm; [|exact G]. rewrite Zle_Qle. rewrite <- E. exact H. }
    destruct (rne_cases x) as [[-> _]|[_ [C|[C _]]]]; [lia| |]; exfalso; lra.
Qed.

Lemma rne_mono x y : x <= y -> (rne x <= rne y)%Z.
Proof.
  intros H. destruct (floor_bounds x) as [X1 X2], (floor_bounds y) as [Y1 Y2].
  assert (F : (Qfloor x <= Qfloor y)%Z) by apply Qfloor_resp_le, H.
  destruct (Z_lt_le_dec (Qfloor x) (Qfloor y)) as [L|G].
  - assert (rne x <= Qfloor x + 1)%Z
      by (destruct (rne_cases x) as [[-> _]|[-> _]]; lia).
    assert (Qfloor y <= rne y)%Z
      by (destruct (rne_cases y) as [[-> _]|[-> _]]; lia).
    lia.
  - assert (E : Qfloor x = Qfloor y) by lia.
    destruct (rne_cases x) as [[-> _]|[-> Cx]];
      destruct (rne_cases y) as [[-> Cy]|[-> _]]; try lia.
    exfalso. rewrite E in Cx.
    destruct Cx as [Cx|[Cx Ex]], Cy as [Cy|[Cy Ey]]; try lra.
    congruence.
Qed.

(** Where the rounding reaches an integer [m]. *)
Lemma rne_ge_iff m x :
  (m <= rne x)%Z <->
  if Z.even m then inject_Z m - (1 # 2) <= x else inject_Z m - (1 # 2) < x.
Proof.
  destruct (floor_bounds x) as [X1 X2].
  set (f := Qfloor x) in *.
  assert (I : forall a b : Z, (a <= b)%Z -> inject_Z a <= inject_Z b)
    by (intros; rewrite <- Zle_Qle; assumption).
  destruct (Z_lt_le_dec f m) as [L|G].
  - destruct (Z.eq_dec m (f + 1)) as [->|NE].
    + (* m = f + 1 *)
      pose proof (inj_succ f) as S.
      assert (Ev : Z.even (f + 1) = negb (Z.even f)).
      { replace (f + 1)%Z with (Z.succ f) by lia. apply Z.even_succ_succ || rewrite Z.even_succ, <- Z.negb_even; reflexivity. }
      destruct (rne_cases x) as [[-> C]|[-> C]]; fold f in C.
      * split; [lia|]. intros H. exfalso.
        rewrite Ev in H. destruct C as [C|[C E]].
        -- destruct (Z.even f); cbn in H; lra.
        -- rewrite E in H. cbn in H. lra.
      * split; [|lia]. intros _. rewrite Ev.
        destruct C as [C|[C E]].
        -- destruct (Z.even f); cbn; lra.
        -- rewrite E. cbn. lra.
    + (* m >= f + 2 *)
      assert (M : inject_Z (f + 2) <= inject_Z m) by (apply I; lia).
      rewrite inject_Z_plus in M. change (inject_Z 2) with 2 in M.
      assert (R1 : (rne x <= f + 1)%Z)
        by (destruct (rne_cases x) as [[-> _]|[-> _]]; fold f; lia).
      split; [lia|]. intros H. exfalso. destruct (Z.even m); lra.
  - assert (M : inject_Z m <= inject_Z f) by (apply I; lia).
    assert (R1 : (f <= rne x)%Z)
      by (destruct (rne_cases x) as [[-> _]|[-> _]]; fold f; lia).
    split; [|lia]. intros _. destruct (Z.even m); lra.
Qed.

(** * The binary64 grid *)

(** The exponent, the unit in the last place and the rounded value of a
    positive rational. *)
Local Abbreviation expo a := (Z.max (ilog2 a) (-1022)).
Local Abbreviation ulp a := (2 ^ (expo a - 52)).
Local Abbreviation grid a := (inject_Z (rne (a / ulp a)) * ulp a).

Lemma scale_up e : 2 ^ 53 * 2 ^ (e - 52) == 2 ^ (e + 1).
Proof.
  rewrite <- Qpower_plus by discriminate. apply Qpower_comp; [reflexivity | lia].
Qed.

Lemma scale_low e : 2 ^ 52 * 2 ^ (e - 52) == 2 ^ e.
Proof.
  rewrite <- Qpower_plus by discriminate. apply Qpower_comp; [reflexivity | lia].
Qed.

Lemma div_ulp_lt a e k : a < 2 ^ (e + 1) -> k = 53%Z -> a / 2 ^ (e - 52) < 2 ^ k.
Proof.
  intros H ->. apply Qlt_shift_div_r; [apply two_pos|].
  rewrite scale_up. exact H.
Qed.

Lemma div_ulp_ge a e : 2 ^ e <= a -> 2 ^ 52 <= a / 2 ^ (e - 52).
Proof.
  intros H. apply Qle_shift_div_l; [apply two_pos|].
  rewrite scale_low. exact H.
Qed.

Lemma le_two_Z x k : (0 <= k)%Z -> x <= 2 ^ k -> x <= inject_Z (2 ^ k).
Proof. intros K H. eapply Qle_trans; [exact H|]. rewrite (two_Z K). apply Qle_refl. Qed.

Lemma two_Z_le x k : (0 <= k)%Z -> 2 ^ k <= x -> inject_Z (2 ^ k) <= x.
Proof. intros K H. eapply Qle_trans; [|exact H]. rewrite (two_Z K). apply Qle_refl. Qed.

Lemma inj_two_le (m : Z) k : (0 <= k)%Z -> (m <= 2 ^ k)%Z -> inject_Z m <= 2 ^ k.
Proof. intros K H. rewrite <- (two_Z K). rewrite <- Zle_Qle. exact H. Qed.

Lemma two_le_inj (m : Z) k : (0 <= k)%Z -> (2 ^ k <= m)%Z -> 2 ^ k <= inject_Z m.
Proof. intros K H. rewrite <- (two_Z K). rewrite <- Zle_Qle. exact H. Qed.

Lemma grid_upper a : 0 < a -> grid a <= 2 ^ (expo a + 1).
Proof.
  intros Ha. destruct (ilog2_spec Ha) as [_ U].
  assert (U' : a < 2 ^ (expo a + 1)).
  { eapply Qlt_le_trans; [exact U|]. apply two_le. lia. }
  assert (R : (rne (a / ulp a) <= 2 ^ 53)%Z).
  { apply rne_upper. apply le_two_Z; [lia|].
    apply Qlt_le_weak, div_ulp_lt; [exact U' | reflexivity]. }
  rewrite <- scale_up. apply Qmult_le_compat_r; [|apply Qlt_le_weak, two_pos].
  apply inj_two_le; [lia | exact R].
Qed.

Lemma grid_lower a : 0 < a -> (-1022 <= ilog2 a)%Z -> 2 ^ expo a <= grid a.
Proof.
  intros Ha N. destruct (ilog2_spec Ha) as [L _].
  rewrite Z.max_l by lia.
  assert (R : (2 ^ 52 <= rne (a / 2 ^ (ilog2 a - 52)))%Z).
  { apply rne_lower. apply two_Z_le; [lia|]. apply div_ulp_ge, L. }
  rewrite <- scale_low at 1.
  apply Qmult_le_compat_r; [|apply Qlt_le_weak, two_pos].
  apply two_le_inj; [lia | exact R].
Qed.

Lemma grid_nonneg a : 0 < a -> 0 <= grid a.
Proof.
  intros Ha. apply Qmult_le_0_compat; [|apply Qlt_le_weak, two_pos].
  change 0 with (inject_Z 0). rewrite <- Zle_Qle. apply rne_lower.
  apply Qlt_le_weak, Qlt_shift_div_l; [apply two_pos|].
  rewrite Qmult_0_l. exact Ha.
Qed.

Lemma grid_mono a b : 0 < a -> a <= b -> grid a <= grid b.
Proof.
  intros Ha Hab.
  assert (Hb : 0 < b) by (eapply Qlt_le_trans; eassumption).
  pose proof (ilog2_mono Ha Hab) as M.
  destruct (Z.eq_dec (expo a) (expo b)) as [E|NE].
  - rewrite E. apply Qmult_le_compat_r; [|apply Qlt_le_weak, two_pos].
    rewrite <- Zle_Qle. apply rne_mono.
    apply Qmult_le_compat_r; [exact Hab|].
    apply Qlt_le_weak, Qinv_lt_0_compat, two_pos.
  - assert (S : (expo a + 1 <= expo b)%Z) by lia.
    assert (Nb : (-1022 <= ilog2 b)%Z) by lia.
    eapply Qle_trans; [apply (grid_upper Ha)|].
    eapply Qle_trans; [apply (two_le S)|].
    apply (grid_lower Hb Nb).
Qed.

Lemma grid_comp a b : 0 < a -> a == b -> grid a == grid b.
Proof.
  intros Ha E. rewrite (ilog2_comp Ha E).
  assert (R : rne (a / ulp b) = rne (b / ulp b)).
  { apply Z.le_antisymm; apply rne_mono; rewrite E; apply Qle_refl. }
  rewrite R. reflexivity.
Qed.

Lemma round_pos_cases a :
  (round_pos a = PosInf /\ 2 ^ 1024 <= grid a)
  \/ (round_pos a = Fin (Qred (grid a)) /\ grid a < 2 ^ 1024).
Proof.
  unfold round_pos. cbv zeta.
  destruct (Qle_bool (2 ^ 1024) (grid a)) eqn:B.
  - left. split; [reflexivity | apply Qle_bool_iff, B].
  - right. split; [reflexivity|]. apply Qnot_le_lt. intros C.
    apply Qle_bool_iff in C. congruence.
Qed.

Lemma le_Fin_Qred a b : le (Fin (Qred a)) (Fin (Qred b)) = true <-> a <= b.
Proof. rewrite le_Fin, !Qred_correct. reflexivity. Qed.

Lemma round_pos_mono a b :
  0 < a -> a <= b -> le (round_pos a) (round_pos b) = true.
Proof.
  intros Ha Hab. pose proof (grid_mono Ha Hab) as G.
  destruct (round_pos_cases a) as [[-> A]|[-> A]],
           (round_pos_cases b) as [[-> B]|[-> B]]; try reflexivity.
  - exfalso. apply (Qlt_irrefl (2 ^ 1024)).
    eapply Qle_lt_trans; [exact A|]. eapply Qle_lt_trans; eassumption.
  - apply le_Fin_Qred, G.
Qed.

Lemma round_pos_comp a b : 0 < a -> a == b -> round_pos a = round_pos b.
Proof.
  intros Ha E. pose proof (grid_comp Ha E) as G.
  destruct (round_pos_cases a) as [[-> A]|[-> A]],
           (round_pos_cases b) as [[-> B]|[-> B]]; try reflexivity.
  - exfalso. rewrite G in A. apply (Qlt_irrefl (2 ^ 1024)).
    eapply Qle_lt_trans; eassumption.
  - exfalso. rewrite G in A. apply (Qlt_irrefl (2 ^ 1024)).
    eapply Qle_lt_trans; eassumption.
  - f_equal. apply Qred_complete, G.
Qed.

Lemma round_pos_nonneg a : 0 < a -> le (Fin 0) (round_pos a) = true.
Proof.
  intros Ha. destruct (round_pos_cases a) as [[-> _]|[-> _]]; [reflexivity|].
  change (Fin 0) with (Fin (Qred 0)). apply le_Fin_Qred, grid_nonneg, Ha.
Qed.

(** The order on numbers that are not NaN. *)
Lemma le_trans x y z : le x y = true -> le y z = true -> le x z = true.
Proof.
  destruct x as [| |a|], y as [| |b|], z as [| |c|]; try reflexivity;
    try discriminate.
  rewrite !le_Fin. apply Qle_trans.
Qed.

Lemma le_neg x y : le x y = true -> le (neg y) (neg x) = true.
Proof.
  destruct x as [| |a|], y as [| |b|]; try reflexivity; try discriminate.
  cbn [neg]. rewrite !le_Fin. intros H. lra.
Qed.

Lemma round64_cases q :
  (q == 0 /\ round64 q = Fin 0)
  \/ (0 < q /\ round64 q = round_pos q)
  \/ (q < 0 /\ round64 q = neg (round_pos (- q))).
Proof.
  unfold round64. destruct (Qcompare q 0) eqn:C.
  - left. split; [apply Qeq_alt, C | reflexivity].
  - right. right. split; [apply Qlt_alt, C | reflexivity].
  - right. left. split; [apply Qgt_alt, C | reflexivity].
Qed.

(** Rounding keeps the order. *)
Lemma round64_mono a b : a <= b -> le (round64 a) (round64 b) = true.
Proof.
  intros H.
  destruct (round64_cases a) as [[A ->]|[[A ->]|[A ->]]],
           (round64_cases b) as [[B ->]|[[B ->]|[B ->]]];
    try (exfalso; lra).
  - reflexivity.
  - apply round_pos_nonneg, B.
  - apply round_pos_mono; assumption.
  - apply (le_neg (Fin 0)), round_pos_nonneg. lra.
  - apply le_trans with (Fin 0).
    + apply (le_neg (Fin 0)), round_pos_nonneg. lra.
    + apply round_pos_nonneg, B.
  - apply le_neg, round_pos_mono; lra.
Qed.

(** Rounding depends on the value only. *)
Lemma round64_comp a b : a == b -> round64 a = round64 b.
Proof.
  intros E.
  destruct (round64_cases a) as [[A ->]|[[A ->]|[A ->]]],
           (round64_cases b) as [[B ->]|[[B ->]|[B ->]]];
    try (exfalso; lra).
  - reflexivity.
  - apply round_pos_comp; assumption.
  - f_equal. apply round_pos_comp; lra.
Qed.

Lemma round64_not_NaN q : isNaN (round64 q) = false.
Proof.
  destruct (round64_cases q) as [[_ ->]|[[_ ->]|[_ ->]]]; [reflexivity| |].
  - destruct (round_pos_cases q) as [[-> _]|[-> _]]; reflexivity.
  - destruct (round_pos_cases (- q)) as [[-> _]|[-> _]]; reflexivity.
Qed.

Lemma le_round_pos t a :
  t <= 2 ^ 1024 -> (le (Fin t) (round_pos a) = true <-> t <= grid a).
Proof.
  intros T. destruct (round_pos_cases a) as [[-> A]|[-> A]].
  - split; [intros _; eapply Qle_trans; eassumption | reflexivity].
  - rewrite le_Fin, Qred_correct. reflexivity.
Qed.

(** Where the rounding reaches a threshold [t] that lies in the binade of
    exponent [e], above the [m - 1]-th and not above the [m]-th value of
    its grid: from half a unit below the [m]-th value on, the tie counted
    in when [m] is even. *)
Lemma round64_reaches e m t x :
  (-1021 <= e <= 1023)%Z -> (2 ^ 52 < m <= 2 ^ 53)%Z ->
  inject_Z (m - 1) * 2 ^ (e - 52) < t -> t <= inject_Z m * 2 ^ (e - 52) ->
  le (Fin t) (round64 x) = true <->
  if Z.even m then inject_Z m - (1 # 2) <= x / 2 ^ (e - 52)
  else inject_Z m - (1 # 2) < x / 2 ^ (e - 52).
Proof.
  intros He Hm T1 T2.
  set (u := 2 ^ (e - 52)) in *.
  assert (Up : 0 < u) by apply two_pos.
  assert (M1 : 2 ^ 52 <= inject_Z (m - 1)) by (apply two_le_inj; lia).
  assert (M2 : inject_Z m <= 2 ^ 53) by (apply inj_two_le; lia).
  assert (M3 : inject_Z m == inject_Z (m - 1) + 1).
  { rewrite <- inj_succ. apply inject_Z_injective. lia. }
  assert (Tlo : 2 ^ e < t).
  { eapply Qle_lt_trans; [|exact T1]. unfold u. rewrite <- scale_low at 1.
    apply Qmult_le_compat_r; [exact M1 | apply Qlt_le_weak, Up]. }
  assert (Thi : t <= 2 ^ (e + 1)).
  { eapply Qle_trans; [exact T2|]. unfold u. rewrite <- scale_up.
    apply Qmult_le_compat_r; [exact M2 | apply Qlt_le_weak, Up]. }
  assert (Tmax : t <= 2 ^ 1024).
  { eapply Qle_trans; [exact Thi|]. apply two_le. lia. }
  assert (Tpos : 0 < t) by (eapply Qlt_trans; [apply (two_pos e) | exact Tlo]).
  (* what the condition says of [x / u] against the ends of the binade *)
  assert (Clow : forall y, y < 2 ^ 52 ->
            ~ (if Z.even m then inject_Z m - (1 # 2) <= y
               else inject_Z m - (1 # 2) < y)).
  { intros y Y C. destruct (Z.even m); lra. }
  assert (Chigh : forall y, 2 ^ 53 <= y ->
            if Z.even m then inject_Z m - (1 # 2) <= y
            else inject_Z m - (1 # 2) < y).
  { intros y Y. destruct (Z.even m); lra. }
  destruct (round64_cases x) as [[X ->]|[[X ->]|[X ->]]].
  - (* zero *)
    split.
    + rewrite le_Fin. intros H. exfalso. lra.
    + intros C. exfalso. apply (Clow (x / u)); [|exact C].
      apply Qlt_shift_div_r; [exact Up|]. rewrite X.
      apply Qmult_lt_0_compat; [apply two_pos | exact Up].
  - (* positive *)
    rewrite (le_round_pos x Tmax).
    destruct (ilog2_spec X) as [L U].
    destruct (Z_lt_le_dec (ilog2 x) e) as [Lo|Hi].
    + (* below the binade *)
      assert (Ex : (expo x + 1 <= e)%Z) by lia.
      split.
      * intros H. exfalso. apply (Qlt_irrefl t).
        eapply Qle_lt_trans; [exact H|].
        eapply Qle_lt_trans; [apply (grid_upper X)|].
        eapply Qle_lt_trans; [apply (two_le Ex) | exact Tlo].
      * intros C. exfalso. apply (Clow (x / u)); [|exact C].
        apply Qlt_shift_div_r; [exact Up|]. unfold u. rewrite scale_low.
        eapply Qlt_le_trans; [exact U|]. apply two_le. lia.
    + destruct (Z.eq_dec (ilog2 x) e) as [Eq|Ne].
      * (* in the binade *)
        assert (Ex : expo x = e) by lia.
        rewrite Ex. fold u. rewrite <- rne_ge_iff.
        split.
        -- intros H. apply Z.lt_pred_le. unfold Z.pred.
           replace (m + -1)%Z with (m - 1)%Z by lia.
           rewrite Zlt_Qlt.
           apply Qmult_lt_r with (z := u); [exact Up|].
           eapply Qlt_le_trans; eassumption.
        -- intros H. eapply Qle_trans; [exact T2|].
           apply Qmult_le_compat_r; [|apply Qlt_le_weak, Up].
           rewrite <- Zle_Qle. exact H.
      * (* above the binade *)
        assert (Ex : (e + 1 <= expo x)%Z) by lia.
        assert (Nx : (-1022 <= ilog2 x)%Z) by lia.
        split.
        -- intros _. apply Chigh.
           apply Qle_shift_div_l; [exact Up|]. unfold u. rewrite scale_up.
           eapply Qle_trans; [|exact L]. apply two_le. lia.
        -- intros _. eapply Qle_trans; [exact Thi|].
           eapply Qle_trans; [apply (two_le Ex)|].
           apply (grid_lower X Nx).
  - (* negative *)
    assert (Np : 0 < - x) by lra.
    split.
    + intros H. exfalso.
      pose proof (round_pos_nonneg Np) as P.
      apply (le_neg (Fin 0)) in P. cbn [neg] in P.
      pose proof (le_trans _ _ _ H P) as Q. rewrite le_Fin in Q. lra.
    + intros C. exfalso. apply (Clow (x / u)); [|exact C].
      apply Qlt_shift_div_r; [exact Up|].
      eapply Qlt_trans; [exact X|].
      apply Qmult_lt_0_compat; [apply two_pos | exact Up].
Qed.

Example round64_examples :
  round64 0 = Fin 0 /\ round64 1 = Fin 1 /\ round64 100 = Fin 100
  /\ round64 (1 # 10) = Fin (3602879701896397 # 36028797018963968)
  /\ round64 9007199254740993 = Fin 9007199254740992
  /\ round64 (99999999999999999999 # 100000000000000000) = Fin 1000
  /\ round64 (10 ^ 309) = PosInf
  /\ round64 (- (10 ^ 309)) = NegInf
  /\ round64 (1 # 10 ^ 400) = Fin 0.
Proof. repeat split; vm_compute; reflexivity. Qed.

End JsNumberFacts.

(* ================================================================== *)
(** * Progress percentage *)

Module UtilsProps.
Import JsNumber JsNumberFacts Utils.
Lemma le_of_Z a b : le (of_Z a) (of_Z b) = true <-> (a <= b)%Z.
Proof. unfold of_Z. rewrite le_Fin, <- Zle_Qle. reflexivity. Qed.

Lemma strict_eq_zero_false (T : Q) : ~ T == 0 -> strict_eq (Fin T) (Fin 0) = false.
Proof.
  intros H. simpl. destruct (Qeq_bool T 0) eqn:E; auto.
  apply Qeq_bool_iff in E. contradiction.
Qed.

Lemma div_finite (c T : Q) : ~ T == 0 -> div (Fin c) (Fin T) = Fin (c / T).
Proof.
  intros H. simpl. destruct (T ?= 0) eqn:E; auto.
  apply Qeq_alt in E. contradiction.
Qed.

(** The percentage of a quotient: times 100, to the nearest integer, at
    most 100. *)
Local Abbreviation percent x :=
  (Math_min (Math_round (fmul x (Fin 100))) (Fin 100)).

(** On finite amounts with a non-zero total the function is the
    percentage of the rounded quotient. *)
Lemma calculatePercentage_finite (c T : Q) :
  ~ T == 0 ->
  calculatePercentage (Fin c) (Fin T) = percent (round64 (c / T)).
Proof.
  intros H. unfold calculatePercentage, fdiv.
  rewrite strict_eq_zero_false, div_finite by assumption. reflexivity.
Qed.

(** The dashboard's inline progress agrees with the utility whenever the
    target is a non-zero finite amount. *)
Lemma goalProgress_calculatePercentage (c T : Q) :
  ~ T == 0 -> goalProgress (Fin c) (Fin T) = calculatePercentage (Fin c) (Fin T).
Proof.
  intros H. unfold calculatePercentage.
  rewrite strict_eq_zero_false by assumption. reflexivity.
Qed.

Lemma le_not_NaN x y : le x y = true -> isNaN x = false /\ isNaN y = false.
Proof. destruct x, y; try discriminate; split; reflexivity. Qed.

Lemma le_refl x : isNaN x = false -> le x x = true.
Proof.
  destruct x; try discriminate; try reflexivity.
  intros _. apply le_Fin, Qle_refl.
Qed.

Lemma fmul_100_mono x y :
  le x y = true -> le (fmul x (Fin 100)) (fmul y (Fin 100)) = true.
Proof.
  destruct x as [| |a|], y as [| |b|]; try discriminate; try reflexivity.
  - intros _. unfold fmul. cbn [mul rounded].
    destruct (round64 (b * 100)) eqn:R; try reflexivity.
    pose proof (round64_not_NaN (b * 100)) as N. rewrite R in N. discriminate.
  - rewrite le_Fin. intros H. unfold fmul. cbn [mul rounded].
    apply round64_mono. lra.
  - intros _. unfold fmul. cbn [mul rounded].
    change (signed_inf (100 ?= 0)) with PosInf. cbn [rounded].
    destruct (round64 (a * 100)) eqn:R; try reflexivity.
    pose proof (round64_not_NaN (a * 100)) as N. rewrite R in N. discriminate.
Qed.

Lemma Math_round_mono x y :
  le x y = true -> le (Math_round x) (Math_round y) = true.
Proof.
  destruct x as [| |a|], y as [| |b|]; try discriminate; try reflexivity.
  rewrite le_Fin. intros H. cbn [Math_round].
  apply (le_of_Z (Qfloor (a + (1 # 2))) (Qfloor (b + (1 # 2)))).
  apply Qfloor_resp_le. lra.
Qed.

Lemma Math_min_100_le x : isNaN x = false -> le (Math_min x (Fin 100)) (Fin 100) = true.
Proof.
  destruct x as [| |a|]; try discriminate; try reflexivity.
  intros _. unfold Math_min. destruct (lt (Fin 100) (Fin a)) eqn:L; [reflexivity|].
  unfold le. rewrite L. reflexivity.
Qed.

Lemma Math_min_100_mono x y :
  le x y = true -> le (Math_min x (Fin 100)) (Math_min y (Fin 100)) = true.
Proof.
  intros H. destruct (le_not_NaN _ _ H) as [Nx Ny].
  destruct x as [| |a|], y as [| |b|]; try discriminate; try reflexivity.
  - unfold Math_min. destruct (lt (Fin 100) (Fin b)); reflexivity.
  - rewrite le_Fin in H. unfold Math_min.
    destruct (lt (Fin 100) (Fin a)) eqn:La, (lt (Fin 100) (Fin b)) eqn:Lb.
    + reflexivity.
    + exfalso. apply lt_Fin in La.
      assert (~ 100 < b) by (intros C; apply lt_Fin in C; congruence). lra.
    + unfold le. rewrite La. reflexivity.
    + apply le_Fin, H.
  - unfold Math_min. destruct (lt (Fin 100) (Fin a)) eqn:La; [reflexivity|].
    change (lt (Fin 100) PosInf) with true. cbv iota.
    unfold le. rewrite La. reflexivity.
Qed.

Lemma percent_mono x y : le x y = true -> le (percent x) (percent y) = true.
Proof.
  intros H. apply Math_min_100_mono, Math_round_mono, fmul_100_mono, H.
Qed.

Lemma percent_not_NaN x : isNaN x = false -> isNaN (percent x) = false.
Proof.
  intros N. pose proof (percent_mono _ _ (le_refl _ N)) as H.
  apply le_not_NaN in H. apply H.
Qed.

Lemma percent_le_100 x : isNaN x = false -> le (percent x) (Fin 100) = true.
Proof.
  intros N. apply Math_min_100_le.
  pose proof (Math_round_mono _ _ (fmul_100_mono _ _ (le_refl _ N))) as H.
  apply le_not_NaN in H. apply H.
Qed.

(** The percentage is an integer, so from 100 on it is the number 100. *)
Lemma percent_full x : le (Fin 1) x = true -> percent x = Fin 100.
Proof.
  intros H. pose proof (percent_mono _ _ H) as M.
  change (percent (Fin 1)) with (Fin 100) in M.
  assert (R : forall y, le (Fin 100) (Math_min (Math_round y) (Fin 100)) = true ->
              Math_min (Math_round y) (Fin 100) = Fin 100).
  { intros [| |z|]; try discriminate; try reflexivity.
    change (Math_round (Fin z)) with (of_Z (Qfloor (z + (1 # 2)))).
    change (Fin 100) with (of_Z 100).
    rewrite Math_min_of_Z, le_of_Z. intros L. f_equal. lia. }
  apply R, M.
Qed.

Lemma round64_of (q v : Q) : q == v -> forall r, round64 v = r -> round64 q = r.
Proof. intros E r <-. apply round64_comp, E. Qed.

(** C4, as the code has it. For finite amounts and a finite target
    [T > 0], with the quotient and the product rounded as the platform
    rounds them, [calculatePercentage] is monotonically non-decreasing in
    the current amount and never exceeds 100; it is at least 0 whenever
    the current amount is not negative; it is 0 at 0, 100 at [T] and at
    [2*T], and 100 at every amount from [T] on, an infinite one
    included. *)
Theorem calculatePercentage_monotone_clamped (c1 c2 T : Q) :
  0 < T -> c1 <= c2 ->
  le (calculatePercentage (Fin c1) (Fin T))
     (calculatePercentage (Fin c2) (Fin T)) = true
  /\ le (calculatePercentage (Fin c1) (Fin T)) (Fin 100) = true
  /\ (0 <= c1 -> le (Fin 0) (calculatePercentage (Fin c1) (Fin T)) = true)
  /\ calculatePercentage (Fin 0) (Fin T) = Fin 0
  /\ calculatePercentage (Fin T) (Fin T) = Fin 100
  /\ calculatePercentage (Fin (2 * T)) (Fin T) = Fin 100
  /\ (T <= c1 -> calculatePercentage (Fin c1) (Fin T) = Fin 100)
  /\ calculatePercentage PosInf (Fin T) = Fin 100.
Proof.
  intros HT Hc.
  assert (NZ : ~ T == 0) by (intros E; rewrite E in HT; discriminate).
  assert (IT : 0 < / T) by (apply Qinv_lt_0_compat, HT).
  assert (Q : forall a b, a <= b -> a / T <= b / T).
  { intros a b H. apply Qmult_le_compat_r; [exact H | apply Qlt_le_weak, IT]. }
  assert (Z0 : round64 (0 / T) = Fin 0)
    by (apply (@round64_of _ 0); [field; exact NZ | reflexivity]).
  assert (Z1 : round64 (T / T) = Fin 1)
    by (apply (@round64_of _ 1); [field; exact NZ | reflexivity]).
  assert (F : forall c, T <= c -> percent (round64 (c / T)) = Fin 100).
  { intros c H. apply percent_full. rewrite <- Z1. apply round64_mono, Q, H. }
  rewrite !calculatePercentage_finite by assumption.
  split; [apply percent_mono, round64_mono, Q, Hc|].
  split; [apply percent_le_100, round64_not_NaN|].
  split.
  { intros H0. change (Fin 0) with (percent (Fin 0)) at 1.
    rewrite <- Z0. apply percent_mono, round64_mono, Q, H0. }
  split; [rewrite Z0; reflexivity|].
  split; [rewrite Z1; reflexivity|].
  split; [apply F; lra|].
  split; [exact (F c1)|].
  unfold calculatePercentage. rewrite strict_eq_zero_false by assumption.
  unfold fdiv. cbn [div].
  destruct (Qltb T 0) eqn:B; [apply Qltb_lt in B; exfalso; lra|].
  reflexivity.
Qed.

Lemma calculatePercentage_monotone_clamped_witness :
  0 < 100000 /\ 25000 <= 75000 /\
  (le (calculatePercentage (Fin 25000) (Fin 100000))
      (calculatePercentage (Fin 75000) (Fin 100000)) = true
   /\ le (calculatePercentage (Fin 25000) (Fin 100000)) (Fin 100) = true
   /\ (0 <= 25000 ->
       le (Fin 0) (calculatePercentage (Fin 25000) (Fin 100000)) = true)
   /\ calculatePercentage (Fin 0) (Fin 100000) = Fin 0
   /\ calculatePercentage (Fin 100000) (Fin 100000) = Fin 100
   /\ calculatePercentage (Fin (2 * 100000)) (Fin 100000) = Fin 100
   /\ (100000 <= 25000 ->
       calculatePercentage (Fin 25000) (Fin 100000) = Fin 100)
   /\ calculatePercentage PosInf (Fin 100000) = Fin 100).
Proof.
  split; [reflexivity|]. split; [discriminate|].
  apply (@calculatePercentage_monotone_clamped 25000 75000 100000);
    [reflexivity | discriminate].
Defined.

(** C4 as stated fails below zero: nothing clamps the result from below, so
    a negative current amount gives a negative percentage. *)
Lemma calculatePercentage_negative_current :
  calculatePercentage (Fin (-50)) (Fin 100) = Fin (-50)
  /\ le (Fin 0) (calculatePercentage (Fin (-50)) (Fin 100)) = false
  /\ ~ (forall c T : Q, 0 < T ->
          le (Fin 0) (calculatePercentage (Fin c) (Fin T)) = true
          /\ le (calculatePercentage (Fin c) (Fin T)) (Fin 100) = true).
Proof.
  split; [vm_compute; reflexivity|]. split; [vm_compute; reflexivity|].
  intros H. destruct (H (-50) 100 eq_refl) as [H0 _].
  vm_compute in H0. discriminate H0.
Qed.

(** C10. Whatever the current amount (NaN and the infinities included), a
    zero total gives 0: the guard returns before the division, so the
    result is never NaN. *)
Theorem calculatePercentage_zero_total (c : number) (T : Q) :
  T == 0 ->
  calculatePercentage c (Fin T) = Fin 0
  /\ isNaN (calculatePercentage c (Fin T)) = false.
Proof.
  intros H. unfold calculatePercentage.
  assert (E : strict_eq (Fin T) (Fin 0) = true)
    by (apply Qeq_bool_iff; exact H).
  rewrite E. split; reflexivity.
Qed.

Lemma calculatePercentage_zero_total_witness :
  0 == 0
  /\ calculatePercentage (Fin 75000) (Fin 0) = Fin 0
  /\ calculatePercentage NaN (Fin 0) = Fin 0
  /\ calculatePercentage PosInf (Fin 0) = Fin 0.
Proof.
  split; [reflexivity|].
  split; [exact (proj1 (@calculatePercentage_zero_total (Fin 75000) 0 (Qeq_refl 0)))|].
  split; reflexivity.
Defined.

(** Without the guard the dashboard's expression is NaN at 0/0 and 100 at
    a positive amount over a zero target. *)
Lemma goalProgress_zero_target :
  goalProgress (Fin 0) (Fin 0) = NaN /\ goalProgress (Fin 5) (Fin 0) = Fin 100.
Proof. split; vm_compute; reflexivity. Qed.

Lemma Qeq_le x y : x == y -> x <= y.
Proof. intros ->. apply Qle_refl. Qed.

(** Where the percentage reaches 100. *)
Lemma Math_min_100_ge r :
  le (Fin 100) (Math_min r (Fin 100)) = le (Fin 100) r.
Proof.
  destruct r as [| |z|]; try reflexivity.
  unfold Math_min. destruct (lt (Fin 100) (Fin z)) eqn:L.
  - unfold le. change (lt (Fin 100) (Fin 100)) with false.
    apply lt_Fin in L. symmetry. apply negb_true_iff.
    destruct (lt (Fin z) (Fin 100)) eqn:L'; [|reflexivity].
    apply lt_Fin in L'. exfalso. lra.
  - reflexivity.
Qed.

Lemma Math_round_100_ge y :
  le (Fin 100) (Math_round y) = true <-> le (Fin (199 # 2)) y = true.
Proof.
  destruct y as [| |z|]; try reflexivity.
  change (Math_round (Fin z)) with (of_Z (Qfloor (z + (1 # 2)))).
  change (Fin 100) with (of_Z 100). rewrite le_of_Z, le_Fin.
  split; intros H.
  - assert (L : inject_Z 100 <= z + (1 # 2)).
    { eapply Qle_trans; [|apply Qfloor_le]. rewrite <- Zle_Qle. exact H. }
    change (inject_Z 100) with 100 in L. lra.
  - rewrite <- (Qfloor_Z 100). apply Qfloor_resp_le.
    change (inject_Z 100) with 100. lra.
Qed.

(** The least quotient whose product with 100 rounds to 99.5 or more. *)
Local Abbreviation rho := ((inject_Z (199 * 2 ^ 45) - (1 # 2)) * 2 ^ (6 - 52) / 100).

Lemma fmul_100_ge x :
  le (Fin (199 # 2)) (fmul x (Fin 100)) = true <-> le (Fin rho) x = true.
Proof.
  destruct x as [| |y|]; try reflexivity.
  unfold fmul. cbn [mul rounded].
  rewrite (@round64_reaches 6 (199 * 2 ^ 45) (199 # 2) (y * 100));
    [| lia | lia | vm_compute; reflexivity | vm_compute; discriminate].
  change (Z.even (199 * 2 ^ 45)) with true. cbv iota.
  rewrite le_Fin.
  assert (U : 0 < 2 ^ (6 - 52)) by apply two_pos.
  assert (NZ : ~ 2 ^ (6 - 52) == 0) by (apply Qpower_not_0; discriminate).
  split; intros H.
  - apply Qle_shift_div_r; [reflexivity|].
    apply Qle_trans with (y * 100 / 2 ^ (6 - 52) * 2 ^ (6 - 52)).
    + apply Qmult_le_compat_r; [exact H | apply Qlt_le_weak, U].
    + apply Qeq_le. field; try exact NZ.
  - apply Qle_shift_div_l; [exact U|].
    apply Qle_trans with (rho * 100).
    + apply Qeq_le. field; try exact NZ.
    + apply Qmult_le_compat_r; [exact H | discriminate].
Qed.

End UtilsProps.

(* ================================================================== *)
(** * The numeric validator *)

Module ValidatorProps.
Import JsString JsNumber JsNumberFacts Validator.

Example parseFloat_examples :
  parseFloat (VStr (js "  42.5abc")) = Fin (85 # 2)
  /\ parseFloat (VStr (js "abc")) = NaN
  /\ parseFloat (VStr (js "-Infinity")) = NegInf
  /\ parseFloat (VStr (js "1e3x")) = Fin 1000
  /\ parseFloat (VStr (js ".5e")) = Fin (1 # 2)
  /\ parseFloat (VStr (js ".")) = NaN
  /\ parseFloat (VStr []) = NaN
  /\ parseFloat (VStr (js "9007199254740993")) = Fin 9007199254740992
  /\ parseFloat (VStr (js "999.99999999999999999")) = Fin 1000
  /\ parseFloat (VStr (js "1e309")) = PosInf
  /\ parseFloat (VStr (js "0.1"))
     = Fin (3602879701896397 # 36028797018963968).
Proof. repeat split; vm_compute; reflexivity. Qed.

Example decimal_examples :
  decimal [52; 50]%N [53]%N 0 == 42.5 /\ decimal [49]%N [] 3 == 1000.
Proof. split; reflexivity. Qed.

Lemma lt_false_le (x y : number) :
  isNaN x = false -> isNaN y = false -> lt x y = false <-> le y x = true.
Proof.
  intros Hx Hy. destruct x, y; try discriminate; simpl;
    rewrite ?negb_true_iff; split; auto; discriminate.
Qed.

Section WithNumberToString.
Variable toS : number -> jsstring.

Lemma validateNumber_NaN v min max :
  isNaN (parseFloat v) = true -> ok (validateNumber toS v min max) = false.
Proof. intros H. unfold validateNumber. rewrite H. reflexivity. Qed.

(** The decision of [validateNumber] for bounds that are numbers,
    infinite ones included. *)
Lemma validateNumber_ok_iff_bounds v min max :
  is_bound min -> is_bound max ->
  ok (validateNumber toS v min max) = true <->
  isNaN (parseFloat v) = false
  /\ above min (parseFloat v) = true /\ below max (parseFloat v) = true.
Proof.
  intros Bmin Bmax. unfold validateNumber, above, below, gt.
  destruct (isNaN (parseFloat v)) eqn:EN; cbn [ok].
  - split; [discriminate | intros [H _]; discriminate].
  - destruct min as [m|], max as [M|]; cbn in Bmin, Bmax.
    + destruct (lt (parseFloat v) m) eqn:E1; cbn [ok].
      * split; [discriminate|]. intros (_ & H & _).
        apply lt_false_le in H; auto; congruence.
      * apply lt_false_le in E1; auto.
        destruct (lt M (parseFloat v)) eqn:E2; cbn [ok].
        -- split; [discriminate|]. intros (_ & _ & H).
           apply lt_false_le in H; auto; congruence.
        -- apply lt_false_le in E2; auto. repeat split; auto.
    + destruct (lt (parseFloat v) m) eqn:E1; cbn [ok].
      * split; [discriminate|]. intros (_ & H & _).
        apply lt_false_le in H; auto; congruence.
      * apply lt_false_le in E1; auto. repeat split; auto.
    + destruct (lt M (parseFloat v)) eqn:E2; cbn [ok].
      * split; [discriminate|]. intros (_ & _ & H).
        apply lt_false_le in H; auto; congruence.
      * apply lt_false_le in E2; auto. repeat split; auto.
    + repeat split; auto.
Qed.

Lemma js_message_nonempty (prefix : string) (rest : jsstring) :
  js prefix <> [] -> js prefix ++ rest <> [].
Proof. destruct (js prefix); [congruence | discriminate]. Qed.

(** Every rejection carries a message. *)
Lemma validateNumber_message v min max :
  ok (validateNumber toS v min max) = false ->
  message (validateNumber toS v min max) <> [].
Proof.
  unfold validateNumber.
  destruct (isNaN (parseFloat v)); cbn [ok message].
  - intros _. vm_compute. discriminate.
  - destruct (match min with Some m => lt (parseFloat v) m | None => false end);
      cbn [ok message].
    + intros _. apply js_message_nonempty. vm_compute. discriminate.
    + destruct (match max with Some M => gt (parseFloat v) M | None => false end);
        cbn [ok message].
      * intros _. apply js_message_nonempty. vm_compute. discriminate.
      * discriminate.
Qed.

(** The decision of [validateNumber] for any bounds at all: the value
    reads as a number that is neither below the lower bound nor above the
    upper one. *)
Lemma validateNumber_ok_iff_any v min max :
  ok (validateNumber toS v min max) = true <->
  isNaN (parseFloat v) = false
  /\ (forall m, min = Some m -> lt (parseFloat v) m = false)
  /\ (forall M, max = Some M -> gt (parseFloat v) M = false).
Proof.
  unfold validateNumber.
  destruct (isNaN (parseFloat v)); cbn [ok].
  - split; [discriminate | intros [H _]; discriminate].
  - destruct min as [m|], max as [M|].
    + destruct (lt (parseFloat v) m) eqn:E1; cbn [ok].
      * split; [discriminate|]. intros (_ & H & _).
        specialize (H m eq_refl). congruence.
      * destruct (gt (parseFloat v) M) eqn:E2; cbn [ok].
        -- split; [discriminate|]. intros (_ & _ & H).
           specialize (H M eq_refl). congruence.
        -- split; [|reflexivity]. intros _.
           split; [reflexivity|]. split; intros ? [= <-]; assumption.
    + destruct (lt (parseFloat v) m) eqn:E1; cbn [ok].
      * split; [discriminate|]. intros (_ & H & _).
        specialize (H m eq_refl). congruence.
      * split; [|reflexivity]. intros _.
        split; [reflexivity|]. split; [intros ? [= <-]; assumption|discriminate].
    + destruct (gt (parseFloat v) M) eqn:E2; cbn [ok].
      * split; [discriminate|]. intros (_ & _ & H).
        specialize (H M eq_refl). congruence.
      * split; [|reflexivity]. intros _.
        split; [reflexivity|]. split; [discriminate|intros ? [= <-]; assumption].
    + split; [|reflexivity]. intros _.
      split; [reflexivity|]. split; discriminate.
Qed.

(** C2, as the code has it. For every value and every pair of optional
    bounds, the validator answers ok exactly when the value reads as a
    number that is not less than the lower bound and not greater than the
    upper bound, each comparison made only for a supplied bound.  For
    bounds that are numbers, the infinite ones included, that is: at least
    the lower bound and at most the upper bound.  (A bound that is NaN
    compares false with everything and rejects nothing.)  Every other
    answer is a rejection with a non-empty message. *)
Theorem validateNumber_ok_iff (v : value) (min max : option number) :
  let r := validateNumber toS v min max in
  (ok r = true <->
     isNaN (parseFloat v) = false
     /\ (forall m, min = Some m -> lt (parseFloat v) m = false)
     /\ (forall M, max = Some M -> gt (parseFloat v) M = false))
  /\ (is_bound min -> is_bound max ->
      (ok r = true <->
         isNaN (parseFloat v) = false
         /\ (forall m, min = Some m -> le m (parseFloat v) = true)
         /\ (forall M, max = Some M -> le (parseFloat v) M = true)))
  /\ (ok r = true \/ (ok r = false /\ message r <> [])).
Proof.
  cbv zeta. split; [apply validateNumber_ok_iff_any|]. split.
  - intros Bmin Bmax. rewrite validateNumber_ok_iff_bounds by assumption.
    unfold above, below. destruct min as [m|], max as [M|];
      (split; [intros (H1 & H2 & H3); repeat split; auto; intros ? [= <-]; auto
              | intros (H1 & H2 & H3); repeat split; auto]).
  - destruct (ok _) eqn:E; [left; reflexivity | right].
    split; [reflexivity | apply validateNumber_message, E].
Qed.

End WithNumberToString.

(** The form of the dashboard validates a target amount with a lower bound
    of 1000 and no upper bound. *)
Example validateNumber_examples (toS : number -> jsstring) :
  ok (validateNumber toS (VStr (js "1000")) (Some (Fin 1000)) None) = true
  /\ ok (validateNumber toS (VStr (js "999.99")) (Some (Fin 1000)) None) = false
  /\ ok (validateNumber toS (VStr (js "12abc")) (Some (Fin 1)) (Some (Fin 20))) = true
  /\ ok (validateNumber toS (VStr (js "abc")) None None) = false
  /\ ok (validateNumber toS (VNum (Fin 21)) (Some (Fin 1)) (Some (Fin 20))) = false.
Proof. repeat split; vm_compute; reflexivity. Qed.

(** A bound that is NaN compares false with everything and so rejects
    nothing. *)
Remark validateNumber_NaN_bound (toS : number -> jsstring) :
  ok (validateNumber toS (VStr (js "5")) (Some NaN) None) = true
  /\ le NaN (parseFloat (VStr (js "5"))) = false.
Proof. split; vm_compute; reflexivity. Qed.

(** C2 as stated fails at a bound that is NaN: the value [5] is accepted
    with the lower bound NaN, though it is not at least NaN. *)
Lemma validateNumber_NaN_bound_accepts :
  ok (validateNumber (fun _ => []) (VStr (js "5")) (Some NaN) None) = true
  /\ le NaN (parseFloat (VStr (js "5"))) = false
  /\ ~ (forall (v : value) (min max : option number),
         ok (validateNumber (fun _ => []) v min max) = true <->
         isNaN (parseFloat v) = false
         /\ (forall m, min = Some m -> le m (parseFloat v) = true)
         /\ (forall M, max = Some M -> le (parseFloat v) M = true)).
Proof.
  split; [vm_compute; reflexivity|]. split; [vm_compute; reflexivity|].
  intros H.
  assert (A : ok (validateNumber (fun _ => []) (VStr (js "5")) (Some NaN) None)
              = true) by (vm_compute; reflexivity).
  apply H in A. destruct A as (_ & A & _). specialize (A NaN eq_refl).
  discriminate A.
Qed.

End ValidatorProps.

(* ================================================================== *)
(** * The voice adapter *)

Module SpeechProps.
Import JsString Speech.

Section WithCallbacks.
Variable callback : Type.
Local Abbreviation state := (Speech.state callback).
Local Abbreviation op := (Speech.op callback).
Local Abbreviation effect := (Speech.effect callback).

Lemma run_app (ops1 ops2 : list op) (st : state) :
  run (ops1 ++ ops2) st =
  (fst (run ops2 (fst (run ops1 st))),
   snd (run ops1 st) ++ snd (run ops2 (fst (run ops1 st)))).
Proof.
  revert st; induction ops1 as [|o ops1 IH]; intros st; cbn [app run].
  - cbn [fst snd app]. destruct (run ops2 st); reflexivity.
  - destruct (step o st) as [st1 tr1]. rewrite IH.
    destruct (run ops1 st1) as [st2 tr2]. cbn [fst snd].
    rewrite app_assoc. reflexivity.
Qed.

Lemma listen_inv onResult onError r (st : state) :
  listening_has_recognizer (fst (listen onResult onError r (set_recognition (Some r) st))).
Proof.
  unfold listen, listening_has_recognizer.
  cbn [isListening set_recognition].
  destruct (isListening st); [cbn; discriminate|].
  destruct (started r); cbn; discriminate.
Qed.

Lemma step_inv (o : op) (st : state) :
  listening_has_recognizer st -> listening_has_recognizer (fst (step o st)).
Proof.
  unfold listening_has_recognizer. intros I.
  destruct st as [sup rec syn lis en]; cbn in I.
  destruct o; cbn -[js].
  - unfold init; cbn -[js]. destruct sup; cbn -[js]; [discriminate | exact I].
  - unfold startListening; cbn -[js]. destruct rec as [r|].
    + unfold listen; cbn -[js]. destruct lis; [cbn; discriminate|].
      destruct (started r); cbn; discriminate.
    + unfold init; cbn -[js]. destruct sup; cbn -[js].
      * unfold listen; cbn -[js]. destruct lis; cbn; discriminate.
      * destruct onError; exact I.
  - unfold stopListening; cbn. destruct rec; [|exact I].
    destruct lis; cbn; [discriminate | exact I].
  - unfold speak; cbn -[js]. destruct en; cbn -[js]; [|exact I].
    destruct syn; exact I.
  - unfold stopSpeaking; cbn. destruct syn; exact I.
  - unfold setSpeechEnabled, stopSpeaking; cbn.
    destruct enabled; cbn; [exact I|]. destruct syn; exact I.
  - unfold fire_result; cbn. destruct rec as [r|]; [|exact I].
    destruct (started r), (onresult r); exact I.
  - unfold fire_error; cbn. destruct rec as [r|]; [|exact I].
    destruct (started r), (onerror r); cbn; try exact I; discriminate.
  - unfold fire_end; cbn. destruct rec as [r|]; [|exact I].
    destruct (started r); [|exact I]. destruct (onend r); cbn; discriminate.
  - unfold fire_utterance_end; cbn. destruct syn as [[|u q]|]; exact I.
Qed.

Lemma run_inv (ops : list op) (st : state) :
  listening_has_recognizer st -> listening_has_recognizer (fst (run ops st)).
Proof.
  revert st; induction ops as [|o ops IH]; intros st I; cbn [run]; [exact I|].
  pose proof (step_inv o I) as I1.
  destruct (step o st) as [st1 tr1]. specialize (IH st1 I1).
  destruct (run ops st1); exact IH.
Qed.

Lemma reachable_inv (st : state) : reachable st -> listening_has_recognizer st.
Proof.
  intros (sup & syn & ops & ->). apply run_inv. cbn. discriminate.
Qed.

(** C3, as the code has it. A call to [startListening] made while the
    adapter is listening returns at once: no callback is invoked, no
    session is opened, and the state stays as it was. *)
Theorem startListening_while_listening (st : state)
    (onResult onError : option callback) :
  reachable st -> isListening st = true ->
  startListening onResult onError st = (st, []).
Proof.
  intros R L. pose proof (reachable_inv R L) as HR.
  unfold startListening. destruct (recognition st) as [r|]; [|congruence].
  unfold listen. rewrite L. reflexivity.
Qed.

Lemma speak_disabled (st : state) t onEnd :
  isSpeechEnabled st = false -> speak t onEnd st = (st, []).
Proof. intros H. unfold speak. rewrite H. reflexivity. Qed.

Lemma setSpeechEnabled_false_silent (st : state) :
  silent (fst (setSpeechEnabled false st)).
Proof.
  destruct st as [sup rec [q|] lis en]; split; reflexivity.
Qed.

Lemma silent_set_isListening b (st : state) :
  silent st -> silent (set_isListening b st).
Proof. intros H; exact H. Qed.

Lemma silent_set_recognition r (st : state) :
  silent st -> silent (set_recognition r st).
Proof. intros H; exact H. Qed.

Lemma step_silent (o : op) (st : state) :
  enables o = false -> silent st ->
  silent (fst (step o st)) /\ existsb (@is_speak callback) (snd (step o st)) = false.
Proof.
  intros E [En Q]. unfold silent, utterances in *.
  destruct st as [sup rec syn lis en]; cbn in En, Q; subst en.
  destruct o; cbn -[js].
  - unfold init; cbn -[js]. destruct sup; cbn -[js]; auto.
  - unfold startListening; cbn -[js]. destruct rec as [r|].
    + unfold listen; cbn -[js]. destruct lis; [cbn; auto|].
      destruct (started r); cbn -[js]; auto. destruct onError; cbn; auto.
    + unfold init; cbn -[js]. destruct sup; cbn -[js].
      * unfold listen; cbn -[js]. destruct lis; cbn; auto.
      * destruct onError; cbn; auto.
  - unfold stopListening; cbn. destruct rec; cbn; auto. destruct lis; cbn; auto.
  - unfold speak; cbn; auto.
  - unfold stopSpeaking; cbn. destruct syn; cbn; auto.
  - destruct enabled; [discriminate|].
    unfold setSpeechEnabled, stopSpeaking; cbn. destruct syn; cbn; auto.
  - unfold fire_result; cbn. destruct rec as [r|]; cbn; auto.
    destruct (started r), (onresult r) as [[f|]|]; cbn; auto.
  - unfold fire_error; cbn. destruct rec as [r|]; cbn; auto.
    destruct (started r), (onerror r) as [[f|]|]; cbn; auto.
  - unfold fire_end; cbn. destruct rec as [r|]; cbn; auto.
    destruct (started r); cbn; auto. destruct (onend r); cbn; auto.
  - unfold fire_utterance_end; cbn.
    destruct syn as [[|u q]|]; cbn in *; auto; discriminate.
Qed.

Lemma run_silent (ops : list op) (st : state) :
  forallb (fun o => negb (enables o)) ops = true -> silent st ->
  silent (fst (run ops st)) /\ existsb (@is_speak callback) (snd (run ops st)) = false.
Proof.
  revert st; induction ops as [|o ops IH]; intros st F S; cbn [run].
  - cbn; auto.
  - cbn [forallb] in F. apply andb_true_iff in F as [F1 F2].
    apply negb_true_iff in F1.
    destruct (step_silent o F1 S) as [S1 N1].
    destruct (step o st) as [st1 tr1]. cbn [fst snd] in S1, N1.
    destruct (IH st1 F2 S1) as [S2 N2].
    destruct (run ops st1) as [st2 tr2]. cbn [fst snd] in *.
    split; [assumption|]. rewrite existsb_app, N1, N2. reflexivity.
Qed.

(** C8. [setSpeechEnabled(false)] cancels whatever is being spoken, and
    from then on, through any calls and platform events that do not
    include [setSpeechEnabled(true)], speech stays off, no utterance is
    started or queued, and [speak] leaves the state untouched and calls
    nothing. *)
Theorem setSpeechEnabled_false_mutes (st : state) (ops : list op) :
  forallb (fun o => negb (enables o)) ops = true ->
  let off := setSpeechEnabled false st in
  let later := run ops (fst off) in
  utterances (fst off) = []
  /\ (synthesis st <> None -> snd off = [SynthesisCancel])
  /\ isSpeechEnabled (fst later) = false
  /\ utterances (fst later) = []
  /\ existsb (@is_speak callback) (snd later) = false
  /\ forall t onEnd, speak t onEnd (fst later) = (fst later, []).
Proof.
  intros F off later.
  pose proof (setSpeechEnabled_false_silent st) as S.
  destruct (run_silent ops F S) as [[En Q] N]. fold off in S, En, Q, N.
  fold later in En, Q, N. destruct S as [_ Q0].
  repeat split; auto.
  - intros HS. subst off. unfold setSpeechEnabled, stopSpeaking. cbn.
    destruct (synthesis st); [reflexivity | congruence].
  - intros t onEnd. apply speak_disabled, En.
Qed.

(** Once speech is enabled again, [speak] starts an utterance wherever the
    platform has a synthesis object. *)
Lemma speak_after_enable (st : state) t onEnd :
  synthesis st <> None ->
  let st1 := fst (setSpeechEnabled true st) in
  utterances (fst (speak t onEnd st1)) = [mkUtterance t (js "ru-RU") 1 1 1 onEnd].
Proof.
  intros HS. cbn. unfold speak. cbn -[js].
  destruct (synthesis st); [reflexivity | congruence].
Qed.

End WithCallbacks.

(** C3 as stated fails: on a listening adapter the second call invokes
    nothing, [onError] included. *)
Lemma startListening_while_listening_silent :
  let st := fst (startListening (Some 0%nat) (Some 1%nat) (loaded true None)) in
  isListening st = true
  /\ startListening (Some 2%nat) (Some 3%nat) st = (st, [])
  /\ ~ (forall (st' : Speech.state nat) onResult onError,
          reachable st' -> isListening st' = true ->
          exists arg,
            In (Invoke onError arg) (snd (startListening onResult (Some onError) st'))).
Proof.
  cbv zeta. split; [reflexivity|]. split; [reflexivity|].
  intros H.
  destruct (H (fst (startListening (Some 0%nat) (Some 1%nat) (loaded true None)))
              (Some 2%nat) 3%nat) as [arg Hin].
  - exists true, None, [StartListening (Some 0%nat) (Some 1%nat)].
    reflexivity.
  - reflexivity.
  - exact Hin.
Qed.

Lemma startListening_while_listening_witness :
  let st := fst (startListening (Some 0%nat) (Some 1%nat) (loaded true None)) in
  reachable st /\ isListening st = true
  /\ startListening (Some 2%nat) (Some 3%nat) st = (st, []).
Proof.
  cbv zeta.
  assert (R : reachable (fst (startListening (Some 0%nat) (Some 1%nat)
                                (loaded true None)))).
  { exists true, None, [StartListening (Some 0%nat) (Some 1%nat)]. reflexivity. }
  split; [exact R|]. split; [reflexivity|].
  exact (startListening_while_listening (Some 2%nat) (Some 3%nat) R eq_refl).
Defined.

Lemma setSpeechEnabled_false_mutes_witness :
  let st := fst (speak (js "privet") None (loaded (callback := nat) true (Some []))) in
  let ops := [Speak (js "a") None; StopSpeaking; FireUtteranceEnd;
              Speak (js "b") (Some 7%nat)] in
  forallb (fun o => negb (enables o)) ops = true
  /\ utterances st <> []
  /\ utterances (fst (setSpeechEnabled false st)) = []
  /\ existsb (@is_speak nat) (snd (run ops (fst (setSpeechEnabled false st)))) = false.
Proof.
  cbv zeta. split; [reflexivity|]. split; [discriminate|].
  pose proof (@setSpeechEnabled_false_mutes nat
    (fst (speak (js "privet") None (loaded (callback := nat) true (Some []))))
    [Speak (js "a") None; StopSpeaking; FireUtteranceEnd;
     Speak (js "b") (Some 7%nat)] eq_refl) as H.
  cbv zeta in H. destruct H as (H1 & _ & _ & _ & H5 & _).
  split; [exact H1 | exact H5].
Defined.

End SpeechProps.

(* ================================================================== *)
(** * The simulated backend *)

Module ApiProps.
Import JsString JsNumber Api.

Section WithToLowerCase.
Variable toLowerCase : jsstring -> jsstring.

(** C9. In simulated mode [login] resolves, 500 time units on, with the
    user id 1, the fixed token and the fixture user, whatever the email
    and the password; it sends nothing and changes no module state. *)
Theorem login_simulated (e : env) (email password : jsstring) (st : state) :
  USE_MOCK st = true ->
  login toLowerCase e email password st =
  (mkPromise 500 (Resolved login_reply), st, []).
Proof.
  intros H. unfold login, post. rewrite H. reflexivity.
Qed.

Lemma login_simulated_any_password (e : env) (email p1 p2 : jsstring) (st : state) :
  USE_MOCK st = true ->
  login toLowerCase e email p1 st = login toLowerCase e email p2 st.
Proof. intros H. unfold login, post. rewrite H. reflexivity. Qed.

End WithToLowerCase.

Lemma login_simulated_witness :
  let e := mkEnv (js "2025-10-18") None NetworkFailure 0 in
  let st := setMockMode true loaded in
  USE_MOCK st = true
  /\ login (fun s => s) e (js "john@example.com") (js "x") st =
     (mkPromise 500 (Resolved login_reply), st, []).
Proof.
  cbv zeta. split; [reflexivity|].
  exact (@login_simulated (fun s => s)
           (mkEnv (js "2025-10-18") None NetworkFailure 0)
           (js "john@example.com") (js "x") (setMockMode true loaded) eq_refl).
Defined.

(** The fixture reply to a chat message that mentions the balance, here
    with a message already in lower case. *)
Example balance_reply :
  let e := mkEnv (js "2025-10-18") None NetworkFailure 0 in
  fst (mockPost (fun s => s) e (js "/ai/message")
         (JObj [(js "user_id", num 1); (js "message", str "какой у меня баланс?")])
         loaded)
  = mkPromise 500
      (Resolved
         (JObj [(js "text", str "Ваш текущий баланс составляет 250,000 ₸. У вас есть 3 активные финансовые цели.");
                (js "suggested_action", JNull)])).
Proof. reflexivity. Qed.

(** In live mode the same call goes to the network and fails with it. *)
Example login_live_rejects :
  let e := mkEnv (js "2025-10-18") None (Response false 401 None) 40 in
  fst (fst (login (fun s => s) e (js "john@example.com") (js "x") loaded)) =
  mkPromise 40 (Rejected (HttpError 401)).
Proof. reflexivity. Qed.

End ApiProps.

(* ================================================================== *)
(** * The chat controller *)

Module ChatProps.
Import JsString Chat.

(** ** Elements with an id inside the bubbles *)

Lemma cut_in_eq id i inside :
  cut_in id (Tag i inside) = option_map (Tag i) (cut id inside).
Proof.
  cbn [cut_in]. f_equal.
  induction inside as [|c rest IH]; [reflexivity|].
  cbn [cut]. rewrite IH. reflexivity.
Qed.

Lemma tag_has_eq id i inside :
  tag_has id (Tag i inside) = JsString.eqb i id || tags_have id inside.
Proof.
  cbn [tag_has]. f_equal.
  induction inside as [|c rest IH]; [reflexivity|].
  cbn [tags_have]. rewrite IH. reflexivity.
Qed.

(** Induction on an element with the elements inside it. *)
Lemma tag_induction (P : tag -> Prop) :
  (forall i inside, Forall P inside -> P (Tag i inside)) ->
  forall t, P t.
Proof.
  intros H. fix IH 1. intros [i inside]. apply H.
  induction inside as [|c rest IHr]; constructor; [apply IH | exact IHr].
Qed.

(** Where no element has the id, nothing is cut. *)
Lemma cut_in_absent id t : tag_has id t = false -> cut_in id t = None.
Proof.
  induction t as [i inside IH] using tag_induction.
  rewrite tag_has_eq, cut_in_eq. intros H.
  apply orb_false_iff in H as [_ H].
  assert (C : cut id inside = None).
  { induction inside as [|c rest IHr]; [reflexivity|].
    cbn [tags_have] in H. apply orb_false_iff in H as [Hc Hr].
    inversion IH as [|? ? Pc Pr]; subst.
    cbn [cut]. destruct c as [ci cin]. cbn [tag_id].
    rewrite tag_has_eq in Hc. apply orb_false_iff in Hc as [Hi Hn].
    rewrite Hi, (Pc (eq_trans (tag_has_eq id ci cin)
                       (proj2 (orb_false_iff _ _) (conj Hi Hn)))).
    rewrite (IHr Pr Hr). reflexivity. }
  rewrite C. reflexivity.
Qed.

Lemma cut_absent id ts : tags_have id ts = false -> cut id ts = None.
Proof.
  induction ts as [|c rest IH]; [reflexivity|].
  cbn [tags_have cut]. intros H. apply orb_false_iff in H as [Hc Hr].
  rewrite (cut_in_absent _ _ Hc), (IH Hr).
  destruct c as [ci cin]. cbn [tag_id].
  rewrite tag_has_eq in Hc. apply orb_false_iff in Hc as [Hi _].
  rewrite Hi. reflexivity.
Qed.

Section WithParser.

Context {parser : HtmlParser}.

Lemma indicator_ids_app l1 l2 :
  indicator_ids (l1 ++ l2) = indicator_ids l1 ++ indicator_ids l2.
Proof.
  induction l1 as [|[t ty tm tg|i] l1 IH]; cbn [app indicator_ids]; auto.
  rewrite IH. reflexivity.
Qed.

Lemma awaited_ids_app p1 p2 :
  awaited_ids (p1 ++ p2) = awaited_ids p1 ++ awaited_ids p2.
Proof.
  induction p1 as [|[i|a|a] p1 IH]; cbn [app awaited_ids]; auto.
  rewrite IH. reflexivity.
Qed.

Lemma nth_error_firstn_skipn (p : list activation) k a :
  nth_error p k = Some a -> p = firstn k p ++ a :: skipn (S k) p.
Proof.
  revert k; induction p as [|b p IH]; intros [|k] H; cbn in H; try discriminate.
  - injection H as ->. reflexivity.
  - cbn [firstn skipn app]. f_equal. apply IH, H.
Qed.

(** What taking an id off the page does to the indicators: an indicator
    of that id goes, unless an element inside a bubble is found first. *)
Lemma indicator_ids_remove_by_id id l :
  In id (indicator_ids l) ->
  indicator_ids (remove_by_id id l) = indicator_ids l
  \/ Permutation (indicator_ids l) (id :: indicator_ids (remove_by_id id l)).
Proof.
  induction l as [|[t ty tm tg|i] l IH]; cbn [indicator_ids remove_by_id In].
  - intros [].
  - intros H. destruct (cut (typing_id id) tg); [left; reflexivity|].
    cbn [indicator_ids]. exact (IH H).
  - intros H. destruct (N.eqb_spec i id) as [->|NE].
    + right. reflexivity.
    + cbn [indicator_ids]. destruct H as [H|H]; [contradiction|].
      destruct (IH H) as [E|P]; [left; rewrite E; reflexivity | right].
      rewrite P. apply perm_swap.
Qed.

Lemma indicator_ids_remove_plain id l :
  plain l -> In id (indicator_ids l) ->
  Permutation (indicator_ids l) (id :: indicator_ids (remove_by_id id l)).
Proof.
  induction l as [|[t ty tm tg|i] l IH];
    cbn [plain indicator_ids remove_by_id In].
  - intros _ [].
  - intros [T P] H. rewrite (cut_absent _ _ (T id)).
    cbn [indicator_ids]. exact (IH P H).
  - intros P H. destruct (N.eqb_spec i id) as [->|NE].
    + reflexivity.
    + cbn [indicator_ids]. destruct H as [H|H]; [contradiction|].
      rewrite (IH P H). apply perm_swap.
Qed.

Lemma plain_app l1 l2 : plain (l1 ++ l2) <-> plain l1 /\ plain l2.
Proof.
  induction l1 as [|[t ty tm tg|i] l1 IH]; cbn [app plain].
  - tauto.
  - rewrite IH. tauto.
  - exact IH.
Qed.

(** A page without the id in front of what follows keeps its front. *)
Lemma remove_by_id_absent id l x :
  has_id id l = false -> remove_by_id id (l ++ x) = l ++ remove_by_id id x.
Proof.
  induction l as [|[t ty tm tg|i] l IH]; cbn [has_id remove_by_id app];
    intros H; auto; apply orb_false_iff in H as [H1 H2].
  - rewrite (cut_absent _ _ H1), (IH H2). reflexivity.
  - rewrite H1, (IH H2). reflexivity.
Qed.

Lemma has_id_indicator id l : has_id id l = false -> ~ In id (indicator_ids l).
Proof.
  induction l as [|[t ty tm tg|i] l IH]; cbn [has_id indicator_ids In];
    intros H; auto; apply orb_false_iff in H as [H1 H2].
  - apply IH, H2.
  - intros [E|I]; [subst; rewrite N.eqb_refl in H1; discriminate|].
    exact (IH H2 I).
Qed.

(** ** The indicators cover the awaited sends *)

Lemma coherent_covered st : coherent st <-> covered st [].
Proof. unfold coherent, covered. rewrite app_nil_r. reflexivity. Qed.

Lemma handleSendMessage_covered now st stale :
  covered st stale -> covered (fst (handleSendMessage now st)) stale.
Proof.
  unfold handleSendMessage, covered. intros C.
  destruct (truthy (trim (inputValue st))); cbn -[innerHTML]; [|exact C].
  rewrite <- app_assoc. cbn [app].
  rewrite indicator_ids_app, awaited_ids_app. cbn [indicator_ids awaited_ids].
  rewrite <- app_assoc. rewrite C.
  rewrite <- !app_assoc. apply Permutation_app_head, Permutation_app_comm.
Qed.

Lemma on_speech_effect_covered now e st stale :
  covered st stale -> covered (fst (on_speech_effect now e st)) stale.
Proof.
  intros C. destruct e as [[|] [t| |]| | | | | |]; cbn -[js handleSendMessage];
    try exact C.
  apply handleSendMessage_covered. exact C.
Qed.

Lemma deliver_covered now tr st stale :
  covered st stale -> covered (fst (deliver now tr st)) stale.
Proof.
  revert st; induction tr as [|e tr IH]; intros st C; cbn [deliver]; [exact C|].
  pose proof (on_speech_effect_covered now e C) as C1.
  destruct (on_speech_effect now e st) as [st1 out1].
  specialize (IH st1 C1). destruct (deliver now tr st1). exact IH.
Qed.

Lemma with_speech_covered now o st stale :
  covered st stale -> covered (fst (with_speech now o st)) stale.
Proof.
  intros C. unfold with_speech. destruct (Speech.step o (speech st)) as [sp tr].
  apply deliver_covered. exact C.
Qed.

(** Speaking touches the speech module only. *)
Lemma with_speech_speak now t st :
  with_speech now (Speech.Speak t None) st =
  (set_speech (fst (Speech.speak t None (speech st))) st,
   map SpeechEffect (snd (Speech.speak t None (speech st)))).
Proof.
  unfold with_speech. cbn [Speech.step]. unfold Speech.speak.
  destruct (negb (Speech.isSpeechEnabled (speech st))); [reflexivity|].
  destruct (Speech.synthesis (speech st)); reflexivity.
Qed.

Lemma spoken_frame t st :
  messages (fst (spoken t st)) = messages st
  /\ pending (fst (spoken t st)) = pending st.
Proof.
  unfold spoken. destruct (Speech.getSpeechEnabled (speech st)); auto.
Qed.

Lemma awaited_ids_at (p : list activation) k id :
  nth_error p k = Some (AwaitingReply id) ->
  awaited_ids p = awaited_ids (firstn k p) ++ id :: awaited_ids (skipn (S k) p).
Proof.
  intros H. rewrite (nth_error_firstn_skipn _ _ H) at 1.
  rewrite awaited_ids_app. reflexivity.
Qed.

Lemma awaited_ids_other (p : list activation) k a :
  nth_error p k = Some a -> awaited_ids [a] = [] ->
  awaited_ids p = awaited_ids (firstn k p) ++ awaited_ids (skipn (S k) p).
Proof.
  intros H E. rewrite (nth_error_firstn_skipn _ _ H) at 1.
  rewrite awaited_ids_app. change (a :: skipn (S k) p) with ([a] ++ skipn (S k) p).
  rewrite awaited_ids_app, E. reflexivity.
Qed.

Lemma covered_awaited st stale k id :
  covered st stale -> nth_error (pending st) k = Some (AwaitingReply id) ->
  In id (indicator_ids (messages st)).
Proof.
  unfold covered. intros C H. rewrite (awaited_ids_at _ _ H) in C.
  apply (Permutation_in id (Permutation_sym C)).
  rewrite <- app_assoc. apply in_elt.
Qed.

(** Taking one send off the awaited ones and its id off the page: the
    indicator goes, or it stays as a stale one. *)
Lemma covered_settle st stale k id :
  covered st stale -> nth_error (pending st) k = Some (AwaitingReply id) ->
  exists stale',
    Permutation (indicator_ids (remove_by_id id (messages st)))
                ((awaited_ids (firstn k (pending st))
                  ++ awaited_ids (skipn (S k) (pending st))) ++ stale').
Proof.
  intros C H. pose proof (@covered_awaited st stale k id C H) as I.
  unfold covered in C. rewrite (awaited_ids_at _ _ H) in C.
  destruct (@indicator_ids_remove_by_id id (messages st) I) as [E|P].
  - exists (id :: stale). rewrite E, C. rewrite <- !app_assoc.
    apply Permutation_app_head. cbn [app].
    apply Permutation_middle.
  - exists stale. rewrite P in C. rewrite <- app_assoc in C. cbn [app] in C.
    apply Permutation_cons_app_inv in C. rewrite <- app_assoc. exact C.
Qed.

(** The same on a plain page: the indicator goes. *)
Lemma coherent_settle st k id :
  plain (messages st) ->
  coherent st -> nth_error (pending st) k = Some (AwaitingReply id) ->
  Permutation (indicator_ids (remove_by_id id (messages st)))
              (awaited_ids (firstn k (pending st))
               ++ awaited_ids (skipn (S k) (pending st))).
Proof.
  intros PL C H. pose proof (proj1 (coherent_covered st) C) as C'.
  pose proof (@covered_awaited st [] k id C' H) as I.
  unfold coherent in C. rewrite (awaited_ids_at _ _ H) in C.
  rewrite (@indicator_ids_remove_plain id _ PL I) in C.
  apply Permutation_cons_app_inv in C. exact C.
Qed.

(** The page and the suspended activations after a reply has arrived. *)
Lemma reply_arrives_frame k r now st id :
  nth_error (pending st) k = Some (AwaitingReply id) ->
  messages (fst (reply_arrives k r now st))
  = remove_by_id id (messages st)
    ++ [Message (text r) Assistant now (innerHTML (text r))]
  /\ awaited_ids (pending (fst (reply_arrives k r now st)))
     = awaited_ids (firstn k (pending st))
       ++ awaited_ids (skipn (S k) (pending st)).
Proof.
  intros E. unfold reply_arrives. rewrite E.
  set (st2 := addMessage (text r) Assistant now (removeTypingIndicator id st)).
  assert (F : (if Speech.getSpeechEnabled (speech st2)
               then with_speech now (Speech.Speak (text r) None) st2
               else (st2, [])) = spoken (text r) st2).
  { unfold spoken. rewrite with_speech_speak. reflexivity. }
  rewrite F. destruct (spoken_frame (text r) st2) as [Fm Fp].
  destruct (spoken (text r) st2) as [st3 out]. cbn [fst] in Fm, Fp.
  destruct (suggested_action r); unfold handleSuggestedAction;
    cbn [fst set_pending messages pending];
    rewrite Fm, Fp; subst st2;
    cbn [addMessage removeTypingIndicator set_messages messages pending];
    unfold replace_nth, remove_nth; rewrite ?awaited_ids_app;
    split; reflexivity.
Qed.

Lemma reply_fails_frame k now st id :
  nth_error (pending st) k = Some (AwaitingReply id) ->
  messages (fst (reply_fails k now st))
  = remove_by_id id (messages st)
    ++ [Message apology Assistant now (innerHTML apology)]
  /\ awaited_ids (pending (fst (reply_fails k now st)))
     = awaited_ids (firstn k (pending st))
       ++ awaited_ids (skipn (S k) (pending st)).
Proof.
  intros E. unfold reply_fails. rewrite E.
  cbn [fst addMessage removeTypingIndicator set_messages set_pending messages
       pending].
  unfold remove_nth. rewrite awaited_ids_app. split; reflexivity.
Qed.

Lemma reply_arrives_covered k r now st stale :
  covered st stale ->
  exists stale', covered (fst (reply_arrives k r now st)) stale'.
Proof.
  intros C.
  destruct (nth_error (pending st) k) as [[id|a|a]|] eqn:E;
    try (exists stale; unfold reply_arrives; rewrite E; exact C).
  destruct (@covered_settle st stale k id C E) as [stale' P]. exists stale'.
  destruct (@reply_arrives_frame k r now st id E) as [M A].
  unfold covered. rewrite M, A, indicator_ids_app. cbn [indicator_ids].
  rewrite app_nil_r. exact P.
Qed.

Lemma reply_fails_covered k now st stale :
  covered st stale ->
  exists stale', covered (fst (reply_fails k now st)) stale'.
Proof.
  intros C.
  destruct (nth_error (pending st) k) as [[id|a|a]|] eqn:E;
    try (exists stale; unfold reply_fails; rewrite E; exact C).
  destruct (@covered_settle st stale k id C E) as [stale' P]. exists stale'.
  destruct (@reply_fails_frame k now st id E) as [M A].
  unfold covered. rewrite M, A, indicator_ids_app. cbn [indicator_ids].
  rewrite app_nil_r. exact P.
Qed.

Lemma reply_arrives_coherent k r now st :
  plain (messages st) ->
  coherent st -> coherent (fst (reply_arrives k r now st)).
Proof.
  intros PL C.
  destruct (nth_error (pending st) k) as [[id|a|a]|] eqn:E;
    try (unfold reply_arrives; rewrite E; exact C).
  pose proof (@coherent_settle st k id PL C E) as P.
  destruct (@reply_arrives_frame k r now st id E) as [M A].
  unfold coherent. rewrite M, A, indicator_ids_app. cbn [indicator_ids].
  rewrite app_nil_r. exact P.
Qed.

Lemma reply_fails_coherent k now st :
  plain (messages st) ->
  coherent st -> coherent (fst (reply_fails k now st)).
Proof.
  intros PL C.
  destruct (nth_error (pending st) k) as [[id|a|a]|] eqn:E;
    try (unfold reply_fails; rewrite E; exact C).
  pose proof (@coherent_settle st k id PL C E) as P.
  destruct (@reply_fails_frame k now st id E) as [M A].
  unfold coherent. rewrite M, A, indicator_ids_app. cbn [indicator_ids].
  rewrite app_nil_r. exact P.
Qed.

Lemma modal_closes_covered k b st stale :
  covered st stale -> covered (fst (modal_closes k b st)) stale.
Proof.
  intros C. unfold modal_closes.
  destruct (nth_error (pending st) k) as [[id|a|a]|] eqn:E; try exact C.
  unfold covered in *. rewrite (@awaited_ids_other _ k _ E eq_refl) in C.
  destruct b; cbn; unfold replace_nth, remove_nth; rewrite awaited_ids_app;
    exact C.
Qed.

Lemma execution_returns_covered k b now st stale :
  covered st stale -> covered (fst (execution_returns k b now st)) stale.
Proof.
  intros C. unfold execution_returns.
  destruct (nth_error (pending st) k) as [[id|a|a]|] eqn:E; try exact C.
  unfold covered in *. rewrite (@awaited_ids_other _ k _ E eq_refl) in C.
  destruct b; cbn -[js innerHTML]; rewrite indicator_ids_app, app_nil_r;
    unfold remove_nth; rewrite awaited_ids_app; exact C.
Qed.

Lemma execution_fails_covered k now st stale :
  covered st stale -> covered (fst (execution_fails k now st)) stale.
Proof.
  intros C. unfold execution_fails.
  destruct (nth_error (pending st) k) as [[id|a|a]|] eqn:E; try exact C.
  unfold covered in *. rewrite (@awaited_ids_other _ k _ E eq_refl) in C.
  cbn -[js innerHTML]. rewrite indicator_ids_app, app_nil_r.
  unfold remove_nth. rewrite awaited_ids_app. exact C.
Qed.

(** Everything but the settling of a reply keeps the stale indicators as
    they are. *)
Lemma step_covered ev st stale :
  covered st stale -> exists stale', covered (fst (step ev st)) stale'.
Proof.
  intros C. destruct ev; cbn [step];
    first [ apply (@reply_arrives_covered _ _ _ _ _ C)
          | apply (@reply_fails_covered _ _ _ _ C)
          | exists stale ];
    try exact C.
  - apply handleSendMessage_covered, C.
  - destruct (JsString.eqb key (js "Enter") && negb shiftKey);
      [apply handleSendMessage_covered, C | exact C].
  - destruct (micWired st); [|exact C]. unfold handleMicClick.
    destruct (Speech.getIsListening (speech st)).
    + pose proof (with_speech_covered now Speech.StopListening C) as C1.
      destruct (with_speech now Speech.StopListening st). exact C1.
    + pose proof (with_speech_covered now
        (Speech.StartListening (Some MicOnResult) (Some MicOnError)) C) as C1.
      destruct (with_speech now _ st). exact C1.
  - apply with_speech_covered, C.
  - destruct (is_platform_event o); [apply with_speech_covered, C | exact C].
  - apply modal_closes_covered, C.
  - apply execution_returns_covered, C.
  - apply execution_fails_covered, C.
Qed.

Lemma step_coherent ev st :
  plain (messages st) -> coherent st -> coherent (fst (step ev st)).
Proof.
  intros PL C. destruct ev; cbn [step];
    try (apply coherent_covered; apply coherent_covered in C).
  - exact C.
  - apply handleSendMessage_covered, C.
  - destruct (JsString.eqb key (js "Enter") && negb shiftKey);
      [apply handleSendMessage_covered, C | exact C].
  - destruct (micWired st); [|exact C]. unfold handleMicClick.
    destruct (Speech.getIsListening (speech st)).
    + pose proof (with_speech_covered now Speech.StopListening C) as C1.
      destruct (with_speech now Speech.StopListening st). exact C1.
    + pose proof (with_speech_covered now
        (Speech.StartListening (Some MicOnResult) (Some MicOnError)) C) as C1.
      destruct (with_speech now _ st). exact C1.
  - apply with_speech_covered, C.
  - destruct (is_platform_event o); [apply with_speech_covered, C | exact C].
  - apply coherent_covered, reply_arrives_coherent;
      [exact PL | apply coherent_covered, C].
  - apply coherent_covered, reply_fails_coherent;
      [exact PL | apply coherent_covered, C].
  - apply modal_closes_covered, C.
  - apply execution_returns_covered, C.
  - apply execution_fails_covered, C.
Qed.

Lemma run_covered evs st stale :
  covered st stale -> exists stale', covered (fst (run evs st)) stale'.
Proof.
  revert st stale; induction evs as [|ev evs IH]; intros st stale C; cbn [run];
    [exists stale; exact C|].
  destruct (step_covered ev C) as [s1 C1].
  destruct (step ev st) as [st1 out1]. destruct (IH st1 s1 C1) as [s2 C2].
  destruct (run evs st1). exists s2. exact C2.
Qed.

Lemma run_coherent evs st :
  plainly evs st -> coherent st -> coherent (fst (run evs st)).
Proof.
  revert st; induction evs as [|ev evs IH]; intros st [PL R] C; cbn [run];
    [exact C|].
  pose proof (step_coherent ev PL C) as C1.
  destruct (step ev st) as [st1 out1]. specialize (IH st1 R C1).
  destruct (run evs st1). exact IH.
Qed.

Lemma init_coherent name userId path sup syn now :
  coherent (init name userId path sup syn now).
Proof. unfold coherent. cbn -[js innerHTML]. constructor. Qed.

Lemma reachable_covered st : reachable st -> exists stale, covered st stale.
Proof.
  intros (name & userId & path & sup & syn & now & evs & ->).
  apply (@run_covered evs _ []). apply coherent_covered, init_coherent.
Qed.

Lemma run_app_fst evs1 evs2 st :
  fst (run (evs1 ++ evs2) st) = fst (run evs2 (fst (run evs1 st))).
Proof.
  revert st; induction evs1 as [|ev evs1 IH]; intros st; cbn [app run].
  - reflexivity.
  - destruct (step ev st) as [s1 o1]. specialize (IH s1).
    destruct (run evs1 s1), (run (evs1 ++ evs2) s1). exact IH.
Qed.

Lemma run_reachable evs st : reachable st -> reachable (fst (run evs st)).
Proof.
  intros (name & userId & path & sup & syn & now & evs0 & ->).
  exists name, userId, path, sup, syn, now, (evs0 ++ evs).
  symmetry. apply run_app_fst.
Qed.

Lemma fresh_reachable typed : reachable (fresh typed).
Proof.
  exists None, Api.JNull, (js "/index.html"), false, None, 0%N, [Input typed].
  reflexivity.
Qed.

Lemma handleSendMessage_empty now st :
  trim (inputValue st) = [] -> handleSendMessage now st = (st, []).
Proof. intros H. unfold handleSendMessage. rewrite H. reflexivity. Qed.

Lemma handleSendMessage_send now st :
  trim (inputValue st) <> [] ->
  handleSendMessage now st =
  (set_pending (pending st ++ [AwaitingReply now])
     (set_messages
        (messages st ++ [Message (trim (inputValue st)) User now
                           (innerHTML (trim (inputValue st)));
                         TypingIndicator now])
        (set_inputValue [] st)),
   [SendAIMessage (currentUserId st) (trim (inputValue st))]).
Proof.
  intros H. unfold handleSendMessage.
  destruct (trim (inputValue st)) as [|c m] eqn:E; [congruence|].
  cbn -[innerHTML]. rewrite <- app_assoc. reflexivity.
Qed.

Lemma plainly_last evs st :
  plainly evs st -> plain (messages (fst (run evs st))).
Proof.
  revert st; induction evs as [|ev evs IH]; intros st [PL R]; cbn [run];
    [exact PL|].
  destruct (step ev st) as [st1 out1]. specialize (IH st1 R).
  destruct (run evs st1). exact IH.
Qed.

(** On a plain page an id is on the page only as an indicator. *)
Lemma plain_has_id id l :
  plain l -> ~ In id (indicator_ids l) -> has_id id l = false.
Proof.
  induction l as [|[t ty tm tg|i] l IH]; cbn [plain has_id indicator_ids In].
  - reflexivity.
  - intros [T P] H. rewrite (T id), (IH P H). reflexivity.
  - intros P H. destruct (N.eqb_spec i id) as [->|NE]; [tauto|].
    cbn [orb]. apply IH; tauto.
Qed.

(** On a page that has been plain all along and awaits input, no element
    carries the id of an indicator. *)
Lemma awaiting_input_fresh name userId path sup syn now0 evs id :
  let st0 := init name userId path sup syn now0 in
  let st := fst (run evs st0) in
  plainly evs st0 -> AwaitingInput st -> has_id id (messages st) = false.
Proof.
  intros st0 st PL A.
  pose proof (run_coherent evs PL (init_coherent _ _ _ _ _ _)) as C.
  fold st0 st in C. unfold coherent in C. unfold AwaitingInput in A.
  rewrite A in C. apply Permutation_sym, Permutation_nil in C.
  apply plain_has_id; [apply (plainly_last _ _ PL) | rewrite C; intros []].
Qed.

(** Each send that goes out puts up one indicator. *)
Lemma send_puts_indicator now st :
  trim (inputValue st) <> [] ->
  indicator_ids (messages (fst (handleSendMessage now st)))
  = indicator_ids (messages st) ++ [now].
Proof.
  intros H. rewrite handleSendMessage_send by exact H.
  cbn [fst messages set_pending set_messages].
  rewrite indicator_ids_app. reflexivity.
Qed.

(** On a plain page the arrival or the failure of a reply takes one
    indicator down. *)
Lemma settle_takes_indicator st k id r now :
  plain (messages st) -> coherent st ->
  nth_error (pending st) k = Some (AwaitingReply id) ->
  S (List.length (indicator_ids (messages (fst (reply_arrives k r now st)))))
  = List.length (indicator_ids (messages st))
  /\ S (List.length (indicator_ids (messages (fst (reply_fails k now st)))))
     = List.length (indicator_ids (messages st)).
Proof.
  intros PL C E.
  pose proof (@coherent_settle st k id PL C E) as P.
  destruct (@reply_arrives_frame k r now st id E) as [M1 _].
  destruct (@reply_fails_frame k now st id E) as [M2 _].
  rewrite M1, M2, !indicator_ids_app. cbn [indicator_ids].
  rewrite app_nil_r. unfold coherent in C. rewrite (awaited_ids_at _ _ E) in C.
  apply Permutation_length in C, P. rewrite P, C, !length_app.
  cbn [List.length]. lia.
Qed.


(** A recognised text that trims to nothing ends in the field and goes no
    further, whatever handler the recognizer holds. *)
Lemma blank_transcript_frame (s : jsstring) (st : state) (now : N) :
  trim s = [] ->
  (exists st1, fst (step (Platform (Speech.FireResult s) now) st) = st1
     /\ messages st1 = messages st /\ pending st1 = pending st)
  /\ existsb is_reply_request (snd (step (Platform (Speech.FireResult s) now) st))
     = false.
Proof.
  intros H. cbn [step is_platform_event]. unfold with_speech.
  cbn [Speech.step]. unfold Speech.fire_result.
  destruct (Speech.recognition (speech st)) as [r|];
    [|split; [eexists; split; [reflexivity|split; reflexivity]|reflexivity]].
  destruct (Speech.started r);
    [|split; [eexists; split; [reflexivity|split; reflexivity]|reflexivity]].
  destruct (Speech.onresult r) as [[[|]|]|]; cbn -[js handleSendMessage];
    rewrite ?handleSendMessage_empty by exact H;
    (split; [eexists; split; [reflexivity|split; reflexivity]|reflexivity]).
Qed.

(** C5. A submission whose text trims to nothing, whether by the send
    button, by the Enter key or by a voice transcript, appends no
    message, makes no reply request, and suspends nothing: the controller
    stays where it was, with the text left in the field. *)
Theorem empty_submission_is_noop (s : jsstring) (st : state) (now : N) :
  trim s = [] ->
  run [Input s; ClickSend now] st = (set_inputValue s st, [])
  /\ run [Input s; KeyPress (js "Enter") false now] st = (set_inputValue s st, [])
  /\ on_speech_effect now (Speech.Invoke MicOnResult (Speech.Str s)) st
     = (set_mic false (set_inputValue s st), [])
  /\ (let voice := step (Platform (Speech.FireResult s) now) st in
      messages (fst voice) = messages st
      /\ pending (fst voice) = pending st
      /\ existsb is_reply_request (snd voice) = false).
Proof.
  intros H. split; [|split; [|split]].
  - cbn [run step]. rewrite handleSendMessage_empty by exact H. reflexivity.
  - cbn [run step]. change (JsString.eqb (js "Enter") (js "Enter")) with true.
    cbn [andb negb]. rewrite handleSendMessage_empty by exact H. reflexivity.
  - cbn [on_speech_effect]. apply handleSendMessage_empty. exact H.
  - destruct (@blank_transcript_frame s st now H) as [(st1 & <- & Hm & Hp) Hr].
    cbv zeta. auto.
Qed.

Lemma send_from_awaiting_input now st :
  AwaitingInput st -> trim (inputValue st) <> [] ->
  handleSendMessage now st =
  (sent now st, [SendAIMessage (currentUserId st) (trim (inputValue st))]).
Proof.
  intros A H. rewrite handleSendMessage_send by exact H.
  unfold sent. unfold AwaitingInput in A. rewrite A. reflexivity.
Qed.

(** Where nothing on the page nor in the text sent carries the id of the
    indicator, settling the send takes the indicator itself off. *)
Lemma sent_settled now st m :
  has_id now (messages st) = false ->
  tags_have (typing_id now) (innerHTML (trim (inputValue st))) = false ->
  remove_by_id now (messages (sent now st)) ++ [m]
  = messages st ++ [Message (trim (inputValue st)) User now
                      (innerHTML (trim (inputValue st))); m].
Proof.
  intros H T. cbn [sent messages set_pending set_messages].
  rewrite remove_by_id_absent by exact H.
  cbn [remove_by_id]. rewrite (cut_absent _ _ T).
  cbn [remove_by_id]. rewrite N.eqb_refl, <- app_assoc. reflexivity.
Qed.

(** Enter without Shift submits as the send button does. *)
Lemma enter_is_click now st :
  step (KeyPress (js "Enter") false now) st = step (ClickSend now) st.
Proof. reflexivity. Qed.


(** Declining is the end of the activation and nothing else. *)
Lemma decline_frame k a st :
  nth_error (pending st) k = Some (AwaitingConfirmation a) ->
  modal_closes k false st = (set_pending (remove_nth k (pending st)) st, []).
Proof. intros H. unfold modal_closes. rewrite H. reflexivity. Qed.

(** The turn up to the dialog: the send and the arrival of a reply that
    suggests an action. *)
Lemma asked_turn (st : state) (r : response) (a : action) (t1 t2 : N) :
  AwaitingInput st -> trim (inputValue st) <> [] ->
  suggested_action r = Some a ->
  has_id t1 (messages st) = false ->
  tags_have (typing_id t1) (innerHTML (trim (inputValue st))) = false ->
  let msg := trim (inputValue st) in
  run [ClickSend t1; ReplyArrives 0 r t2] st
  = (set_pending [AwaitingConfirmation a]
       (set_messages
          (messages st ++ [Message msg User t1 (innerHTML msg);
                           Message (text r) Assistant t2 (innerHTML (text r))])
          (set_inputValue [] (fst (spoken (text r) st)))),
     SendAIMessage (currentUserId st) msg
     :: snd (spoken (text r) st) ++ snd (handleSuggestedAction a)).
Proof.
  intros A H HA F T msg. cbn [run step].
  rewrite send_from_awaiting_input by assumption.
  pose proof (@sent_settled t1 st
                (Message (text r) Assistant t2 (innerHTML (text r))) F T) as S.
  unfold reply_arrives.
  change (nth_error (pending (sent t1 st)) 0) with (Some (AwaitingReply t1)).
  cbv beta iota. unfold addMessage, removeTypingIndicator, replace_nth.
  rewrite with_speech_speak, HA.
  unfold sent, spoken, Speech.getSpeechEnabled in *.
  cbn -[trim js remove_by_id Speech.speak innerHTML] in S |- *.
  rewrite S.
  destruct (Speech.isSpeechEnabled (speech st));
    cbn -[trim js Speech.speak innerHTML]; rewrite ?app_nil_r; reflexivity.
Qed.


End WithParser.

(** ** The theorems at work, with the parser of the examples *)

#[local] Existing Instance example_parser.



Lemma empty_submission_is_noop_witness :
  let s := js "  	 " in
  let st := fresh [] in
  trim s = []
  /\ run [Input s; ClickSend 5] st = (set_inputValue s st, []).
Proof.
  cbv zeta. split; [reflexivity|].
  exact (proj1 (@empty_submission_is_noop _ (js "  	 ") (fresh []) 5 eq_refl)).
Defined.





(** A confirmed action does reach the execution endpoint, once. *)
Example confirmed_action_executes :
  let a := mkAction None None Api.JNull in
  let r := mkResponse (js "ok") (Some a) in
  let turn := run [ClickSend 10; ReplyArrives 0 r 20; ModalCloses 0 true;
                   ExecutionReturns 0 true 30] (fresh (js "go")) in
  filter is_execute_request (snd turn) = [ExecuteAIAction Api.JNull a]
  /\ messages (fst turn)
     = messages (fresh (js "go"))
       ++ [Message (js "go") User 10 []; Message (js "ok") Assistant 20 [];
           Message (js "Действие выполнено успешно!") Assistant 30 []].
Proof. split; reflexivity. Qed.

End ChatProps.


(* ================================================================== *)
(** * Regular expressions: the matcher decides the language *)

Module RegexFacts.
Import Regex.

Lemma nullable_matches r : nullable r = true <-> matches r [].
Proof.
  split.
  - induction r; cbn [nullable]; intros H; try discriminate.
    + constructor.
    + apply andb_true_iff in H as [H1 H2].
      apply (MSeq (IHr1 H1) (IHr2 H2)).
    + apply orb_true_iff in H as [H|H]; [apply MAltL | apply MAltR]; auto.
    + constructor.
  - intros H. remember [] as s eqn:E.
    induction H; cbn [nullable]; try discriminate; auto.
    + apply app_eq_nil in E as [-> ->]. rewrite IHmatches1, IHmatches2; auto.
    + rewrite IHmatches; auto.
    + rewrite IHmatches; auto. apply orb_true_r.
Qed.

Lemma matches_seq r1 r2 s :
  matches (Seq r1 r2) s <->
  exists s1 s2, s = s1 ++ s2 /\ matches r1 s1 /\ matches r2 s2.
Proof.
  split.
  - intros H. inversion H; subst. eauto.
  - intros (s1 & s2 & -> & H1 & H2). constructor; assumption.
Qed.

Lemma matches_alt r1 r2 s :
  matches (Alt r1 r2) s <-> matches r1 s \/ matches r2 s.
Proof.
  split.
  - intros H. inversion H; subst; auto.
  - intros [H|H]; [apply MAltL | apply MAltR]; exact H.
Qed.

Lemma matches_class p s :
  matches (Class p) s <-> exists c, s = [c] /\ p c = true.
Proof.
  split.
  - intros H. inversion H; subst. eauto.
  - intros (c & -> & H). constructor. exact H.
Qed.

(** A non-empty word of a repetition starts with a non-empty word of the
    repeated expression. *)
Lemma matches_star_cons r c s :
  matches (Star r) (c :: s) ->
  exists s1 s2, s = s1 ++ s2 /\ matches r (c :: s1) /\ matches (Star r) s2.
Proof.
  intros H. remember (Star r) as r0 eqn:E0. remember (c :: s) as s0 eqn:E.
  revert s E.
  induction H; intros t E; try discriminate.
  injection E0 as ->.
  destruct s1 as [|c1 s1]; cbn [app] in E.
  - apply IHmatches2; auto.
  - injection E as -> <-. eauto.
Qed.

Lemma deriv_matches c r s : matches (deriv c r) s <-> matches r (c :: s).
Proof.
  revert s; induction r; intros s; cbn [deriv].
  - split; intros H; inversion H.
  - split; intros H; inversion H.
  - rewrite matches_class. destruct (p c) eqn:E; split.
    + intros H. inversion H; subst. exists c. auto.
    + intros (c' & Hc & _). injection Hc as -> ->. constructor.
    + intros H. inversion H.
    + intros (c' & Hc & H). injection Hc as -> ->. congruence.
  - split.
    + intros H.
      assert (S1 : matches (Seq (deriv c r1) r2) s -> matches (Seq r1 r2) (c :: s)).
      { intros M. apply matches_seq in M as (s1 & s2 & -> & M1 & M2).
        apply IHr1 in M1. apply (MSeq M1 M2). }
      destruct (nullable r1) eqn:N; [|auto].
      apply matches_alt in H as [H|H]; [auto|].
      apply nullable_matches in N. apply IHr2 in H.
      apply (MSeq N H).
    + intros H. apply matches_seq in H as (s1 & s2 & E & M1 & M2).
      destruct s1 as [|c1 s1]; cbn [app] in E.
      * subst s2. apply IHr2 in M2.
        apply nullable_matches in M1. rewrite M1. apply MAltR, M2.
      * injection E as <- ->. apply IHr1 in M1.
        pose proof (MSeq M1 M2) as M.
        destruct (nullable r1); [apply MAltL|]; exact M.
  - rewrite !matches_alt, IHr1, IHr2. reflexivity.
  - split.
    + intros H. apply matches_seq in H as (s1 & s2 & -> & M1 & M2).
      apply IHr in M1. apply (MStarApp M1 M2).
    + intros H. apply matches_star_cons in H as (s1 & s2 & -> & M1 & M2).
      apply IHr in M1. apply (MSeq M1 M2).
Qed.

(** The matcher accepts exactly the language of the expression. *)
Lemma test_matches r s : test r s = true <-> matches r s.
Proof.
  revert r; induction s as [|c s IH]; intros r; cbn [test].
  - apply nullable_matches.
  - rewrite IH. apply deriv_matches.
Qed.

Lemma matches_chr c s : matches (Chr c) s <-> s = [c].
Proof.
  unfold Chr. rewrite matches_class. split.
  - intros (c' & -> & H). apply N.eqb_eq in H. congruence.
  - intros ->. exists c. split; [reflexivity | apply N.eqb_refl].
Qed.

Lemma matches_star_class p s :
  matches (Star (Class p)) s <-> forallb p s = true.
Proof.
  split.
  - intros H. remember (Star (Class p)) as r eqn:E.
    induction H; try discriminate; [reflexivity|].
    injection E as ->. apply matches_class in H as (c & -> & Hc).
    cbn [app forallb]. rewrite Hc. apply IHmatches2. reflexivity.
  - induction s as [|c s IH]; cbn [forallb]; intros H; [constructor|].
    apply andb_true_iff in H as [H1 H2].
    apply (MStarApp (s1 := [c]) (MClass p c H1) (IH H2)).
Qed.

(** [[p]+] is a non-empty run of characters of the class. *)
Lemma matches_plus_class p s :
  matches (Plus (Class p)) s <-> s <> [] /\ forallb p s = true.
Proof.
  unfold Plus. rewrite matches_seq. split.
  - intros (s1 & s2 & -> & M1 & M2).
    apply matches_class in M1 as (c & -> & Hc).
    apply matches_star_class in M2. cbn [app forallb]. rewrite Hc, M2.
    split; [discriminate | reflexivity].
  - intros [NE F]. destruct s as [|c s]; [congruence|].
    cbn [forallb] in F. apply andb_true_iff in F as [F1 F2].
    exists [c], s. split; [reflexivity|]. split; [constructor; exact F1|].
    apply matches_star_class, F2.
Qed.

End RegexFacts.

(* ================================================================== *)
(** * The other validators and the form *)

Module FormProps.
Import JsString JsStringFacts JsNumber Validator Regex RegexFacts.

(** The language of the email pattern, spelled out. *)
Lemma email_re_matches s :
  matches email_re s <->
  exists a b c,
    s = a ++ 64%N :: b ++ 46%N :: c
    /\ (a <> [] /\ forallb not_space_or_at a = true)
    /\ (b <> [] /\ forallb not_space_or_at b = true)
    /\ (c <> [] /\ forallb not_space_or_at c = true).
Proof.
  unfold email_re. split.
  - intros H.
    apply matches_seq in H as (a & s1 & -> & Ha & H).
    apply matches_seq in H as (at_ & s2 & -> & Hat & H).
    apply matches_seq in H as (b & s3 & -> & Hb & H).
    apply matches_seq in H as (dot & c & -> & Hdot & Hc).
    apply matches_chr in Hat, Hdot. subst at_ dot.
    apply matches_plus_class in Ha, Hb, Hc.
    exists a, b, c. auto.
  - intros (a & b & c & -> & Ha & Hb & Hc).
    apply matches_plus_class in Ha, Hb, Hc.
    apply (MSeq Ha). apply (MSeq (s1 := [64%N])); [apply matches_chr; reflexivity|].
    apply (MSeq Hb). apply (MSeq (s1 := [46%N])); [apply matches_chr; reflexivity|].
    exact Hc.
Qed.

Lemma plain_count_at s :
  forallb not_space_or_at s = true -> count_occ N.eq_dec s 64%N = 0%nat.
Proof.
  induction s as [|c s IH]; cbn [forallb count_occ]; [reflexivity|].
  intros H. apply andb_true_iff in H as [H1 H2].
  unfold not_space_or_at in H1. apply andb_true_iff in H1 as [_ H1].
  apply negb_true_iff, N.eqb_neq in H1.
  destruct (N.eq_dec c 64); [contradiction | auto].
Qed.

Lemma plain_no_space s :
  forallb not_space_or_at s = true -> existsb is_white_space s = false.
Proof.
  induction s as [|c s IH]; cbn [forallb existsb]; [reflexivity|].
  intros H. apply andb_true_iff in H as [H1 H2].
  unfold not_space_or_at in H1. apply andb_true_iff in H1 as [H1 _].
  apply negb_true_iff in H1. rewrite H1, IH; auto.
Qed.

(** X1. [validateEmail] accepts exactly the strings [local@label.rest]
    whose three parts are non-empty and free of white space and of [@]
    (dots are allowed in each part); so an accepted address has exactly
    one [@], no white space, and a dot after the [@] that is neither the
    first nor the last character of the domain. *)
Theorem validateEmail_ok_iff (email : jsstring) :
  (ok (validateEmail email) = true <->
   exists a b c,
     email = a ++ 64%N :: b ++ 46%N :: c
     /\ (a <> [] /\ forallb not_space_or_at a = true)
     /\ (b <> [] /\ forallb not_space_or_at b = true)
     /\ (c <> [] /\ forallb not_space_or_at c = true))
  /\ (ok (validateEmail email) = true ->
      count_occ N.eq_dec email 64%N = 1%nat
      /\ existsb is_white_space email = false).
Proof.
  assert (E : ok (validateEmail email) = true <-> matches email_re email).
  { unfold validateEmail. rewrite <- test_matches.
    destruct email as [|c0 e]; [split; discriminate|]. cbn [truthy negb].
    destruct (test email_re (c0 :: e)); cbn; split; auto. }
  split; [rewrite E; apply email_re_matches|].
  intros H. apply E, email_re_matches in H
    as (a & b & c & -> & [_ Fa] & [_ Fb] & [_ Fc]).
  split.
  - rewrite count_occ_app. cbn [count_occ].
    destruct (N.eq_dec 64 64) as [_|NE]; [|congruence].
    rewrite count_occ_app. cbn [count_occ].
    destruct (N.eq_dec 46 64) as [D|_]; [discriminate D|].
    rewrite !plain_count_at by assumption. reflexivity.
  - rewrite existsb_app. cbn [existsb]. rewrite existsb_app. cbn [existsb].
    rewrite !plain_no_space by assumption. reflexivity.
Qed.

Example validateEmail_examples :
  ok (validateEmail (js "john@example.com")) = true
  /\ ok (validateEmail (js "a@b..c")) = true
  /\ ok (validateEmail (js "john@example")) = false
  /\ ok (validateEmail (js "john@.com")) = false
  /\ ok (validateEmail (js "john doe@example.com")) = false
  /\ ok (validateEmail (js "a@b@c.d")) = false
  /\ message (validateEmail []) = js "Email обязателен".
Proof. repeat split. Qed.

(** When [validateRequired] accepts. *)
Lemma required_ok_iff (v : jsstring) (fieldName : option jsstring) :
  ok (validateRequired v fieldName) = true <->
  exists c, In c v /\ is_white_space c = false.
Proof.
  unfold validateRequired.
  destruct (JsString.eqb (trim v) []) eqn:E.
  - rewrite orb_true_r. cbn [ok]. split; [discriminate|].
    intros (c & Hc & Hw). apply JsStringFacts.eqb_eq, trim_nil_iff in E.
    rewrite (proj1 (forallb_forall _ _) E c Hc) in Hw. discriminate.
  - assert (NE : trim v <> []).
    { intros T. apply JsStringFacts.eqb_eq in T. congruence. }
    assert (X : exists c, In c v /\ is_white_space c = false).
    { destruct (forallb is_white_space v) eqn:F.
      - apply trim_nil_iff in F. contradiction.
      - clear - F. induction v as [|c v IH]; [discriminate|].
        cbn [forallb] in F. destruct (is_white_space c) eqn:W.
        + destruct (IH F) as (c' & H1 & H2). exists c'. split; [right|]; auto.
        + exists c. split; [left|]; auto. }
    destruct v as [|c0 v0]; [destruct X as (c & [] & _)|].
    cbn [truthy negb orb ok]. split; auto.
Qed.

(** X2. [validateRequired] accepts a value exactly when it holds a
    character that is not white space; a rejection names the field. *)
Theorem validateRequired_ok_iff (v : jsstring) (fieldName : option jsstring) :
  (ok (validateRequired v fieldName) = true <->
   exists c, In c v /\ is_white_space c = false)
  /\ (ok (validateRequired v fieldName) = false ->
      message (validateRequired v fieldName)
      = match fieldName with Some n => n | None => js "Поле" end
        ++ js " обязательно").
Proof.
  split; [apply required_ok_iff|]. unfold validateRequired.
  destruct (negb (truthy v) || JsString.eqb (trim v) []); cbn [ok message];
    [reflexivity | discriminate].
Qed.

Lemma first_failure_none vs v :
  first_failure vs v = None <-> Forall (fun check : validator => ok (check v) = true) vs.
Proof.
  induction vs as [|check vs IH]; cbn [first_failure].
  - split; auto.
  - destruct (ok (check v)) eqn:E; cbn [negb].
    + rewrite IH. split; [intros H; constructor; auto | intros H; inversion H; auto].
    + split; [discriminate | intros H; inversion H; congruence].
Qed.

(** The first failure is the message of a validator that rejects, all
    validators before it accepting. *)
Lemma first_failure_some vs v msg :
  first_failure vs v = Some msg <->
  exists before check after,
    vs = before ++ check :: after
    /\ Forall (fun c : validator => ok (c v) = true) before
    /\ ok (check v) = false /\ message (check v) = msg.
Proof.
  induction vs as [|check vs IH]; cbn [first_failure].
  - split; [discriminate|]. intros (b & c & a & E & _). destruct b; discriminate.
  - destruct (ok (check v)) eqn:E; cbn [negb].
    + rewrite IH. split.
      * intros (b & c & a & -> & F & H1 & H2).
        exists (check :: b), c, a. repeat split; auto.
      * intros (b & c & a & E1 & F & H1 & H2).
        destruct b as [|c0 b]; cbn [app] in E1; injection E1 as -> ->.
        -- congruence.
        -- inversion F; subst. exists b, c, a. repeat split; auto.
    + split.
      * intros [= <-]. exists [], check, vs. repeat split; auto.
      * intros (b & c & a & E1 & F & H1 & H2).
        destruct b as [|c0 b]; cbn [app] in E1; injection E1 as -> ->.
        -- congruence.
        -- inversion F; subst. congruence.
Qed.

(** ** The form as a tree *)

Lemma element_in_Box name cs : element_in name (Box cs) = element name cs.
Proof.
  cbn [element_in]. induction cs as [|c r IH]; [reflexivity|].
  cbn [element]. rewrite IH. reflexivity.
Qed.

Lemma values_in_Box cs : values_in (Box cs) = values cs.
Proof.
  cbn [values_in]. induction cs as [|c r IH]; [reflexivity|].
  cbn [values]. rewrite IH. reflexivity.
Qed.

Lemma put_error_in_Box k cs :
  put_error_in k (Box cs) = option_map Box (put_error k cs).
Proof.
  cbn [put_error_in]. f_equal.
  induction cs as [|c r IH]; [reflexivity|].
  cbn [put_error]. rewrite IH. reflexivity.
Qed.

Lemma at_parent_in_Box name g cs :
  at_parent_in name g (Box cs)
  = match scan name g cs with
    | Here => Some (Box (g cs))
    | Below cs' => Some (Box cs')
    | Nowhere => None
    end.
Proof.
  cbn [at_parent_in].
  match goal with
  | |- match ?x with _ => _ end = match ?y with _ => _ end =>
      replace x with y; [reflexivity|]
  end.
  induction cs as [|c r IH]; [reflexivity|].
  cbn [scan]. rewrite IH. reflexivity.
Qed.

(** Induction on an element with the elements in it. *)
Lemma node_induction (P : node -> Prop) :
  (forall name i, P (Control name i)) ->
  (forall t, P (FormError t)) ->
  (forall cs, Forall P cs -> P (Box cs)) ->
  forall n, P n.
Proof.
  intros HC HE HB. fix IH 1. intros [name i|t|cs];
    [apply HC | apply HE | apply HB].
  induction cs as [|c r IHr]; constructor; [apply IH | exact IHr].
Qed.

Lemma assoc_app {A : Type} name (l1 l2 : list (jsstring * A)) :
  assoc name (l1 ++ l2)
  = match assoc name l1 with Some a => Some a | None => assoc name l2 end.
Proof.
  induction l1 as [|[n a] l1 IH]; cbn [app assoc]; [reflexivity|].
  destruct (JsString.eqb name n); [reflexivity | exact IH].
Qed.

Lemma element_in_values name n :
  option_map value_of (element_in name n) = assoc name (values_in n).
Proof.
  induction n as [m i|t|cs IH] using node_induction.
  - cbn [element_in values_in assoc]. destruct (JsString.eqb name m); reflexivity.
  - reflexivity.
  - rewrite element_in_Box, values_in_Box.
    induction cs as [|c r IHr]; [reflexivity|].
    inversion IH as [|? ? Pc Pr]; subst.
    cbn [element values]. rewrite assoc_app, <- Pc, <- (IHr Pr).
    destruct (element_in name c); reflexivity.
Qed.

(** The value in a control is that of the first control of the name. *)
Lemma field_value_values name f : field_value name f = assoc name (values f).
Proof.
  unfold field_value. induction f as [|c r IH]; [reflexivity|].
  cbn [element values]. rewrite assoc_app, <- element_in_values, <- IH.
  destruct (element_in name c); reflexivity.
Qed.

Lemma values_app l1 l2 : values (l1 ++ l2) = values l1 ++ values l2.
Proof.
  induction l1 as [|c r IH]; cbn [app values]; [reflexivity|].
  rewrite IH, app_assoc. reflexivity.
Qed.

Lemma values_set_class name b l : values (set_class name b l) = values l.
Proof.
  induction l as [|[m i|t|cs] r IH]; cbn [set_class values]; try congruence.
  destruct (JsString.eqb name m); cbn [values values_in value_of]; congruence.
Qed.

Lemma put_error_in_values k n n' :
  put_error_in k n = Some n' -> values_in n' = values_in n.
Proof.
  revert n'. induction n as [m i|t|cs IH] using node_induction; intros n';
    try discriminate.
  rewrite put_error_in_Box. intros H.
  destruct (put_error k cs) as [cs'|] eqn:E; [|discriminate].
  injection H as <-. rewrite !values_in_Box.
  revert cs' E. induction cs as [|c r IHr]; intros cs' E; [discriminate|].
  inversion IH as [|? ? Pc Pr]; subst.
  assert (G : match put_error_in k c with
              | Some c' => Some (c' :: r)
              | None => option_map (cons c) (put_error k r)
              end = Some cs' -> values cs' = values (c :: r)).
  { destruct (put_error_in k c) as [c'|] eqn:Ec.
    - intros [= <-]. cbn [values]. rewrite (Pc c' eq_refl). reflexivity.
    - destruct (put_error k r) as [r'|]; [|discriminate].
      intros [= <-]. cbn [values]. rewrite (IHr Pr r' eq_refl). reflexivity. }
  destruct c as [m i|t|cc]; cbn [put_error] in E; try exact (G E).
  destruct k; injection E as <-; reflexivity.
Qed.

Lemma put_error_values k l l' :
  put_error k l = Some l' -> values l' = values l.
Proof.
  intros H. pose proof (@put_error_in_values k (Box l) (Box l')) as G.
  rewrite put_error_in_Box, H, !values_in_Box in G. exact (G eq_refl).
Qed.

(** A change below the parent of a control that keeps the controls' values
    keeps those of the form. *)
Lemma at_parent_in_values name g n n' :
  (forall cs, values (g cs) = values cs) ->
  at_parent_in name g n = Some n' -> values_in n' = values_in n.
Proof.
  intros Hg. revert n'.
  induction n as [m i|t|cs IH] using node_induction; intros n';
    try discriminate.
  rewrite at_parent_in_Box. intros H.
  assert (S : forall l', scan name g cs = Below l' -> values l' = values cs).
  { clear H. induction cs as [|c r IHr]; intros l' E; [discriminate|].
    inversion IH as [|? ? Pc Pr]; subst. specialize (IHr Pr).
    assert (G : match at_parent_in name g c with
                | Some c' => Below (c' :: r)
                | None =>
                    match scan name g r with
                    | Below r' => Below (c :: r')
                    | x => x
                    end
                end = Below l' -> values l' = values (c :: r)).
    { destruct (at_parent_in name g c) as [c'|].
      - intros [= <-]. cbn [values]. rewrite (Pc c' eq_refl). reflexivity.
      - destruct (scan name g r) as [|r'|]; try discriminate.
        intros [= <-]. cbn [values]. rewrite (IHr r' eq_refl). reflexivity. }
    destruct c as [m i|t|cc]; cbn [scan] in E; try exact (G E).
    destruct (JsString.eqb name m); [discriminate|].
    destruct (scan name g r) as [|r'|]; try discriminate.
    injection E as <-. cbn [values]. rewrite (IHr r' eq_refl). reflexivity. }
  destruct (scan name g cs) as [|cs'|]; [| |discriminate];
    injection H as <-; rewrite !values_in_Box; [apply Hg | apply S; reflexivity].
Qed.

Lemma at_parent_values name g f :
  (forall cs, values (g cs) = values cs) ->
  values (at_parent name g f) = values f.
Proof.
  intros Hg. pose proof (@at_parent_in_values name g (Box f)) as G.
  rewrite at_parent_in_Box in G. unfold at_parent.
  destruct (scan name g f) as [|f'|]; [apply Hg | | reflexivity].
  specialize (G (Box f') Hg eq_refl). rewrite !values_in_Box in G. exact G.
Qed.

Lemma clearError_values name f : values (clearError name f) = values f.
Proof.
  apply at_parent_values. intros cs. cbv zeta.
  destruct (put_error None (set_class name false cs)) as [cs2|] eqn:E.
  - rewrite (put_error_values _ _ E). apply values_set_class.
  - apply values_set_class.
Qed.

Lemma showError_values name msg f : values (showError name msg f) = values f.
Proof.
  apply at_parent_values. intros cs. cbv zeta.
  destruct (put_error (Some msg) (set_class name true cs)) as [cs2|] eqn:E.
  - rewrite (put_error_values _ _ E). apply values_set_class.
  - rewrite values_app, values_set_class. apply app_nil_r.
Qed.

Lemma validateForm_keeps f rules : values (snd (validateForm f rules)) = values f.
Proof.
  revert f; induction rules as [|[name vs] rules IH]; intros f;
    cbn [validateForm]; [reflexivity|].
  destruct (element name f) as [i|]; [|apply IH].
  destruct (first_failure vs (value_of i)) as [msg|].
  - specialize (IH (showError name msg (clearError name f))).
    destruct (validateForm _ rules) as [b f']. cbn [snd] in *.
    rewrite IH, showError_values. apply clearError_values.
  - rewrite IH. apply clearError_values.
Qed.

(** Validation never changes what the controls hold. *)
Lemma validateForm_values f rules n :
  field_value n (snd (validateForm f rules)) = field_value n f.
Proof. rewrite !field_value_values, validateForm_keeps. reflexivity. Qed.

Lemma all_pass_ext f f' rules :
  (forall n, field_value n f' = field_value n f) ->
  all_pass f rules <-> all_pass f' rules.
Proof.
  intros H. unfold all_pass. split; intros A; eapply Forall_impl; try exact A;
    cbn; intros rule P v Hv; apply P; [rewrite <- H | rewrite H]; exact Hv.
Qed.

(** When [validateForm] answers true. *)
Lemma validateForm_ok_iff (f : form) (rules : list (jsstring * list validator)) :
  fst (validateForm f rules) = true <-> all_pass f rules.
Proof.
  revert f; induction rules as [|[name vs] rules IH]; intros f;
    cbn [validateForm].
  - split; [intros _; constructor | reflexivity].
  - unfold all_pass. rewrite Forall_cons_iff. fold (all_pass f rules).
    cbn [fst snd]. unfold field_value at 1.
    destruct (element name f) as [i|] eqn:E; cbn [option_map].
    + destruct (first_failure vs (value_of i)) as [msg|] eqn:FF.
      * destruct (validateForm _ rules) as [b f']. cbn [fst].
        split; [discriminate|]. intros [P _].
        specialize (P (value_of i) eq_refl). apply first_failure_none in P.
        congruence.
      * rewrite IH.
        rewrite <- (@all_pass_ext f (clearError name f))
          by (intros n; rewrite !field_value_values, clearError_values;
              reflexivity).
        apply first_failure_none in FF.
        split; [intros A; split; [intros v [= <-]; exact FF | exact A]
               | intros [_ A]; exact A].
    + rewrite IH. split; [intros A; split; [discriminate | exact A]
                         | intros [_ A]; exact A].
Qed.


(** ** Forms laid out in groups *)

Lemma assoc_update_same {A : Type} name (h : A -> A) l :
  assoc name (update name h l) = option_map h (assoc name l).
Proof.
  induction l as [|[n a] l IH]; cbn [assoc update]; [reflexivity|].
  destruct (JsString.eqb name n) eqn:E; cbn [assoc]; rewrite E; auto.
Qed.

Lemma assoc_update_other {A : Type} name n (h : A -> A) l :
  n <> name -> assoc n (update name h l) = assoc n l.
Proof.
  intros NE. induction l as [|[m a] l IH]; cbn [assoc update]; [reflexivity|].
  destruct (JsString.eqb name m) eqn:E; cbn [assoc].
  - apply JsStringFacts.eqb_eq in E. subst m.
    destruct (JsString.eqb n name) eqn:E2; [|reflexivity].
    apply JsStringFacts.eqb_eq in E2. contradiction.
  - rewrite IH. reflexivity.
Qed.

Lemma element_groups name l :
  element name (groups l) = option_map fst (assoc name l).
Proof.
  induction l as [|[n [i e]] l IH]; [reflexivity|].
  cbn [groups map group element element_in assoc fst snd].
  fold (groups l). destruct (JsString.eqb name n); [reflexivity|].
  rewrite IH. destruct e; cbn [element_in]; reflexivity.
Qed.

(** In such a form the parent of a control is its group, and a change
    that makes a group of it changes the field of that name. *)
Lemma at_parent_groups name g (h : field -> field) l :
  (forall n i e, JsString.eqb name n = true ->
     g (Control n i :: match e with Some t => [FormError t] | None => [] end)
     = Control n (fst (h (i, e)))
       :: match snd (h (i, e)) with Some t => [FormError t] | None => [] end) ->
  at_parent name g (groups l) = groups (update name h l).
Proof.
  intros Hg.
  assert (S : scan name g (groups l)
              = match assoc name l with
                | Some _ => Below (groups (update name h l))
                | None => Nowhere
                end
              /\ (assoc name l = None -> update name h l = l)).
  { induction l as [|[n [i e]] l [IH1 IH2]]; [split; reflexivity|].
    cbn [groups map scan update assoc]. fold (groups l).
    change (group (n, (i, e)))
      with (Box (Control n i
                 :: match e with Some t => [FormError t] | None => [] end)).
    rewrite at_parent_in_Box. cbn [scan].
    destruct (JsString.eqb name n) eqn:E.
    - split; [|discriminate]. rewrite (Hg n i e E). reflexivity.
    - assert (N : scan name g
                    match e with Some t => [FormError t] | None => [] end
                  = Nowhere) by (destruct e; reflexivity).
      rewrite N, IH1. destruct (assoc name l).
      + split; [reflexivity | discriminate].
      + split; [reflexivity|]. intros _. rewrite (IH2 eq_refl). reflexivity. }
  destruct S as [S1 S2]. unfold at_parent. rewrite S1.
  destruct (assoc name l); [reflexivity|]. rewrite (S2 eq_refl). reflexivity.
Qed.

Lemma clearError_groups name l :
  clearError name (groups l)
  = groups (update name (fun e : field => (mkInput (value_of (fst e)) false, None)) l).
Proof.
  apply at_parent_groups. intros n i e E. cbn [fst snd set_class].
  rewrite E. destruct e; reflexivity.
Qed.

Lemma showError_groups name msg l :
  showError name msg (groups l)
  = groups (update name
              (fun e : field => (mkInput (value_of (fst e)) true, Some msg)) l).
Proof.
  apply at_parent_groups. intros n i e E. cbn [fst snd set_class].
  rewrite E. destruct e; reflexivity.
Qed.

Lemma validateForm_groups (l : list (jsstring * field))
    (rules : list (jsstring * list validator)) :
  NoDup (map fst rules) ->
  exists l',
    snd (validateForm (groups l) rules) = groups l'
    /\ (forall name vs e,
          In (name, vs) rules -> assoc name l = Some e ->
          assoc name l' = Some (annotated vs e))
    /\ (forall n, ~ In n (map fst rules) -> assoc n l' = assoc n l).
Proof.
  revert l; induction rules as [|[name0 vs0] rules IH]; intros l ND.
  - exists l. split; [reflexivity|]. split; [intros ? ? ? []|reflexivity].
  - cbn [map fst] in ND. apply NoDup_cons_iff in ND as [NI ND].
    cbn [validateForm]. rewrite element_groups.
    destruct (assoc name0 l) as [[i0 e0]|] eqn:E0; cbn [option_map fst].
    + set (clear := fun e : field =>
                      (mkInput (value_of (fst e)) false, @None jsstring)).
      set (l1 := update name0 clear l).
      rewrite clearError_groups. fold clear l1.
      assert (A1 : assoc name0 l1 = Some (clear (i0, e0))).
      { subst l1. rewrite assoc_update_same, E0. reflexivity. }
      assert (O1 : forall n, n <> name0 -> assoc n l1 = assoc n l).
      { intros n NE. subst l1. apply assoc_update_other, NE. }
      destruct (first_failure vs0 (value_of i0)) as [msg|] eqn:FF.
      * set (show := fun e : field => (mkInput (value_of (fst e)) true, Some msg)).
        set (l2 := update name0 show l1).
        rewrite showError_groups. fold show l2.
        destruct (IH l2 ND) as (l' & G & An & Fr).
        exists l'. destruct (validateForm (groups l2) rules) as [b f'].
        cbn [snd] in *. split; [exact G|]. split.
        -- intros name vs e [[= -> ->]|HIn] E.
           ++ rewrite (Fr name NI). subst l2.
              rewrite assoc_update_same, A1. rewrite E in E0.
              injection E0 as ->. unfold annotated. cbn [fst option_map].
              rewrite FF. reflexivity.
           ++ assert (NE : name <> name0).
              { intros ->. apply NI, (in_map fst _ _ HIn). }
              apply (An name vs e HIn). subst l2.
              rewrite assoc_update_other by exact NE.
              rewrite O1 by exact NE. exact E.
        -- intros n NIn. cbn [map fst In] in NIn.
           assert (NE : n <> name0) by (intros ->; apply NIn; left; reflexivity).
           rewrite Fr by (intros H; apply NIn; right; exact H). subst l2.
           rewrite assoc_update_other by exact NE. apply O1, NE.
      * destruct (IH l1 ND) as (l' & G & An & Fr).
        exists l'. split; [exact G|]. split.
        -- intros name vs e [[= -> ->]|HIn] E.
           ++ rewrite (Fr name NI), A1. rewrite E in E0.
              injection E0 as ->. unfold annotated. cbn [fst].
              rewrite FF. reflexivity.
           ++ assert (NE : name <> name0).
              { intros ->. apply NI, (in_map fst _ _ HIn). }
              apply (An name vs e HIn). rewrite O1 by exact NE. exact E.
        -- intros n NIn. cbn [map fst In] in NIn.
           assert (NE : n <> name0) by (intros ->; apply NIn; left; reflexivity).
           rewrite Fr by (intros H; apply NIn; right; exact H). apply O1, NE.
    + destruct (IH l ND) as (l' & G & An & Fr).
      exists l'. split; [exact G|]. split.
      * intros name vs e [[= -> ->]|HIn] E; [congruence|].
        apply (An name vs e HIn E).
      * intros n NIn. apply Fr. intros H. apply NIn. right. exact H.
Qed.



(** Controls under one parent share its [form-error] element: with two
    failing fields in the same element, clearing the second takes off the
    message of the first, and only the last message is left, both
    controls being marked. *)
Example validateForm_shared_parent :
  let rules : list (jsstring * list validator) :=
    [(js "a", [fun v => validateRequired v (Some (js "A"))]);
     (js "b", [fun v => validateRequired v (Some (js "B"))])] in
  let f : form :=
    [Box [Control (js "a") (mkInput [] false);
          Control (js "b") (mkInput [] false)]] in
  validateForm f rules
  = (false,
     [Box [Control (js "a") (mkInput [] true);
           Control (js "b") (mkInput [] true);
           FormError (js "B обязательно")]]).
Proof. vm_compute. reflexivity. Qed.

End FormProps.

(* ================================================================== *)
(** * The chat controller: what every run keeps *)

Module ChatRuns.
Import JsString Chat ChatProps.

Section WithParser.

Context {parser : HtmlParser}.

Lemma shown_messages_app l1 l2 :
  shown_messages (l1 ++ l2) = shown_messages l1 ++ shown_messages l2.
Proof. apply filter_app. Qed.

(** On a plain page only an indicator can be taken off. *)
Lemma shown_messages_remove_by_id id l :
  plain l -> shown_messages (remove_by_id id l) = shown_messages l.
Proof.
  induction l as [|[t ty tm tg|i] l IH];
    cbn [plain remove_by_id shown_messages filter is_message].
  - reflexivity.
  - intros [T P]. rewrite (cut_absent _ _ (T id)).
    cbn [shown_messages filter is_message]. f_equal. exact (IH P).
  - intros P. destruct (i =? id)%N; [reflexivity | exact (IH P)].
Qed.

Lemma writings_app l1 l2 : writings (l1 ++ l2) = writings l1 ++ writings l2.
Proof.
  induction l1 as [|[t ty tm tg|i] l1 IH]; cbn [app writings]; auto.
  rewrite IH. reflexivity.
Qed.

(** What was written stays, whatever is taken off the page. *)
Lemma writings_remove_by_id id l : writings (remove_by_id id l) = writings l.
Proof.
  induction l as [|[t ty tm tg|i] l IH]; cbn [remove_by_id writings]; auto.
  - destruct (cut (typing_id id) tg); cbn [writings]; [reflexivity|].
    rewrite IH. reflexivity.
  - destruct (i =? id)%N; [reflexivity | exact IH].
Qed.

Lemma user_texts_app l1 l2 : user_texts (l1 ++ l2) = user_texts l1 ++ user_texts l2.
Proof.
  induction l1 as [|[t [|] tm tg|i] l1 IH]; cbn [app user_texts]; auto.
  rewrite IH. reflexivity.
Qed.

Lemma user_texts_remove_by_id id l : user_texts (remove_by_id id l) = user_texts l.
Proof.
  induction l as [|[t [|] tm tg|i] l IH]; cbn [remove_by_id user_texts]; auto.
  - destruct (cut (typing_id id) tg); cbn [user_texts]; [reflexivity|].
    rewrite IH. reflexivity.
  - destruct (cut (typing_id id) tg); cbn [user_texts]; [reflexivity|].
    exact IH.
  - destruct (i =? id)%N; [reflexivity | exact IH].
Qed.

Lemma requested_texts_app o1 o2 :
  requested_texts (o1 ++ o2) = requested_texts o1 ++ requested_texts o2.
Proof.
  induction o1 as [|e o1 IH]; cbn [app requested_texts]; [reflexivity|].
  destruct e; cbn [app]; rewrite IH; reflexivity.
Qed.

Lemma extends_refl st : extends st st [].
Proof.
  split; [exists []|]; cbn [requested_texts]; rewrite app_nil_r; reflexivity.
Qed.

Lemma extends_same st st' :
  messages st' = messages st -> extends st st' [].
Proof.
  intros E. split; [exists []|]; rewrite E; cbn [requested_texts];
    rewrite app_nil_r; reflexivity.
Qed.

Lemma extends_trans st1 st2 st3 o1 o2 :
  extends st1 st2 o1 -> extends st2 st3 o2 -> extends st1 st3 (o1 ++ o2).
Proof.
  intros [[a1 M1] U1] [[a2 M2] U2]. split.
  - exists (a1 ++ a2). rewrite M2, M1, app_assoc. reflexivity.
  - rewrite U2, U1, requested_texts_app, app_assoc. reflexivity.
Qed.

(** Effects that are no reply request do not count. *)
Lemma extends_quiet st st' out out' :
  requested_texts out' = requested_texts out ->
  extends st st' out -> extends st st' out'.
Proof. intros E [M U]. split; [exact M | rewrite E; exact U]. Qed.

Lemma handleSendMessage_extends now st :
  extends st (fst (handleSendMessage now st)) (snd (handleSendMessage now st)).
Proof.
  destruct (trim (inputValue st)) as [|c m] eqn:E.
  - rewrite handleSendMessage_empty by exact E. apply extends_refl.
  - rewrite handleSendMessage_send by congruence. rewrite E.
    unfold extends.
    cbn [fst snd messages set_pending set_messages set_inputValue]. split.
    + exists [(c :: m, User, now)].
      rewrite writings_app. reflexivity.
    + rewrite user_texts_app. reflexivity.
Qed.

Lemma on_speech_effect_extends now e st :
  extends st (fst (on_speech_effect now e st)) (snd (on_speech_effect now e st)).
Proof.
  destruct e as [[|] [t| |]| | | | | |]; cbn [on_speech_effect];
    try apply extends_refl;
    try (apply (@extends_quiet _ _ []); [reflexivity | apply extends_same; reflexivity]).
  pose proof (handleSendMessage_extends now (set_mic false (set_inputValue t st))) as H.
  destruct H as [M U]. split; [exact M | exact U].
Qed.

Lemma deliver_extends now tr st :
  extends st (fst (deliver now tr st)) (snd (deliver now tr st)).
Proof.
  revert st; induction tr as [|e tr IH]; intros st; cbn [deliver];
    [apply extends_refl|].
  pose proof (on_speech_effect_extends now e st) as H1.
  destruct (on_speech_effect now e st) as [st1 out1]. cbn [fst snd] in H1.
  specialize (IH st1). destruct (deliver now tr st1) as [st2 out2].
  cbn [fst snd] in *.
  apply (@extends_quiet _ _ (out1 ++ out2)); [reflexivity|].
  apply (extends_trans H1 IH).
Qed.

Lemma with_speech_extends now o st :
  extends st (fst (with_speech now o st)) (snd (with_speech now o st)).
Proof.
  unfold with_speech. destruct (Speech.step o (speech st)) as [sp tr].
  pose proof (deliver_extends now tr (set_speech sp st)) as [M U].
  split; [exact M | exact U].
Qed.

Lemma requested_texts_speech l : requested_texts (map SpeechEffect l) = [].
Proof. induction l; auto. Qed.

Lemma step_extends ev st : extends st (fst (step ev st)) (snd (step ev st)).
Proof.
  destruct ev; cbn [step].
  - apply extends_same. reflexivity.
  - apply handleSendMessage_extends.
  - destruct (JsString.eqb key (js "Enter") && negb shiftKey);
      [apply handleSendMessage_extends | apply extends_refl].
  - destruct (micWired st); [|apply extends_refl]. unfold handleMicClick.
    destruct (Speech.getIsListening (speech st)).
    + pose proof (with_speech_extends now Speech.StopListening st) as H.
      destruct (with_speech now Speech.StopListening st). exact H.
    + pose proof (with_speech_extends now
        (Speech.StartListening (Some MicOnResult) (Some MicOnError)) st) as H.
      destruct (with_speech now _ st). exact H.
  - apply with_speech_extends.
  - destruct (is_platform_event o); [apply with_speech_extends | apply extends_refl].
  - unfold reply_arrives.
    destruct (nth_error (pending st) k) as [[id|a|a]|]; try apply extends_refl.
    set (st2 := addMessage (text r) Assistant now (removeTypingIndicator id st)).
    assert (F : (if Speech.getSpeechEnabled (speech st2)
                 then with_speech now (Speech.Speak (text r) None) st2
                 else (st2, [])) = spoken (text r) st2).
    { unfold spoken. rewrite with_speech_speak. reflexivity. }
    rewrite F. destruct (spoken_frame (text r) st2) as [Fm _].
    assert (Q : exists l, snd (spoken (text r) st2) = map SpeechEffect l).
    { unfold spoken. destruct (Speech.getSpeechEnabled (speech st2));
        [eexists; reflexivity | exists []; reflexivity]. }
    destruct Q as [l Q].
    destruct (spoken (text r) st2) as [st3 out]. cbn [fst snd] in Fm, Q. subst out.
    assert (X : extends st st3 []).
    { split.
      - exists [(text r, Assistant, now)]. rewrite Fm. subst st2.
        cbn [addMessage removeTypingIndicator set_messages messages].
        rewrite writings_app, writings_remove_by_id. reflexivity.
      - rewrite Fm. subst st2.
        cbn [addMessage removeTypingIndicator set_messages messages requested_texts].
        rewrite user_texts_app, user_texts_remove_by_id. reflexivity. }
    destruct (suggested_action r); unfold handleSuggestedAction; cbn [fst snd];
      (eapply extends_quiet; [|destruct X as [M U]; split; [exact M | exact U]]);
      rewrite ?requested_texts_app, requested_texts_speech; reflexivity.
  - unfold reply_fails.
    destruct (nth_error (pending st) k) as [[id|a|a]|]; try apply extends_refl.
    unfold extends. cbn -[apology innerHTML]. split.
    + exists [(apology, Assistant, now)].
      rewrite writings_app, writings_remove_by_id. reflexivity.
    + rewrite user_texts_app, user_texts_remove_by_id. reflexivity.
  - unfold modal_closes.
    destruct (nth_error (pending st) k) as [[id|a|a]|]; try apply extends_refl.
    unfold extends. destruct confirmed; cbn; split; try (exists []); cbn [requested_texts];
      rewrite app_nil_r; reflexivity.
  - unfold execution_returns.
    destruct (nth_error (pending st) k) as [[id|a|a]|]; try apply extends_refl.
    unfold extends. destruct success; cbn -[js innerHTML]; (split;
      [eexists; rewrite writings_app; reflexivity
      | rewrite user_texts_app; cbn -[js innerHTML];
        destruct (includes (pathname st) (js "dashboard.html")); reflexivity
        || reflexivity]).
  - unfold execution_fails.
    destruct (nth_error (pending st) k) as [[id|a|a]|]; try apply extends_refl.
    unfold extends. cbn -[js innerHTML]. split;
      [eexists; rewrite writings_app; reflexivity
      | rewrite user_texts_app; reflexivity].
Qed.

Lemma run_extends evs st : extends st (fst (run evs st)) (snd (run evs st)).
Proof.
  revert st; induction evs as [|ev evs IH]; intros st; cbn [run];
    [apply extends_refl|].
  pose proof (step_extends ev st) as H1.
  destruct (step ev st) as [st1 out1]. specialize (IH st1).
  destruct (run evs st1) as [st2 out2]. cbn [fst snd] in *.
  apply (extends_trans H1 IH).
Qed.

(** A send only appends to the page. *)
Lemma handleSendMessage_appends now st :
  exists added, messages (fst (handleSendMessage now st)) = messages st ++ added.
Proof.
  destruct (trim (inputValue st)) as [|c m] eqn:E.
  - rewrite handleSendMessage_empty by exact E. exists []. cbn [fst].
    rewrite app_nil_r. reflexivity.
  - rewrite handleSendMessage_send by congruence. eexists. reflexivity.
Qed.

Lemma deliver_appends now tr st :
  exists added, messages (fst (deliver now tr st)) = messages st ++ added.
Proof.
  revert st; induction tr as [|e tr IH]; intros st; cbn [deliver].
  - exists []. cbn [fst]. rewrite app_nil_r. reflexivity.
  - assert (H1 : exists added,
        messages (fst (on_speech_effect now e st)) = messages st ++ added).
    { destruct e as [[|] [t| |]| | | | | |]; cbn [on_speech_effect];
        try (exists []; cbn [fst]; rewrite app_nil_r; reflexivity).
      apply (handleSendMessage_appends now (set_mic false (set_inputValue t st))). }
    destruct (on_speech_effect now e st) as [st1 out1]. cbn [fst] in H1.
    destruct H1 as [a1 H1]. destruct (IH st1) as [a2 H2].
    destruct (deliver now tr st1) as [st2 out2]. cbn [fst] in *.
    exists (a1 ++ a2). rewrite H2, H1, app_assoc. reflexivity.
Qed.

Lemma with_speech_appends now o st :
  exists added, messages (fst (with_speech now o st)) = messages st ++ added.
Proof.
  unfold with_speech. destruct (Speech.step o (speech st)) as [sp tr].
  apply (deliver_appends now tr (set_speech sp st)).
Qed.

(** What a step does to the children of the container: it appends, after
    taking at most one element off by its id. *)
Lemma step_shape ev st :
  exists added,
    messages (fst (step ev st)) = messages st ++ added
    \/ exists id,
         messages (fst (step ev st)) = remove_by_id id (messages st) ++ added.
Proof.
  assert (Same : forall s : state, messages s = messages st ->
            exists added, messages s = messages st ++ added
              \/ exists id, messages s = remove_by_id id (messages st) ++ added).
  { intros s E. exists []. left. rewrite app_nil_r. exact E. }
  assert (App : forall s : state,
            (exists added, messages s = messages st ++ added) ->
            exists added, messages s = messages st ++ added
              \/ exists id, messages s = remove_by_id id (messages st) ++ added).
  { intros s [added E]. exists added. left. exact E. }
  destruct ev; cbn [step].
  - apply Same. reflexivity.
  - apply App, handleSendMessage_appends.
  - destruct (JsString.eqb key (js "Enter") && negb shiftKey);
      [apply App, handleSendMessage_appends | apply Same; reflexivity].
  - destruct (micWired st); [|apply Same; reflexivity]. unfold handleMicClick.
    apply App. destruct (Speech.getIsListening (speech st)).
    + pose proof (with_speech_appends now Speech.StopListening st) as H.
      destruct (with_speech now Speech.StopListening st). exact H.
    + pose proof (with_speech_appends now
        (Speech.StartListening (Some MicOnResult) (Some MicOnError)) st) as H.
      destruct (with_speech now _ st). exact H.
  - apply App, with_speech_appends.
  - destruct (is_platform_event o);
      [apply App, with_speech_appends | apply Same; reflexivity].
  - destruct (nth_error (pending st) k) as [[id|a|a]|] eqn:E;
      try (apply Same; unfold reply_arrives; rewrite E; reflexivity).
    destruct (@reply_arrives_frame _ k r now st id E) as [M _].
    eexists. right. exists id. exact M.
  - destruct (nth_error (pending st) k) as [[id|a|a]|] eqn:E;
      try (apply Same; unfold reply_fails; rewrite E; reflexivity).
    destruct (@reply_fails_frame _ k now st id E) as [M _].
    eexists. right. exists id. exact M.
  - apply Same. unfold modal_closes.
    destruct (nth_error (pending st) k) as [[id|a|a]|]; try reflexivity.
    destruct confirmed; reflexivity.
  - unfold execution_returns.
    destruct (nth_error (pending st) k) as [[id|a|a]|];
      try (apply Same; reflexivity).
    apply App. destruct success; eexists; reflexivity.
  - unfold execution_fails.
    destruct (nth_error (pending st) k) as [[id|a|a]|];
      try (apply Same; reflexivity).
    apply App. eexists. reflexivity.
Qed.

Lemma run_shown evs st :
  plainly evs st ->
  exists added,
    shown_messages (messages (fst (run evs st)))
    = shown_messages (messages st) ++ added.
Proof.
  revert st; induction evs as [|ev evs IH]; intros st [PL R]; cbn [run].
  - exists []. cbn [fst]. rewrite app_nil_r. reflexivity.
  - destruct (step_shape ev st) as [a1 S].
    destruct (step ev st) as [st1 out1]. cbn [fst] in *.
    destruct (IH st1 R) as [a2 H2].
    destruct (run evs st1) as [st2 out2]. cbn [fst] in *.
    exists (shown_messages a1 ++ a2). rewrite H2, app_assoc. f_equal.
    destruct S as [S|[id S]]; rewrite S, shown_messages_app;
      [|rewrite (shown_messages_remove_by_id id _ PL)]; reflexivity.
Qed.



Lemma executions_app o1 o2 : executions (o1 ++ o2) = (executions o1 + executions o2)%nat.
Proof. unfold executions. rewrite filter_app, length_app. reflexivity. Qed.

Lemma dialogs_app o1 o2 : dialogs (o1 ++ o2) = (dialogs o1 + dialogs o2)%nat.
Proof. unfold dialogs. rewrite filter_app, length_app. reflexivity. Qed.

Lemma awaiting_choice_app p1 p2 :
  awaiting_choice (p1 ++ p2) = awaiting_choice p1 ++ awaiting_choice p2.
Proof.
  induction p1 as [|[i|a|a] p1 IH]; cbn [app awaiting_choice]; auto.
  rewrite IH. reflexivity.
Qed.

Lemma awaiting_choice_split (p : list activation) k a :
  nth_error p k = Some a ->
  List.length (awaiting_choice p)
  = (List.length (awaiting_choice (firstn k p))
     + List.length (awaiting_choice [a])
     + List.length (awaiting_choice (skipn (S k) p)))%nat.
Proof.
  intros H. rewrite (nth_error_firstn_skipn _ _ H) at 1.
  change (a :: skipn (S k) p) with ([a] ++ skipn (S k) p).
  rewrite !awaiting_choice_app, !length_app. lia.
Qed.

Lemma awaiting_choice_put (p : list activation) k b :
  List.length (awaiting_choice (replace_nth k b p))
  = (List.length (awaiting_choice (firstn k p))
     + List.length (awaiting_choice [b])
     + List.length (awaiting_choice (skipn (S k) p)))%nat.
Proof.
  unfold replace_nth. change (b :: skipn (S k) p) with ([b] ++ skipn (S k) p).
  rewrite !awaiting_choice_app, !length_app. lia.
Qed.

Lemma awaiting_choice_drop (p : list activation) k :
  List.length (awaiting_choice (remove_nth k p))
  = (List.length (awaiting_choice (firstn k p))
     + List.length (awaiting_choice (skipn (S k) p)))%nat.
Proof. unfold remove_nth. rewrite awaiting_choice_app, length_app. reflexivity. Qed.

Lemma answered_same st st' :
  pending st' = pending st -> answered st st' [].
Proof. intros E. unfold answered. rewrite E. cbn. lia. Qed.

Lemma answered_trans st1 st2 st3 o1 o2 :
  answered st1 st2 o1 -> answered st2 st3 o2 -> answered st1 st3 (o1 ++ o2).
Proof. unfold answered. rewrite executions_app, dialogs_app. lia. Qed.

Lemma answered_quiet st st' out out' :
  executions out' = executions out -> dialogs out' = dialogs out ->
  answered st st' out -> answered st st' out'.
Proof. unfold answered. intros -> ->. auto. Qed.

Lemma handleSendMessage_answered now st :
  answered st (fst (handleSendMessage now st)) (snd (handleSendMessage now st)).
Proof.
  destruct (trim (inputValue st)) as [|c m] eqn:E.
  - rewrite handleSendMessage_empty by exact E. apply answered_same. reflexivity.
  - rewrite handleSendMessage_send by congruence. unfold answered.
    cbn [fst snd pending set_pending]. rewrite awaiting_choice_app, length_app.
    cbn. lia.
Qed.

Lemma on_speech_effect_answered now e st :
  answered st (fst (on_speech_effect now e st)) (snd (on_speech_effect now e st)).
Proof.
  destruct e as [[|] [t| |]| | | | | |]; cbn [on_speech_effect];
    try (apply answered_same; reflexivity);
    try (apply (@answered_quiet _ _ []); [reflexivity | reflexivity
                                          | apply answered_same; reflexivity]).
  exact (handleSendMessage_answered now (set_mic false (set_inputValue t st))).
Qed.

Lemma deliver_answered now tr st :
  answered st (fst (deliver now tr st)) (snd (deliver now tr st)).
Proof.
  revert st; induction tr as [|e tr IH]; intros st; cbn [deliver];
    [apply answered_same; reflexivity|].
  pose proof (on_speech_effect_answered now e st) as H1.
  destruct (on_speech_effect now e st) as [st1 out1]. cbn [fst snd] in H1.
  specialize (IH st1). destruct (deliver now tr st1) as [st2 out2].
  cbn [fst snd] in *.
  apply (@answered_quiet _ _ (out1 ++ out2)); [reflexivity | reflexivity|].
  apply (answered_trans H1 IH).
Qed.

Lemma with_speech_answered now o st :
  answered st (fst (with_speech now o st)) (snd (with_speech now o st)).
Proof.
  unfold with_speech. destruct (Speech.step o (speech st)) as [sp tr].
  exact (deliver_answered now tr (set_speech sp st)).
Qed.

Lemma executions_speech l : executions (map SpeechEffect l) = 0%nat.
Proof. induction l; auto. Qed.

Lemma dialogs_speech l : dialogs (map SpeechEffect l) = 0%nat.
Proof. induction l; auto. Qed.

Lemma step_answered ev st : answered st (fst (step ev st)) (snd (step ev st)).
Proof.
  destruct ev; cbn [step].
  - apply answered_same. reflexivity.
  - apply handleSendMessage_answered.
  - destruct (JsString.eqb key (js "Enter") && negb shiftKey);
      [apply handleSendMessage_answered | apply answered_same; reflexivity].
  - destruct (micWired st); [|apply answered_same; reflexivity].
    unfold handleMicClick. destruct (Speech.getIsListening (speech st)).
    + pose proof (with_speech_answered now Speech.StopListening st) as H.
      destruct (with_speech now Speech.StopListening st). exact H.
    + pose proof (with_speech_answered now
        (Speech.StartListening (Some MicOnResult) (Some MicOnError)) st) as H.
      destruct (with_speech now _ st). exact H.
  - apply with_speech_answered.
  - destruct (is_platform_event o);
      [apply with_speech_answered | apply answered_same; reflexivity].
  - unfold reply_arrives.
    destruct (nth_error (pending st) k) as [[id|a|a]|] eqn:E;
      try (apply answered_same; reflexivity).
    set (st2 := addMessage (text r) Assistant now (removeTypingIndicator id st)).
    assert (F : (if Speech.getSpeechEnabled (speech st2)
                 then with_speech now (Speech.Speak (text r) None) st2
                 else (st2, [])) = spoken (text r) st2).
    { unfold spoken. rewrite with_speech_speak. reflexivity. }
    rewrite F. destruct (spoken_frame (text r) st2) as [_ Fp].
    assert (Q : exists l, snd (spoken (text r) st2) = map SpeechEffect l).
    { unfold spoken. destruct (Speech.getSpeechEnabled (speech st2));
        [eexists; reflexivity | exists []; reflexivity]. }
    destruct Q as [l Q].
    destruct (spoken (text r) st2) as [st3 out]. cbn [fst snd] in Fp, Q. subst out.
    assert (P3 : pending st3 = pending st) by (rewrite Fp; reflexivity).
    pose proof (@awaiting_choice_split _ k _ E) as S.
    unfold answered.
    destruct (suggested_action r); unfold handleSuggestedAction;
      cbn [fst snd pending set_pending];
      rewrite ?executions_app, ?dialogs_app, executions_speech, dialogs_speech,
        P3, ?awaiting_choice_put, ?awaiting_choice_drop, S; cbn; lia.
  - unfold reply_fails.
    destruct (nth_error (pending st) k) as [[id|a|a]|] eqn:E;
      try (apply answered_same; reflexivity).
    pose proof (@awaiting_choice_split _ k _ E) as S. unfold answered.
    cbn -[apology]. rewrite awaiting_choice_drop, S. cbn. lia.
  - unfold modal_closes.
    destruct (nth_error (pending st) k) as [[id|a|a]|] eqn:E;
      try (apply answered_same; reflexivity).
    pose proof (@awaiting_choice_split _ k _ E) as S. unfold answered.
    destruct confirmed; cbn [fst snd pending set_pending];
      rewrite ?awaiting_choice_put, ?awaiting_choice_drop, S; cbn; lia.
  - unfold execution_returns.
    destruct (nth_error (pending st) k) as [[id|a|a]|] eqn:E;
      try (apply answered_same; reflexivity).
    pose proof (@awaiting_choice_split _ k _ E) as S. unfold answered.
    destruct success; cbn -[js]; rewrite awaiting_choice_drop, S;
      try destruct (includes (pathname st) (js "dashboard.html")); cbn; lia.
  - unfold execution_fails.
    destruct (nth_error (pending st) k) as [[id|a|a]|] eqn:E;
      try (apply answered_same; reflexivity).
    pose proof (@awaiting_choice_split _ k _ E) as S. unfold answered.
    cbn -[js]. rewrite awaiting_choice_drop, S. cbn. lia.
Qed.

Lemma run_answered evs st : answered st (fst (run evs st)) (snd (run evs st)).
Proof.
  revert st; induction evs as [|ev evs IH]; intros st; cbn [run];
    [apply answered_same; reflexivity|].
  pose proof (step_answered ev st) as H1.
  destruct (step ev st) as [st1 out1]. specialize (IH st1).
  destruct (run evs st1) as [st2 out2]. cbn [fst snd] in *.
  apply (answered_trans H1 IH).
Qed.

(** X7. A suggested action is executed at most once per dialog: over any
    run, the execution requests made, together with the dialogs still
    awaiting a choice, number at most the dialogs that were awaiting a
    choice at the start plus those put up since. On a page as initialised
    the execute endpoint has therefore never been called more often than
    confirmation dialogs have been shown. *)
Theorem executions_answer_dialogs (evs : list event) (st : state) :
  (executions (snd (run evs st))
   + List.length (awaiting_choice (pending (fst (run evs st))))
   <= List.length (awaiting_choice (pending st)) + dialogs (snd (run evs st)))%nat
  /\ forall name userId path sup syn now,
       (executions (snd (run evs (init name userId path sup syn now)))
        <= dialogs (snd (run evs (init name userId path sup syn now))))%nat.
Proof.
  split; [exact (run_answered evs st)|].
  intros name userId path sup syn now.
  pose proof (run_answered evs (init name userId path sup syn now)) as H.
  unfold answered in H. cbn [init displayWelcomeMessage addMessage set_messages
    pending awaiting_choice List.length] in H. lia.
Qed.

Lemma run_snoc evs ev st :
  run (evs ++ [ev]) st =
  (fst (step ev (fst (run evs st))),
   snd (run evs st) ++ snd (step ev (fst (run evs st)))).
Proof.
  revert st; induction evs as [|e evs IH]; intros st; cbn [app run fst snd].
  - destruct (step ev st) as [s o]. cbn. rewrite app_nil_r. reflexivity.
  - destruct (step e st) as [s1 o1]. rewrite IH.
    destruct (run evs s1) as [s2 o2]. cbn [fst snd]. rewrite app_assoc.
    reflexivity.
Qed.

Lemma spoken_effects t st : exists l, snd (spoken t st) = map SpeechEffect l.
Proof.
  unfold spoken. destruct (Speech.getSpeechEnabled (speech st));
    [eexists; reflexivity | exists []; reflexivity].
Qed.


Ltac session_leaf :=
  unfold mic_session; cbn;
  split;
  [ try discriminate; try congruence; auto
  | let r' := fresh "r" in
    let Hr := fresh "Hr" in
    intros r' Hr; try discriminate Hr; try (injection Hr as <-); cbn;
    intuition (try discriminate; try congruence) ].

Lemma mic_session_step o sp :
  page_op o -> mic_session sp -> mic_session (fst (Speech.step o sp)).
Proof.
  intros PO [I1 I2].
  destruct sp as [sup rec syn lis en].
  cbn [Speech.isListening Speech.recognition] in *.
  destruct rec as [r|].
  - destruct (I2 r eq_refl) as [J1 J2]. clear I2.
    destruct o; cbn [page_op] in PO; try contradiction;
      try (match type of PO with _ /\ _ => destruct PO as [-> ->] end);
      cbn [Speech.step];
      unfold Speech.startListening, Speech.listen, Speech.stopListening,
        Speech.speak, Speech.stopSpeaking, Speech.setSpeechEnabled,
        Speech.fire_result, Speech.fire_error, Speech.fire_end,
        Speech.fire_utterance_end; cbn.
    + destruct lis; [session_leaf|]. destruct (Speech.started r) eqn:S; session_leaf.
    + destruct lis; session_leaf.
    + destruct en; cbn; [|session_leaf]. destruct syn; session_leaf.
    + destruct syn; session_leaf.
    + destruct enabled; cbn; [session_leaf|]. destruct syn; session_leaf.
    + destruct (Speech.started r) eqn:S; destruct (Speech.onresult r) eqn:OR;
        session_leaf.
    + destruct (Speech.started r) eqn:S; destruct (Speech.onerror r) eqn:OE;
        session_leaf.
    + destruct (Speech.started r) eqn:S; [|session_leaf].
      destruct (J2 eq_refl) as (_ & _ & ->). session_leaf.
    + destruct syn as [[|u q]|]; session_leaf.
  - assert (L : lis = false)
      by (destruct lis; [exfalso; apply I1; reflexivity | reflexivity]).
    subst lis. clear I1 I2.
    destruct o; cbn [page_op] in PO; try contradiction;
      try (match type of PO with _ /\ _ => destruct PO as [-> ->] end);
      cbn [Speech.step];
      unfold Speech.startListening, Speech.listen, Speech.init,
        Speech.stopListening, Speech.speak, Speech.stopSpeaking,
        Speech.setSpeechEnabled, Speech.fire_result, Speech.fire_error,
        Speech.fire_end, Speech.fire_utterance_end; cbn.
    + destruct sup; cbn; session_leaf.
    + session_leaf.
    + destruct en; cbn; [|session_leaf]. destruct syn; session_leaf.
    + destruct syn; session_leaf.
    + destruct enabled; cbn; [session_leaf|]. destruct syn; session_leaf.
    + session_leaf.
    + session_leaf.
    + session_leaf.
    + destruct syn as [[|u q]|]; session_leaf.
Qed.

Lemma handleSendMessage_speech now st :
  speech (fst (handleSendMessage now st)) = speech st
  /\ micWired (fst (handleSendMessage now st)) = micWired st.
Proof.
  unfold handleSendMessage. destruct (negb (truthy (trim (inputValue st))));
    split; reflexivity.
Qed.

Lemma deliver_speech now tr st :
  speech (fst (deliver now tr st)) = speech st
  /\ micWired (fst (deliver now tr st)) = micWired st.
Proof.
  revert st; induction tr as [|e tr IH]; intros st; cbn [deliver];
    [split; reflexivity|].
  assert (H1 : speech (fst (on_speech_effect now e st)) = speech st
               /\ micWired (fst (on_speech_effect now e st)) = micWired st).
  { destruct e as [[|] [t| |]| | | | | |]; cbn [on_speech_effect];
      try (split; reflexivity).
    apply (handleSendMessage_speech now (set_mic false (set_inputValue t st))). }
  destruct (on_speech_effect now e st) as [st1 out1]. cbn [fst] in H1.
  specialize (IH st1). destruct (deliver now tr st1) as [st2 out2].
  cbn [fst] in *. destruct H1 as [<- <-]. exact IH.
Qed.

Lemma with_speech_speech now o st :
  speech (fst (with_speech now o st)) = fst (Speech.step o (speech st))
  /\ micWired (fst (with_speech now o st)) = micWired st.
Proof.
  unfold with_speech. destruct (Speech.step o (speech st)) as [sp tr].
  cbn [fst]. apply (deliver_speech now tr (set_speech sp st)).
Qed.

Lemma mic_ready_with_speech now o st :
  page_op o -> mic_ready st -> mic_ready (fst (with_speech now o st)).
Proof.
  intros PO [M W]. destruct (with_speech_speech now o st) as [E1 E2].
  unfold mic_ready. rewrite E1, E2. split; [apply mic_session_step; assumption|].
  intros H. specialize (W H).
  destruct (speech st) as [sup rec syn lis en]. cbn in W.
  destruct rec as [r|]; [|congruence].
  destruct o; cbn [page_op] in PO; try contradiction; cbn [Speech.step].
  - unfold Speech.startListening, Speech.listen. cbn.
    destruct lis; cbn; [discriminate|]. destruct (Speech.started r); cbn; discriminate.
  - unfold Speech.stopListening. cbn. destruct lis; cbn; discriminate.
  - unfold Speech.speak. cbn. destruct en; cbn; [|discriminate].
    destruct syn; cbn; discriminate.
  - unfold Speech.stopSpeaking. cbn. destruct syn; cbn; discriminate.
  - unfold Speech.setSpeechEnabled, Speech.stopSpeaking. cbn.
    destruct enabled; cbn; [discriminate|]. destruct syn; cbn; discriminate.
  - unfold Speech.fire_result. cbn.
    destruct (Speech.started r), (Speech.onresult r); cbn; discriminate.
  - unfold Speech.fire_error. cbn.
    destruct (Speech.started r), (Speech.onerror r); cbn; discriminate.
  - unfold Speech.fire_end. cbn.
    destruct (Speech.started r); cbn; [|discriminate].
    destruct (Speech.onend r); cbn; discriminate.
  - unfold Speech.fire_utterance_end. cbn.
    destruct syn as [[|u q]|]; cbn; discriminate.
Qed.

Lemma mic_ready_ext st st' :
  speech st' = speech st -> micWired st' = micWired st ->
  mic_ready st -> mic_ready st'.
Proof. unfold mic_ready. intros -> ->. auto. Qed.

Lemma step_mic_ready ev st : mic_ready st -> mic_ready (fst (step ev st)).
Proof.
  intros M. destruct ev; cbn [step].
  - exact M.
  - destruct (handleSendMessage_speech now st) as [E1 E2].
    apply (@mic_ready_ext st _ E1 E2 M).
  - destruct (JsString.eqb key (js "Enter") && negb shiftKey); [|exact M].
    destruct (handleSendMessage_speech now st) as [E1 E2].
    apply (@mic_ready_ext st _ E1 E2 M).
  - destruct (micWired st); [|exact M]. unfold handleMicClick.
    destruct (Speech.getIsListening (speech st)).
    + pose proof (@mic_ready_with_speech now Speech.StopListening st I M) as H.
      destruct (with_speech now Speech.StopListening st). exact H.
    + pose proof (@mic_ready_with_speech now
        (Speech.StartListening (Some MicOnResult) (Some MicOnError)) st
        (conj eq_refl eq_refl) M) as H.
      destruct (with_speech now _ st). exact H.
  - apply mic_ready_with_speech; [exact I | exact M].
  - destruct (is_platform_event o) eqn:P; [|exact M].
    apply mic_ready_with_speech; [|exact M].
    destruct o; try discriminate P; exact I.
  - unfold reply_arrives.
    destruct (nth_error (pending st) k) as [[id|a|a]|]; try exact M.
    set (st2 := addMessage (text r) Assistant now (removeTypingIndicator id st)).
    assert (M2 : mic_ready st2) by exact M.
    assert (M3 : mic_ready (fst (if Speech.getSpeechEnabled (speech st2)
                 then with_speech now (Speech.Speak (text r) None) st2
                 else (st2, [])))).
    { destruct (Speech.getSpeechEnabled (speech st2)); [|exact M2].
      apply mic_ready_with_speech; [exact I | exact M2]. }
    destruct (if Speech.getSpeechEnabled (speech st2) then _ else _) as [st3 out].
    destruct (suggested_action r); exact M3.
  - unfold reply_fails.
    destruct (nth_error (pending st) k) as [[id|a|a]|]; exact M.
  - unfold modal_closes.
    destruct (nth_error (pending st) k) as [[id|a|a]|]; try exact M.
    destruct confirmed; exact M.
  - unfold execution_returns.
    destruct (nth_error (pending st) k) as [[id|a|a]|]; try exact M.
    destruct success; exact M.
  - unfold execution_fails.
    destruct (nth_error (pending st) k) as [[id|a|a]|]; exact M.
Qed.

Lemma reachable_mic_ready st : reachable st -> mic_ready st.
Proof.
  intros (name & userId & path & sup & syn & now & evs & ->).
  assert (M0 : mic_ready (init name userId path sup syn now)).
  { unfold mic_ready, mic_session. destruct sup; cbn -[js];
      (split; [split; [discriminate | intros r [= <-]; cbn; split; discriminate]
              | try discriminate]). }
  generalize dependent (init name userId path sup syn now). clear.
  induction evs as [|ev evs IH]; intros st M; cbn [run]; [exact M|].
  pose proof (@step_mic_ready ev st M) as M1.
  destruct (step ev st) as [st1 out1]. specialize (IH st1 M1).
  destruct (run evs st1). exact IH.
Qed.

(** X9. While the adapter is listening on the chat page, a recognised
    transcript is put in the input field, the listening marks are taken
    off the mic button, and the text is submitted just as a click on the
    send button would submit it. *)
Theorem transcript_is_submitted (st : state) (t : jsstring) (now : N) :
  reachable st -> Speech.isListening (speech st) = true ->
  step (Platform (Speech.FireResult t) now) st
  = (fst (step (ClickSend now) (set_mic false (set_inputValue t st))),
     SpeechEffect (Speech.Invoke MicOnResult (Speech.Str t))
     :: snd (step (ClickSend now) (set_mic false (set_inputValue t st)))).
Proof.
  intros R L. destruct (reachable_mic_ready R) as [[I1 I2] _].
  cbn [step is_platform_event]. unfold with_speech. cbn [Speech.step].
  unfold Speech.fire_result.
  destruct (Speech.recognition (speech st)) as [r|] eqn:E;
    [|exfalso; apply (I1 L); reflexivity].
  destruct (I2 r eq_refl) as [J1 J2]. rewrite (J1 L).
  destruct (J2 (J1 L)) as (-> & _ & _).
  cbn [Speech.invoke deliver on_speech_effect].
  assert (S : set_speech (speech st) st = st) by (destruct st; reflexivity).
  rewrite S.
  destruct (handleSendMessage now (set_mic false (set_inputValue t st))) as [s o].
  cbn [fst snd]. rewrite app_nil_r. reflexivity.
Qed.

(** X10. A click on a wired mic button always flips the button's
    listening marks to the opposite of what the adapter was doing: a
    listening adapter is stopped and the marks go off; otherwise the
    marks go on, while the adapter comes to listen only if no earlier
    session is still open on the platform (a start during an open
    session fails, and the marks stay on). *)
Theorem mic_click_toggles (st : state) (now : N) :
  reachable st -> micWired st = true ->
  let st' := fst (step (ClickMic now) st) in
  micListening st' = negb (Speech.isListening (speech st))
  /\ micActive st' = negb (Speech.isListening (speech st))
  /\ Speech.isListening (speech st')
     = negb (Speech.isListening (speech st)) && negb (session_open (speech st)).
Proof.
  intros R W. destruct (reachable_mic_ready R) as [[I1 I2] WR].
  specialize (WR W). cbv zeta. cbn [step]. rewrite W. unfold handleMicClick.
  unfold Speech.getIsListening, session_open.
  destruct (Speech.recognition (speech st)) as [r|] eqn:E; [|congruence].
  destruct (I2 r eq_refl) as [J1 J2].
  destruct (Speech.isListening (speech st)) eqn:L.
  - destruct (with_speech_speech now Speech.StopListening st) as [E1 _].
    destruct (with_speech now Speech.StopListening st) as [st1 out].
    cbn [fst] in *. cbn [micListening micActive set_mic speech]. rewrite E1.
    cbn [Speech.step]. unfold Speech.stopListening. rewrite E, L.
    repeat split.
  - destruct (with_speech_speech now
      (Speech.StartListening (Some MicOnResult) (Some MicOnError)) st) as [E1 _].
    destruct (with_speech now _ st) as [st1 out].
    cbn [fst] in *. cbn [micListening micActive set_mic speech]. rewrite E1.
    cbn [Speech.step]. unfold Speech.startListening, Speech.listen.
    rewrite E, L. destruct (Speech.started r); repeat split.
Qed.

End WithParser.

(** ** The theorems at work, with the parser of the examples *)

#[local] Existing Instance example_parser.


Lemma transcript_is_submitted_witness :
  let st := fst (run [ClickMic 1]
                   (init None Api.JNull (js "/index.html") true None 0)) in
  reachable st /\ Speech.isListening (speech st) = true
  /\ user_texts (messages (fst (step (Platform (Speech.FireResult (js "balance")) 2) st)))
     = [js "balance"]
  /\ requested_texts (snd (step (Platform (Speech.FireResult (js "balance")) 2) st))
     = [js "balance"].
Proof.
  cbv zeta.
  set (st := fst (run [ClickMic 1]
                    (init None Api.JNull (js "/index.html") true None 0))).
  assert (R : reachable st).
  { exists None, Api.JNull, (js "/index.html"), true, None, 0%N, [ClickMic 1].
    reflexivity. }
  split; [exact R|]. split; [reflexivity|].
  rewrite (@transcript_is_submitted _ st (js "balance") 2 R eq_refl).
  split; reflexivity.
Defined.

Lemma mic_click_toggles_witness :
  let st := fst (run [ClickMic 1; ClickMic 2]
                   (init None Api.JNull (js "/index.html") true None 0)) in
  reachable st /\ micWired st = true
  /\ Speech.isListening (speech st) = false /\ session_open (speech st) = true
  /\ micListening (fst (step (ClickMic 3) st)) = true
  /\ Speech.isListening (speech (fst (step (ClickMic 3) st))) = false.
Proof.
  cbv zeta.
  set (st := fst (run [ClickMic 1; ClickMic 2]
                    (init None Api.JNull (js "/index.html") true None 0))).
  assert (R : reachable st).
  { exists None, Api.JNull, (js "/index.html"), true, None, 0%N,
      [ClickMic 1; ClickMic 2]. reflexivity. }
  pose proof (@mic_click_toggles _ st 3 R eq_refl) as H. cbv zeta in H.
  destruct H as (H1 & _ & H3).
  split; [exact R|]. split; [reflexivity|]. split; [reflexivity|].
  split; [reflexivity|]. split; [rewrite H1; reflexivity | rewrite H3; reflexivity].
Defined.

End ChatRuns.

(* ================================================================== *)
(** * The voice adapter: what every run keeps *)

Module SpeechRuns.
Import JsString Speech SpeechProps.

Section WithCallbacks.
Variable callback : Type.
Local Abbreviation state := (Speech.state callback).
Local Abbreviation op := (Speech.op callback).

Lemma unsupported_step (o : op) (st : state) :
  unsupported st ->
  unsupported (fst (step o st))
  /\ existsb (@is_start callback) (snd (step o st)) = false.
Proof.
  intros (S & R & L). destruct st as [sup rec syn lis en]. cbn in S, R, L.
  subst sup rec lis. unfold unsupported.
  destruct o; cbn -[js].
  - auto.
  - destruct onError; cbn; auto.
  - auto.
  - unfold speak; cbn -[js]. destruct en; cbn -[js]; auto.
    destruct syn; cbn; auto.
  - unfold stopSpeaking; cbn. destruct syn; cbn; auto.
  - unfold setSpeechEnabled, stopSpeaking; cbn.
    destruct enabled; cbn; auto. destruct syn; cbn; auto.
  - auto.
  - auto.
  - auto.
  - unfold fire_utterance_end; cbn. destruct syn as [[|u q]|]; cbn; auto.
    destruct (u_onend u); cbn; auto.
Qed.

Lemma unsupported_run (ops : list op) (st : state) :
  unsupported st ->
  unsupported (fst (run ops st))
  /\ existsb (@is_start callback) (snd (run ops st)) = false.
Proof.
  revert st; induction ops as [|o ops IH]; intros st U; cbn [run];
    [split; [exact U | reflexivity]|].
  destruct (@unsupported_step o st U) as [U1 N1].
  destruct (step o st) as [st1 tr1]. cbn [fst snd] in *.
  destruct (IH st1 U1) as [U2 N2].
  destruct (run ops st1) as [st2 tr2]. cbn [fst snd] in *.
  split; [exact U2|]. rewrite existsb_app, N1, N2. reflexivity.
Qed.

(** X11. On a platform without speech recognition the adapter never
    listens: whatever is called and whatever the platform does, the
    listening flag stays down, no recognizer is made and no session is
    started; and every [startListening] reports through [onError], if
    one is given, that recognition is not supported, changing nothing. *)
Theorem unsupported_never_listens (syn : option (list (utterance callback)))
    (ops : list op) :
  let st := fst (run ops (loaded false syn)) in
  isListening st = false
  /\ recognition st = None
  /\ existsb (@is_start callback) (snd (run ops (loaded false syn))) = false
  /\ forall onResult onError,
       startListening onResult onError st
       = (st, ConsoleWarn
              :: invoke onError (Str (js "Speech recognition not supported"))).
Proof.
  cbv zeta.
  assert (U0 : unsupported (loaded (callback := callback) false syn))
    by (repeat split).
  destruct (@unsupported_run ops _ U0) as [(S & R & L) N].
  split; [exact L|]. split; [exact R|]. split; [exact N|].
  intros onResult onError. unfold startListening, init, isSupported.
  rewrite R, S. reflexivity.
Qed.

Lemma queue_step (o : op) (st : state) :
  (List.length (utterances st) <= 1)%nat ->
  (List.length (utterances (fst (step o st))) <= 1)%nat.
Proof.
  intros Q. destruct st as [sup rec syn lis en]. unfold utterances in *.
  cbn [synthesis] in Q.
  destruct o; cbn -[js].
  - unfold init; cbn -[js]. destruct sup; cbn -[js]; exact Q.
  - unfold startListening; cbn -[js]. destruct rec as [r|].
    + unfold listen; cbn -[js]. destruct lis; [exact Q|].
      destruct (started r); exact Q.
    + unfold init; cbn -[js]. destruct sup; cbn -[js].
      * unfold listen; cbn -[js]. destruct lis; exact Q.
      * exact Q.
  - unfold stopListening; cbn. destruct rec; [|exact Q]. destruct lis; exact Q.
  - unfold speak; cbn -[js]. destruct en; cbn -[js]; [|exact Q].
    destruct syn; cbn; auto.
  - unfold stopSpeaking; cbn. destruct syn; cbn; auto.
  - unfold setSpeechEnabled, stopSpeaking; cbn.
    destruct enabled; cbn; [exact Q|]. destruct syn; cbn; auto.
  - unfold fire_result; cbn. destruct rec as [r|]; [|exact Q].
    destruct (started r), (onresult r); exact Q.
  - unfold fire_error; cbn. destruct rec as [r|]; [|exact Q].
    destruct (started r), (onerror r); exact Q.
  - unfold fire_end; cbn. destruct rec as [r|]; [|exact Q].
    destruct (started r); [|exact Q]. destruct (onend r); exact Q.
  - unfold fire_utterance_end; cbn. destruct syn as [[|u q]|]; cbn in *; lia.
Qed.

Lemma queue_run (ops : list op) (st : state) :
  (List.length (utterances st) <= 1)%nat ->
  (List.length (utterances (fst (run ops st))) <= 1)%nat.
Proof.
  revert st; induction ops as [|o ops IH]; intros st Q; cbn [run]; [exact Q|].
  pose proof (@queue_step o st Q) as Q1.
  destruct (step o st) as [st1 tr1]. specialize (IH st1 Q1).
  destruct (run ops st1). exact IH.
Qed.

(** X12. At most one utterance is ever queued or being spoken, the last
    call winning: starting with at most one, no sequence of calls and
    platform events leaves more than one; and a [speak] made while
    speech output is on, on a platform with synthesis, cancels what was
    there and leaves exactly its own utterance. *)
Theorem one_utterance_at_a_time (st : state) (ops : list op) :
  (List.length (utterances st) <= 1)%nat ->
  (List.length (utterances (fst (run ops st))) <= 1)%nat
  /\ forall t onEnd,
       isSpeechEnabled (fst (run ops st)) = true ->
       synthesis (fst (run ops st)) <> None ->
       utterances (fst (speak t onEnd (fst (run ops st))))
       = [mkUtterance t (js "ru-RU") 1 1 1 onEnd]
       /\ snd (speak t onEnd (fst (run ops st)))
          = [SynthesisCancel; SynthesisSpeak (mkUtterance t (js "ru-RU") 1 1 1 onEnd)].
Proof.
  intros Q. split; [apply queue_run, Q|].
  intros t onEnd E S. unfold speak. rewrite E. cbn [negb].
  destruct (synthesis (fst (run ops st))); [split; reflexivity | congruence].
Qed.

End WithCallbacks.

Lemma one_utterance_at_a_time_witness :
  let st := loaded (callback := nat) true (Some []) in
  let ops := [Speak (js "one") None; Speak (js "two") (Some 4%nat)] in
  (List.length (utterances st) <= 1)%nat
  /\ utterances (fst (run ops st))
     = [mkUtterance (js "two") (js "ru-RU") 1 1 1 (Some 4%nat)].
Proof.
  cbv zeta. split; [cbn; lia|].
  pose proof (@one_utterance_at_a_time nat (loaded true (Some []))
                [Speak (js "one") None] (Nat.le_0_l 1)) as [_ H].
  exact (proj1 (H (js "two") (Some 4%nat) eq_refl
                  ltac:(discriminate))).
Defined.

End SpeechRuns.

(* ================================================================== *)
(** * The goal card *)

Module GoalCardProps.
Import JsNumber JsNumberFacts Utils UtilsProps GoalCard.

Lemma Qfloor_ge (z : Z) (x : Q) : (z <= Qfloor x)%Z <-> inject_Z z <= x.
Proof.
  split.
  - intros H. apply Qle_trans with (inject_Z (Qfloor x)); [|apply Qfloor_le].
    rewrite <- Zle_Qle. exact H.
  - intros H. rewrite <- (Qfloor_Z z). apply Qfloor_resp_le, H.
Qed.

Lemma Qceiling_le (x : Q) (z : Z) : (Qceiling x <= z)%Z <-> x <= inject_Z z.
Proof.
  split.
  - intros H. apply Qle_trans with (inject_Z (Qceiling x)); [apply Qle_ceiling|].
    rewrite <- Zle_Qle. exact H.
  - intros H. rewrite <- (Qceiling_Z z). apply Qceiling_resp_le, H.
Qed.

Local Abbreviation rho := ((inject_Z (199 * 2 ^ 45) - (1 # 2)) * 2 ^ (6 - 52) / 100).

(** X13. For a positive target, the goal card's progress bar takes the
    success class exactly when the current amount is more than
    [full_ratio] of the target, a ratio just below 99.5%: the quotient is
    rounded to binary64, its product with 100 is rounded again, and the
    rounding of the percentage brings 99.5 up to 100.  So an amount of
    1.99 (as a Number) of 2 has the class, and 9.95 of 10 has not. *)
Theorem progress_bar_success_iff (c T : Q) :
  0 < T ->
  progress_bar_success (goalProgress (Fin c) (Fin T)) = true
  <-> full_ratio * T < c.
Proof.
  intros HT.
  assert (NZ : ~ T == 0) by (intros E; rewrite E in HT; discriminate).
  rewrite goalProgress_calculatePercentage, calculatePercentage_finite by assumption.
  unfold progress_bar_success, ge.
  rewrite Math_min_100_ge, Math_round_100_ge, fmul_100_ge.
  rewrite (@round64_reaches (-1) 8962163258467287 rho (c / T));
    [| lia | lia | vm_compute; reflexivity | vm_compute; discriminate].
  change (Z.even 8962163258467287) with false. cbv iota.
  assert (U : 0 < 2 ^ (-1 - 52)) by apply two_pos.
  assert (E : (inject_Z 8962163258467287 - (1 # 2)) * 2 ^ (-1 - 52) == full_ratio)
    by (vm_compute; reflexivity).
  rewrite <- E.
  split; intros H.
  - assert (NU : ~ 2 ^ (-1 - 52) == 0) by (apply Qpower_not_0; discriminate).
    apply (proj2 (Qmult_lt_r _ _ _ U)) in H.
    apply (proj2 (Qmult_lt_r _ _ _ HT)) in H.
    eapply Qlt_le_trans; [exact H|]. apply Qeq_le. field. split; assumption.
  - apply Qlt_shift_div_l; [exact U|]. apply Qlt_shift_div_l; [exact HT|].
    exact H.
Qed.

Lemma progress_bar_success_iff_witness :
  0 < 100000
  /\ progress_bar_success (goalProgress (Fin 99500) (Fin 100000)) = true
  /\ progress_bar_success (goalProgress (Fin 99499) (Fin 100000)) = false.
Proof.
  split; [reflexivity|]. split.
  - apply (proj2 (@progress_bar_success_iff 99500 100000 eq_refl)).
    vm_compute. reflexivity.
  - vm_compute. reflexivity.
Defined.

Example progress_bar_success_examples :
  progress_bar_success
    (goalProgress (round64 (199 # 100)) (Fin 2)) = true
  /\ progress_bar_success
       (goalProgress (round64 (995 # 100)) (Fin 10)) = false
  /\ calculatePercentage (Fin 23) (Fin 40) = Fin 57.
Proof. repeat split; vm_compute; reflexivity. Qed.

(** The whole number of days that [daysLeft] comes to on two times. *)
Lemma daysLeft_finite (d n : Q) :
  daysLeft (Fin d) (Fin n) = of_Z (Qceiling ((d - n) / day)).
Proof. reflexivity. Qed.

(** X14. For a deadline and a present that are both times, the days left
    on a goal card are the least whole number of days that covers the
    time to the deadline: [k] days are shown exactly when the deadline is
    more than [k - 1] and at most [k] days away. The count is not
    clamped, so a deadline that has passed shows zero or a negative
    number, and one still to come shows at least one. *)
Theorem daysLeft_bounds (d n : Q) (k : Z) :
  (daysLeft (Fin d) (Fin n) = of_Z k
   <-> inject_Z (k - 1) * day < d - n /\ d - n <= inject_Z k * day)
  /\ (le (daysLeft (Fin d) (Fin n)) (Fin 0) = true <-> d <= n).
Proof.
  assert (DP : 0 < day) by reflexivity.
  assert (DN : ~ day == 0) by discriminate.
  assert (E : (d - n) / day * day == d - n) by (field; exact DN).
  assert (C : forall z, (Qceiling ((d - n) / day) <= z)%Z <-> d - n <= inject_Z z * day).
  { intros z. rewrite Qceiling_le. split; intros H.
    - apply Qle_trans with ((d - n) / day * day); [rewrite E; apply Qle_refl|].
      apply Qmult_le_compat_r; [exact H | apply Qlt_le_weak, DP].
    - apply Qle_shift_div_r; assumption. }
  rewrite daysLeft_finite. split.
  - split.
    + intros H. unfold of_Z, inject_Z in H. injection H as H.
      split.
      * apply Qnot_le_lt. intros L. apply C in L. lia.
      * apply C. lia.
    + intros [L U]. f_equal.
      apply C in U.
      assert (X : ~ (Qceiling ((d - n) / day) <= k - 1)%Z).
      { intros X. apply C in X. exact (Qlt_not_le _ _ L X). }
      lia.
  - rewrite (le_of_Z _ 0), C. change (inject_Z 0) with 0.
    split; intros H; lra.
Qed.

End GoalCardProps.

(* ================================================================== *)
(** * The admin panel's client-side filter *)

Module AdminProps.
Import JsString JsStringFacts JsNumber JsParse Admin.

Example parseInt_examples :
  parseInt (js "42") = of_Z 42
  /\ parseInt (js "  -17abc") = of_Z (-17)
  /\ parseInt (js "0x1F") = of_Z 31
  /\ parseInt (js "12.9") = of_Z 12
  /\ parseInt (js "abc") = NaN
  /\ parseInt [] = NaN.
Proof. repeat split. Qed.

Lemma filter_filter {A} (f g : A -> bool) (l : list A) :
  filter g (filter f l) = filter (fun x => f x && g x) l.
Proof.
  induction l as [|x l IH]; cbn [filter]; [reflexivity|].
  destruct (f x); cbn [filter andb]; [|exact IH].
  destruct (g x); [f_equal|]; exact IH.
Qed.

Lemma filter_true {A} (l : list A) : filter (fun _ => true) l = l.
Proof. induction l as [|x l IH]; cbn; [|f_equal]; auto. Qed.

Lemma filterLogs_table (fl : filters) (st : state) :
  logs_table (filterLogs fl st) = Table (filter (admits fl) (logsData st)).
Proof.
  unfold filterLogs, admits. cbn [logs_table]. f_equal.
  destruct (given (by_user_id fl)), (given (by_action_type fl)),
    (given (by_status fl));
    rewrite ?filter_filter;
    first
      [ apply filter_ext; intros l; cbn [andb];
        rewrite ?andb_true_r, ?andb_assoc; reflexivity
      | symmetry; exact (filter_true (logsData st)) ].
Qed.


(** On the fixture: the user-id filter reads a number out of the text, and
    a text with no number in front matches nothing. *)
Example filterLogs_examples :
  let st := mkState fixture Loading in
  logs_table (filterLogs (mkFilters (Some (js "2")) None None) st)
  = Table [mkLog (of_Z 3) (of_Z 2) (js "balance_check")
             (js "2025-10-16 16:45:00") (js "completed")]
  /\ logs_table (filterLogs (mkFilters (Some (js " 1abc")) (Some []) None) st)
     = Table (firstn 2 fixture)
  /\ logs_table (filterLogs (mkFilters (Some (js "abc")) None None) st) = Table []
  /\ logs_table (filterLogs (mkFilters None None (Some (js "failed"))) st) = Table [].
Proof. repeat split. Qed.

End AdminProps.

(* ================================================================== *)
(** * Integers as text, and back *)

Module JsParseFacts.
Import JsString JsNumber JsParse.

Lemma is_dec_cases c :
  is_dec c = true ->
  (c = 48 \/ c = 49 \/ c = 50 \/ c = 51 \/ c = 52 \/ c = 53 \/ c = 54
   \/ c = 55 \/ c = 56 \/ c = 57)%N.
Proof.
  unfold is_dec. rewrite andb_true_iff, !N.leb_le. lia.
Qed.

Lemma digit_value_dec c :
  is_dec c = true ->
  digit_value c = Some (Z.of_N (c - 48)) /\ (Z.of_N (c - 48) <? 10)%Z = true.
Proof.
  intros H. destruct (is_dec_cases c H) as [->|[->|[->|[->|[->|[->|[->|[->|[->| ->]]]]]]]]];
    split; reflexivity.
Qed.

Lemma radix_digits_dec s :
  forallb is_dec s = true ->
  radix_digits 10 s = map (fun c => Z.of_N (c - 48)) s.
Proof.
  induction s as [|c s IH]; cbn [forallb radix_digits map]; [reflexivity|].
  intros H. apply andb_true_iff in H as [H1 H2].
  destruct (digit_value_dec c H1) as [-> ->]. rewrite IH by exact H2. reflexivity.
Qed.

Lemma radix_value_from (ds : list Z) (a : Z) :
  fold_left (fun acc v => (acc * 10 + v)%Z) ds a
  = (a * 10 ^ Z.of_nat (List.length ds) + radix_value 10 ds)%Z.
Proof.
  unfold radix_value. revert a; induction ds as [|v ds IH]; intros a.
  - cbn. lia.
  - cbn [fold_left List.length]. rewrite IH, (IH (0 * 10 + v)%Z).
    rewrite Nat2Z.inj_succ, Z.pow_succ_r by lia. ring.
Qed.

Lemma dec_value_cons c s :
  dec_value (c :: s)
  = (Z.of_N (c - 48) * 10 ^ Z.of_nat (List.length s) + dec_value s)%Z.
Proof.
  unfold dec_value, radix_value. cbn [map fold_left].
  rewrite radix_value_from, length_map. reflexivity.
Qed.

Lemma decimal_digits_spec fuel n acc :
  (n < 2 ^ N.of_nat fuel)%N -> forallb is_dec acc = true ->
  forallb is_dec (decimal_digits fuel n acc) = true
  /\ dec_value (decimal_digits fuel n acc)
     = (Z.of_N n * 10 ^ Z.of_nat (List.length acc) + dec_value acc)%Z.
Proof.
  revert n acc; induction fuel as [|f IH]; intros n acc B A.
  - cbn [decimal_digits]. cbn in B. assert (n = 0%N) by lia. subst n.
    split; [exact A | lia].
  - cbn [decimal_digits].
    set (q := (n / 10)%N). set (m := (n mod 10)%N).
    assert (M : (m < 10)%N) by (apply N.mod_lt; discriminate).
    assert (DM : n = (10 * q + m)%N) by (apply N.div_mod; discriminate).
    assert (D : is_dec (48 + m) = true).
    { unfold is_dec. rewrite andb_true_iff, !N.leb_le. clear - M. lia. }
    assert (V : Z.of_N (48 + m - 48) = Z.of_N m) by (f_equal; clear; lia).
    assert (A' : forallb is_dec ((48 + m)%N :: acc) = true).
    { cbn [forallb]. rewrite D, A. reflexivity. }
    destruct (q =? 0)%N eqn:Q.
    + apply N.eqb_eq in Q. split; [exact A'|].
      rewrite dec_value_cons, V. rewrite Q in DM. f_equal. f_equal.
      clear - DM. lia.
    + assert (B' : (q < 2 ^ N.of_nat f)%N).
      { apply N.Div0.div_lt_upper_bound.
        rewrite Nat2N.inj_succ, N.pow_succ_r' in B.
        clear - B. generalize dependent (2 ^ N.of_nat f)%N. intros. lia. }
      destruct (IH q _ B' A') as (F1 & F2).
      split; [exact F1|].
      rewrite F2, dec_value_cons, V. cbn [List.length].
      rewrite Nat2Z.inj_succ, Z.pow_succ_r by lia.
      assert (DZ : Z.of_N n = (10 * Z.of_N q + Z.of_N m)%Z) by (clear - DM; lia).
      rewrite DZ. ring.
Qed.

Lemma decimal_digits_nonempty fuel n acc :
  acc <> [] \/ fuel <> O -> decimal_digits fuel n acc <> [].
Proof.
  revert n acc; induction fuel as [|f IH]; intros n acc H; cbn [decimal_digits].
  - destruct H; congruence.
  - destruct (n / 10 =? 0)%N; [discriminate|]. apply IH. left. discriminate.
Qed.

(** The digits of a natural number are digits indeed, at least one, and
    stand for the number. *)
Lemma decimal_of_N (n : N) :
  let ds := decimal_digits (S (N.to_nat (N.log2 n))) n [] in
  forallb is_dec ds = true /\ ds <> [] /\ dec_value ds = Z.of_N n.
Proof.
  cbv zeta.
  assert (B : (n < 2 ^ N.of_nat (S (N.to_nat (N.log2 n))))%N).
  { rewrite Nat2N.inj_succ, N2Nat.id.
    destruct n as [|p]; [reflexivity|]. apply N.log2_spec. reflexivity. }
  destruct (@decimal_digits_spec _ n [] B eq_refl) as [F V].
  split; [exact F|]. split; [apply decimal_digits_nonempty; right; discriminate|].
  rewrite V. cbn. lia.
Qed.

Lemma read_integer_dec sign ds :
  forallb is_dec ds = true -> ds <> [] ->
  read_integer sign 10 ds = of_Z (sign * dec_value ds).
Proof.
  intros F NE. unfold read_integer. rewrite radix_digits_dec by exact F.
  destruct ds as [|c ds]; [congruence|]. reflexivity.
Qed.

Lemma read_unsigned_dec sign ds :
  forallb is_dec ds = true -> ds <> [] ->
  read_unsigned sign ds = of_Z (sign * dec_value ds).
Proof.
  intros F NE. rewrite <- read_integer_dec by assumption.
  destruct ds as [|c r]; [reflexivity|].
  cbn [forallb] in F. apply andb_true_iff in F as [Fc F].
  destruct (is_dec_cases c Fc) as [->|[->|[->|[->|[->|[->|[->|[->|[->| ->]]]]]]]]];
    try reflexivity.
  destruct r as [|x r]; [reflexivity|].
  cbn [forallb] in F. apply andb_true_iff in F as [Fx _].
  destruct (is_dec_cases x Fx) as [->|[->|[->|[->|[->|[->|[->|[->|[->| ->]]]]]]]]];
    reflexivity.
Qed.

(** An integer written out and read by [parseInt] is the integer. *)
Lemma parseInt_integer_toString (z : Z) :
  parseInt (integer_toString z) = of_Z z.
Proof.
  unfold integer_toString.
  destruct (decimal_of_N (Z.to_N (Z.abs z))) as (F & NE & V).
  set (ds := decimal_digits _ _ _) in *.
  destruct (z <? 0)%Z eqn:S.
  - apply Z.ltb_lt in S. unfold parseInt. cbn [trimStart is_white_space].
    change (is_white_space 45) with false. cbv iota.
    rewrite read_unsigned_dec by assumption. rewrite V. f_equal. lia.
  - apply Z.ltb_ge in S.
    assert (P : parseInt ds = read_unsigned 1 ds).
    { destruct ds as [|c r]; [congruence|].
      cbn [forallb] in F. apply andb_true_iff in F as [Fc _].
      destruct (is_dec_cases c Fc) as [->|[->|[->|[->|[->|[->|[->|[->|[->| ->]]]]]]]]];
        reflexivity. }
    rewrite P, read_unsigned_dec by assumption. rewrite V. f_equal. lia.
Qed.

Lemma integer_toString_truthy (z : Z) : truthy (integer_toString z) = true.
Proof.
  unfold integer_toString.
  destruct (decimal_of_N (Z.to_N (Z.abs z))) as (_ & NE & _).
  destruct (z <? 0)%Z; [reflexivity|].
  destruct (decimal_digits _ _ _); [congruence | reflexivity].
Qed.

Example integer_toString_examples :
  integer_toString 0 = js "0" /\ integer_toString 1 = js "1"
  /\ integer_toString 250000 = js "250000" /\ integer_toString (-42) = js "-42".
Proof. repeat split. Qed.

End JsParseFacts.


(* ================================================================== *)
(** * The session kept in [localStorage] *)

Module AuthProps.
Import JsString JsNumber JsParse Auth.

Lemma eqb_refl k : JsString.eqb k k = true.
Proof. apply JsStringFacts.eqb_eq. reflexivity. Qed.

Lemma getItem_removeItem_same k ls : getItem k (removeItem k ls) = None.
Proof.
  induction ls as [|[k' v] ls IH]; [reflexivity|]. cbn [removeItem].
  destruct (JsString.eqb k k') eqn:E; [exact IH|].
  cbn [getItem]. rewrite E. exact IH.
Qed.

Lemma getItem_removeItem_other k k' ls :
  JsString.eqb k k' = false -> getItem k (removeItem k' ls) = getItem k ls.
Proof.
  intros N. induction ls as [|[k2 v] ls IH]; [reflexivity|].
  cbn [removeItem getItem].
  destruct (JsString.eqb k' k2) eqn:E.
  - apply JsStringFacts.eqb_eq in E. subst k2. rewrite N. exact IH.
  - cbn [getItem]. rewrite IH. reflexivity.
Qed.

Lemma getItem_app k a b :
  getItem k (a ++ b)
  = match getItem k a with Some v => Some v | None => getItem k b end.
Proof.
  induction a as [|[k' v] a IH]; [reflexivity|]. cbn [app getItem].
  destruct (JsString.eqb k k'); [reflexivity | exact IH].
Qed.

Lemma getItem_setItem_same k v ls : getItem k (setItem k v ls) = Some v.
Proof.
  unfold setItem. rewrite getItem_app, getItem_removeItem_same.
  cbn [getItem]. rewrite eqb_refl. reflexivity.
Qed.

Lemma getItem_setItem_other k k' v ls :
  JsString.eqb k k' = false -> getItem k (setItem k' v ls) = getItem k ls.
Proof.
  intros N. unfold setItem.
  rewrite getItem_app, (@getItem_removeItem_other k k' ls N).
  cbn [getItem]. rewrite N. destruct (getItem k ls); reflexivity.
Qed.

Lemma session_key_false k :
  session_key k = false ->
  JsString.eqb k (js "access_token") = false
  /\ JsString.eqb k (js "user_id") = false
  /\ JsString.eqb k (js "user_data") = false.
Proof.
  unfold session_key. intros H.
  apply orb_false_iff in H as [H H3]. apply orb_false_iff in H as [H1 H2].
  repeat split; assumption.
Qed.

(** The two items every successful login or registration stores. *)
Lemma stored_session token id ls :
  let ls' := setItem (js "user_id") (integer_toString id)
               (setItem (js "access_token") token ls) in
  getItem (js "access_token") ls' = Some token
  /\ getItem (js "user_id") ls' = Some (integer_toString id)
  /\ getItem (js "user_data") ls' = getItem (js "user_data") ls
  /\ (forall k, session_key k = false -> getItem k ls' = getItem k ls).
Proof.
  cbv zeta. repeat split.
  - rewrite getItem_setItem_other by reflexivity. apply getItem_setItem_same.
  - apply getItem_setItem_same.
  - rewrite !getItem_setItem_other by reflexivity. reflexivity.
  - intros k K. destruct (session_key_false k K) as (K1 & K2 & _).
    rewrite (@getItem_setItem_other k _ _ _ K2).
    apply (@getItem_setItem_other k _ _ _ K1).
Qed.

Lemma getCurrentUserId_stored id ls :
  getItem (js "user_id") ls = Some (integer_toString id) ->
  getCurrentUserId ls = Some (of_Z id).
Proof.
  intros G. unfold getCurrentUserId. rewrite G.
  rewrite JsParseFacts.integer_toString_truthy.
  rewrite JsParseFacts.parseInt_integer_toString. reflexivity.
Qed.

Section WithJson.

Variable JSON_stringify : Api.json -> jsstring.

(** X16. A login that succeeds opens the session it was answered with:
    [isLoggedIn] holds exactly when the token is not the empty string,
    [getCurrentUserId] reads back the user id of the response (an integer
    below [10^21] in size, which is stored in decimal), the user data is
    the JSON text of the response's user when it has one that counts as
    true in a condition and stays what it was otherwise, and no other key
    of the storage changes.  A login that fails leaves the storage as it
    found it. *)
Theorem login_opens_session (r : credentials) (ls : storage) (b : button) :
  (Z.abs (user_id r) < 10 ^ 21)%Z ->
  let ls' := fst (fst (login_resolved JSON_stringify r ls b)) in
  isLoggedIn ls' = truthy (access_token r)
  /\ getCurrentUserId ls' = Some (of_Z (user_id r))
  /\ getItem (js "user_data") ls'
     = match user r with
       | Some u =>
           if Api.is_truthy u then Some (JSON_stringify u)
           else getItem (js "user_data") ls
       | None => getItem (js "user_data") ls
       end
  /\ (forall k, session_key k = false -> getItem k ls' = getItem k ls)
  /\ fst (fst (login_rejected ls b)) = ls.
Proof.
  intros _. cbv zeta. unfold login_resolved. cbn [fst snd].
  destruct (stored_session (access_token r) (user_id r) ls) as (T & I & D & F).
  destruct (user r) as [u|]; [destruct (Api.is_truthy u)|].
  - repeat split.
    + unfold isLoggedIn. rewrite getItem_setItem_other by reflexivity.
      rewrite T. reflexivity.
    + apply getCurrentUserId_stored.
      rewrite getItem_setItem_other by reflexivity. exact I.
    + apply getItem_setItem_same.
    + intros k K. destruct (session_key_false k K) as (_ & _ & K3).
      rewrite (@getItem_setItem_other k _ _ _ K3). exact (F k K).
  - repeat split.
    + unfold isLoggedIn. rewrite T. reflexivity.
    + apply getCurrentUserId_stored. exact I.
    + exact D.
    + exact F.
  - repeat split.
    + unfold isLoggedIn. rewrite T. reflexivity.
    + apply getCurrentUserId_stored. exact I.
    + exact D.
    + exact F.
Qed.

End WithJson.

Lemma login_opens_session_witness :
  let r := mkCredentials (js "mock_jwt_token_12345") 1 (Some Api.MOCK_DATA_user) in
  let ls := [(js "theme", js "dark"); (js "user_data", js "old")] in
  let ls' := fst (fst (login_resolved (fun _ => js "{}") r ls (mkButton true []))) in
  isLoggedIn ls' = true
  /\ getCurrentUserId ls' = Some (of_Z 1)
  /\ getItem (js "user_data") ls' = Some (js "{}")
  /\ getItem (js "theme") ls' = Some (js "dark").
Proof.
  cbv zeta.
  destruct (@login_opens_session (fun _ => js "{}")
              (mkCredentials (js "mock_jwt_token_12345") 1
                 (Some Api.MOCK_DATA_user))
              [(js "theme", js "dark"); (js "user_data", js "old")]
              (mkButton true []))
    as (A & B & C & D & _).
  - reflexivity.
  - cbv zeta in A, B, C, D.
    exact (conj A (conj B (conj C (D (js "theme") eq_refl)))).
Defined.

(** A response whose user counts as false leaves the stored user data as
    it was. *)
Example login_without_user :
  let ls := [(js "user_data", js "old")] in
  map (fun u =>
         getItem (js "user_data")
           (fst (fst (login_resolved (fun _ => js "new")
                        (mkCredentials (js "t") 1 u) ls (mkButton true [])))))
      [None; Some Api.JNull; Some (Api.JBool false); Some (Api.JNum (Fin 0));
       Some (Api.JStr []); Some (Api.JObj [])]
  = [Some (js "old"); Some (js "old"); Some (js "old"); Some (js "old");
     Some (js "old"); Some (js "new")].
Proof. vm_compute. reflexivity. Qed.


(** X17. Logging out closes the session: afterwards [isLoggedIn] is false,
    [getCurrentUserId] is [null], no user data is stored, the requests of
    the API module carry an empty Authorization header, and every other
    key of the storage is as before. *)
Theorem logout_closes_session (ls : storage) :
  let ls' := fst (logout ls) in
  isLoggedIn ls' = false
  /\ getCurrentUserId ls' = None
  /\ getItem (js "user_data") ls' = None
  /\ (forall e, Api.authHeaders (request_env ls' e) = [])
  /\ (forall k, session_key k = false -> getItem k ls' = getItem k ls).
Proof.
  cbv zeta. unfold logout. cbn [fst].
  assert (T : getItem (js "access_token")
                (removeItem (js "user_data")
                   (removeItem (js "user_id")
                      (removeItem (js "access_token") ls))) = None).
  { rewrite !getItem_removeItem_other by reflexivity.
    apply getItem_removeItem_same. }
  repeat split.
  - unfold isLoggedIn. rewrite T. reflexivity.
  - unfold getCurrentUserId.
    rewrite getItem_removeItem_other by reflexivity.
    rewrite getItem_removeItem_same. reflexivity.
  - apply getItem_removeItem_same.
  - intros e. unfold Api.authHeaders, request_env. cbn [Api.access_token].
    rewrite T. reflexivity.
  - intros k K. destruct (session_key_false k K) as (K1 & K2 & K3).
    rewrite (@getItem_removeItem_other k _ _ K3).
    rewrite (@getItem_removeItem_other k _ _ K2).
    apply (@getItem_removeItem_other k _ _ K1).
Qed.

(** X18. Registration: the request goes out exactly when the two passwords
    are the same string, and then it is the one request, with the name,
    email and password of the form; when they differ the button is left as
    it was.  A registration that succeeds stores the token and the user id
    of the response, and leaves the user data of an earlier session where
    it was. *)
Theorem register_session (name email password confirmPassword : jsstring)
    (b : button) (r : credentials) (ls : storage) :
  (Z.abs (user_id r) < 10 ^ 21)%Z ->
  (existsb is_register
     (snd (handleRegister name email password confirmPassword b)) = true
   <-> password = confirmPassword)
  /\ (password = confirmPassword ->
      snd (handleRegister name email password confirmPassword b)
      = [ApiRegister name email password])
  /\ (password <> confirmPassword ->
      fst (handleRegister name email password confirmPassword b) = b)
  /\ let ls' := fst (fst (register_resolved r ls b)) in
     isLoggedIn ls' = truthy (access_token r)
     /\ getCurrentUserId ls' = Some (of_Z (user_id r))
     /\ getItem (js "user_data") ls' = getItem (js "user_data") ls
     /\ (forall k, session_key k = false -> getItem k ls' = getItem k ls).
Proof.
  intros _. unfold handleRegister.
  destruct (JsString.eqb password confirmPassword) eqn:E; cbn [negb fst snd].
  - apply JsStringFacts.eqb_eq in E. repeat split; try (intros; tauto).
    all: try (cbv zeta; unfold register_resolved; cbn [fst snd];
              destruct (stored_session (access_token r) (user_id r) ls)
                as (T & I & D & F)).
    + unfold isLoggedIn. rewrite T. reflexivity.
    + apply getCurrentUserId_stored. exact I.
    + exact D.
    + exact F.
  - assert (NE : password <> confirmPassword).
    { intros ->. rewrite eqb_refl in E. discriminate. }
    repeat split; try (intros; tauto); try discriminate.
    all: try (cbv zeta; unfold register_resolved; cbn [fst snd];
              destruct (stored_session (access_token r) (user_id r) ls)
                as (T & I & D & F)).
    + unfold isLoggedIn. rewrite T. reflexivity.
    + apply getCurrentUserId_stored. exact I.
    + exact D.
    + exact F.
Qed.

Lemma register_session_witness :
  let r := mkCredentials (js "mock_jwt_token_12345") 1 None in
  let ls := [(js "user_data", js "{}")] in
  snd (handleRegister (js "A") (js "a@b.c") (js "secret") (js "secret")
         (mkButton false []))
  = [ApiRegister (js "A") (js "a@b.c") (js "secret")]
  /\ getItem (js "user_data") (fst (fst (register_resolved r ls (mkButton false []))))
     = Some (js "{}").
Proof.
  cbv zeta.
  destruct (@register_session (js "A") (js "a@b.c") (js "secret") (js "secret")
              (mkButton false [])
              (mkCredentials (js "mock_jwt_token_12345") 1 None)
              [(js "user_data", js "{}")])
    as (_ & S & _ & _ & _ & D & _).
  - reflexivity.
  - exact (conj (S eq_refl) D).
Defined.

End AuthProps.


(* ================================================================== *)
(** * Reading data and creating a goal *)

Module ApiDataProps.
Import JsString JsNumber Api ApiData.

Lemma includes_has_pair a b p s :
  includes s (a :: b :: p) = true -> has_pair a b s = true.
Proof.
  induction s as [|x r IH]; cbn [includes startsWith has_pair].
  - discriminate.
  - intros H. apply orb_true_iff in H as [H|H].
    + destruct r as [|y r']; [rewrite andb_false_r in H; discriminate|].
      cbn [startsWith] in H.
      apply andb_true_iff in H as [H1 H2]. apply andb_true_iff in H2 as [H2 _].
      apply N.eqb_eq in H1, H2. subst.
      rewrite !N.eqb_refl. reflexivity.
    + specialize (IH H). destruct r as [|y r']; [discriminate|].
      rewrite IH. apply orb_true_r.
Qed.

Lemma no_pair_no_include a b p s :
  has_pair a b s = false -> includes s (a :: b :: p) = false.
Proof.
  intros H. destruct (includes s (a :: b :: p)) eqn:E; [|reflexivity].
  apply includes_has_pair in E. congruence.
Qed.

(** A text without [a] holds no pair that begins with [a], and adds none
    in front of another text. *)
Lemma has_pair_segment a b u tail :
  forallb (fun c => negb (c =? a)%N) u = true ->
  has_pair a b (u ++ tail) = has_pair a b tail.
Proof.
  induction u as [|c u IH]; [reflexivity|]. cbn [forallb app]. intros H.
  apply andb_true_iff in H as [C U]. apply negb_true_iff in C.
  cbn [has_pair]. rewrite C. cbn [andb orb]. rewrite <- (IH U).
  destruct (u ++ tail); reflexivity.
Qed.

Lemma has_pair_app a b x c y :
  has_pair a b (x ++ c :: y)
  = has_pair a b (x ++ [c]) || has_pair a b (c :: y).
Proof.
  induction x as [|d x IH]; [reflexivity|]. cbn [app].
  cbn [has_pair]. rewrite IH.
  destruct x as [|d' x']; cbn [app]; rewrite orb_assoc; reflexivity.
Qed.

Lemma has_pair_cons2 a b x y r :
  has_pair a b (x :: y :: r)
  = ((x =? a) && (y =? b))%N || has_pair a b (y :: r).
Proof. reflexivity. Qed.

Lemma users_prefix_pair b c :
  (117 =? b)%N = false -> (c =? b)%N = false ->
  has_pair 47 b (js "/users/" ++ [c]) = false.
Proof.
  intros H1 H2.
  change (js "/users/" ++ [c]) with [47; 117; 115; 101; 114; 115; 47; c]%N.
  rewrite !has_pair_cons2, H1, H2. reflexivity.
Qed.

(** The two slashes of a user's path are followed by [u] and by the first
    character of what comes after the id. *)
Lemma user_path_pair b u t tail :
  no_slash u = true -> startsWith u [b] = false ->
  (t =? b)%N = false -> (117 =? b)%N = false ->
  has_pair 47 b (js "/users/" ++ u ++ t :: tail) = has_pair 47 b (t :: tail).
Proof.
  intros U Hu Ht Hb.
  destruct u as [|c u].
  - cbn [app]. rewrite has_pair_app.
    rewrite (@users_prefix_pair b t Hb Ht). reflexivity.
  - change ((c :: u) ++ t :: tail) with (c :: (u ++ t :: tail)).
    rewrite has_pair_app.
    cbn [startsWith] in Hu. rewrite andb_true_r, N.eqb_sym in Hu.
    rewrite (@users_prefix_pair b c Hb Hu).
    cbn [orb]. change (c :: u ++ t :: tail) with ((c :: u) ++ t :: tail).
    apply has_pair_segment. exact U.
Qed.

Lemma id_segment_parts u :
  id_segment u = true ->
  no_slash u = true /\ startsWith u [97%N] = false
  /\ startsWith u [103%N] = false.
Proof.
  unfold id_segment. intros H.
  apply andb_true_iff in H as [H G]. apply andb_true_iff in H as [S A].
  apply negb_true_iff in A, G. repeat split; assumption.
Qed.

Lemma goals_path_routes u :
  id_segment u = true ->
  let path := js "/users/" ++ u ++ js "/goals" in
  includes path (js "/goals") = true
  /\ includes path (js "/auth/login") = false
  /\ includes path (js "/auth/register") = false
  /\ includes path (js "/ai/message") = false
  /\ includes path (js "/ai/execute") = false.
Proof.
  intros S. destruct (id_segment_parts u S) as (U & A & _). cbv zeta.
  assert (P : has_pair 47 97 (js "/users/" ++ u ++ js "/goals") = false).
  { change (js "/goals") with (47%N :: js "goals").
    rewrite (@user_path_pair 97 u 47 (js "goals") U A eq_refl eq_refl).
    reflexivity. }
  split.
  - rewrite app_assoc.
    exact (JsStringFacts.includes_app_intro (js "/users/" ++ u) (js "/goals") []).
  - repeat split.
    + exact (@no_pair_no_include 47 97 (js "uth/login") _ P).
    + exact (@no_pair_no_include 47 97 (js "uth/register") _ P).
    + exact (@no_pair_no_include 47 97 (js "i/message") _ P).
    + exact (@no_pair_no_include 47 97 (js "i/execute") _ P).
Qed.

Lemma transactions_path_routes u :
  id_segment u = true ->
  let path := js "/users/" ++ u ++ js "/transactions" in
  includes path (js "/goals") = false
  /\ includes path (js "/transactions") = true.
Proof.
  intros S. destruct (id_segment_parts u S) as (U & _ & G). cbv zeta. split.
  - apply (@no_pair_no_include 47 103 (js "oals")).
    change (js "/transactions") with (47%N :: js "transactions").
    rewrite (@user_path_pair 103 u 47 (js "transactions") U G eq_refl eq_refl).
    reflexivity.
  - rewrite app_assoc.
    exact (JsStringFacts.includes_app_intro (js "/users/" ++ u)
             (js "/transactions") []).
Qed.

Lemma logs_path_routes query :
  no_slash query = true ->
  let path := js "/admin/logs" ++ (if truthy query then js "?" ++ query else []) in
  includes path (js "/goals") = false
  /\ includes path (js "/transactions") = false
  /\ includes path (js "/admin/logs") = true.
Proof.
  intros Q. cbv zeta.
  assert (P : forall b, (97 =? b)%N = false -> (108 =? b)%N = false ->
              has_pair 47 b (js "/admin/logs"
                             ++ (if truthy query then js "?" ++ query else []))
              = false).
  { intros b B1 B2.
    assert (L : has_pair 47 b (js "/admin/logs") = false).
    { change (js "/admin/logs")
        with [47; 97; 100; 109; 105; 110; 47; 108; 111; 103; 115]%N.
      rewrite !has_pair_cons2, B1, B2. reflexivity. }
    destruct (truthy query).
    - change (js "?" ++ query) with (63%N :: query). rewrite has_pair_app.
      rewrite orb_false_iff. split.
      + change (js "/admin/logs" ++ [63%N])
          with [47; 97; 100; 109; 105; 110; 47; 108; 111; 103; 115; 63]%N.
        rewrite !has_pair_cons2, B1, B2. reflexivity.
      + rewrite <- (app_nil_r (63%N :: query)).
        apply (@has_pair_segment 47 b (63%N :: query) []).
        cbn [forallb]. exact Q.
    - rewrite app_nil_r. exact L. }
  split; [|split].
  - exact (@no_pair_no_include 47 103 (js "oals") _ (P 103%N eq_refl eq_refl)).
  - exact (@no_pair_no_include 47 116 (js "ransactions") _
             (P 116%N eq_refl eq_refl)).
  - apply JsStringFacts.includes_of_startsWith, JsStringFacts.startsWith_app.
Qed.

(** The decimal text of an integer is the text of an id. *)
Lemma integer_id_segment (z : Z) : id_segment (JsParse.integer_toString z) = true.
Proof.
  unfold JsParse.integer_toString.
  destruct (JsParseFacts.decimal_of_N (Z.to_N (Z.abs z))) as (F & NE & _).
  set (ds := JsParse.decimal_digits _ _ _) in *.
  assert (D : forall c, JsParse.is_dec c = true ->
              (c =? 47)%N = false /\ (97 =? c)%N = false /\ (103 =? c)%N = false).
  { intros c C.
    destruct (JsParseFacts.is_dec_cases c C)
      as [->|[->|[->|[->|[->|[->|[->|[->|[->| ->]]]]]]]]]; repeat split. }
  assert (S : no_slash ds = true).
  { unfold no_slash. apply forallb_forall. intros c Hc.
    apply negb_true_iff, D. exact (proj1 (forallb_forall _ _) F c Hc). }
  unfold id_segment. destruct (z <? 0)%Z.
  - unfold no_slash in *. cbn [forallb]. rewrite S. reflexivity.
  - rewrite S. destruct ds as [|c r]; [congruence|].
    cbn [forallb] in F. apply andb_true_iff in F as [C _].
    destruct (D c C) as (_ & A & G).
    change (js "a") with [97%N]. change (js "g") with [103%N].
    cbn [startsWith]. rewrite A, G. reflexivity.
Qed.

(** Goals read in mock mode. *)
Lemma mock_goals_read (e : env) (userId : jsstring) (st : state) :
  USE_MOCK st = true -> id_segment userId = true ->
  getUserGoals e userId st = (mkPromise 500 (Resolved (JArr (goals st))), []).
Proof.
  intros M U. destruct (goals_path_routes userId U) as (G & _).
  cbv zeta in G. unfold getUserGoals, get, mockGet. rewrite M, G.
  reflexivity.
Qed.

(** X19. In mock mode nothing is fetched and the reads answer with the
    fixtures whatever they are asked for: the goals as they stand for any
    user id, the five transactions for any user id, and the three log
    entries for any filters (the text of a query, with its slashes
    escaped, is free of them). *)
Theorem mock_reads_fixtures (e : env) (userId query : jsstring) (st : state) :
  USE_MOCK st = true -> id_segment userId = true -> no_slash query = true ->
  getUserGoals e userId st
  = (mkPromise 500 (Resolved (JArr (goals st))), [])
  /\ getUserTransactions e userId st
     = (mkPromise 500 (Resolved (JArr MOCK_DATA_transactions)), [])
  /\ getAdminLogs e query st
     = (mkPromise 500 (Resolved (JArr MOCK_DATA_logs)), []).
Proof.
  intros M U Q. split; [exact (@mock_goals_read e userId st M U)|].
  destruct (transactions_path_routes userId U) as (T1 & T2).
  destruct (logs_path_routes query Q) as (L1 & L2 & L3).
  cbv zeta in T1, T2, L1, L2, L3.
  unfold getUserTransactions, getAdminLogs, get, mockGet.
  rewrite M, T1, T2, L1, L2, L3. split; reflexivity.
Qed.

Lemma mock_reads_fixtures_witness :
  let st := setMockMode true loaded in
  fst (getUserGoals (mkEnv (js "2025-10-20") None NetworkFailure 0)
         (js "7") st)
  = mkPromise 500 (Resolved (JArr MOCK_DATA_goals))
  /\ fst (getAdminLogs (mkEnv (js "2025-10-20") None NetworkFailure 0)
            (js "user_id=2&status=failed") st)
     = mkPromise 500 (Resolved (JArr MOCK_DATA_logs)).
Proof.
  cbv zeta.
  destruct (@mock_reads_fixtures
              (mkEnv (js "2025-10-20") None NetworkFailure 0)
              (js "7") (js "user_id=2&status=failed")
              (setMockMode true loaded) eq_refl eq_refl eq_refl)
    as (G & _ & L).
  rewrite G, L. split; reflexivity.
Defined.

Lemma prop_define_same k v ps : prop k (define k v ps) = Some v.
Proof.
  induction ps as [|[k' v'] ps IH]; cbn [define prop].
  - rewrite AuthProps.eqb_refl. reflexivity.
  - destruct (JsString.eqb k k') eqn:E; cbn [prop].
    + rewrite AuthProps.eqb_refl. reflexivity.
    + rewrite E. exact IH.
Qed.

Lemma prop_define_other k k' v ps :
  JsString.eqb k k' = false -> prop k (define k' v ps) = prop k ps.
Proof.
  intros N. induction ps as [|[k2 v2] ps IH]; cbn [define prop].
  - rewrite N. reflexivity.
  - destruct (JsString.eqb k' k2) eqn:E; cbn [prop].
    + apply JsStringFacts.eqb_eq in E. subst k2. rewrite N. reflexivity.
    + rewrite IH. reflexivity.
Qed.

Lemma prop_app k a b :
  prop k (a ++ b)
  = match prop k a with Some v => Some v | None => prop k b end.
Proof.
  induction a as [|[k' v] a IH]; [reflexivity|]. cbn [app prop].
  destruct (JsString.eqb k k'); [reflexivity | exact IH].
Qed.

(** In a spread the last binding of a key wins, and the target keeps the
    keys the source does not have. *)
Lemma prop_spread k b t :
  prop k (spread (JObj b) t)
  = match prop k (rev b) with Some v => Some v | None => prop k t end.
Proof.
  unfold spread. revert t; induction b as [|[k' v] b IH]; intros t.
  - reflexivity.
  - cbn [fold_left fst snd rev]. rewrite IH, prop_app. cbn [prop].
    destruct (prop k (rev b)); [reflexivity|].
    destruct (JsString.eqb k k') eqn:E.
    + apply JsStringFacts.eqb_eq in E. subst k'. apply prop_define_same.
    + apply prop_define_other, E.
Qed.

Section WithToLowerCase.

Variable toLowerCase : jsstring -> jsstring.

(** X20. Creating a goal in mock mode: nothing is fetched; the goal is
    resolved after the delay and is the one entry added to the fixture, so
    that the goals read next (for any user id) are the earlier ones
    followed by it.  Whatever the body says, the goal starts with nothing
    saved and is dated today; every other property is the body's, and an
    id is supplied, one more than the number of goals there were, only
    when the body has none. *)
Theorem mock_goal_round_trip (e e' : env) (userId userId' : jsstring)
    (b : list (jsstring * json)) (st : state) :
  USE_MOCK st = true -> id_segment userId = true ->
  id_segment userId' = true ->
  exists g,
    createGoal toLowerCase e userId (JObj b) st
    = (mkPromise 500 (Resolved g),
       mkState (BASE_URL st) true (goals st ++ [g]), [])
    /\ fst (getUserGoals e' userId'
              (snd (fst (createGoal toLowerCase e userId (JObj b) st))))
       = mkPromise 500 (Resolved (JArr (goals st ++ [g])))
    /\ field (js "current_amount") g = Some (num 0)
    /\ field (js "created_at") g = Some (JStr (today e))
    /\ (forall k,
          JsString.eqb k (js "current_amount") = false ->
          JsString.eqb k (js "created_at") = false ->
          field k g
          = match prop k (rev b) with
            | Some v => Some v
            | None =>
                if JsString.eqb k (js "id")
                then Some (num (Z.of_nat (List.length (goals st)) + 1))
                else None
            end).
Proof.
  intros M U U'.
  destruct (goals_path_routes userId U) as (G & L & R & A & X).
  cbv zeta in G, L, R, A, X.
  set (g := JObj (define (js "created_at") (JStr (today e))
                    (define (js "current_amount") (num 0)
                       (spread (JObj b)
                          [(js "id",
                            num (Z.of_nat (List.length (goals st)) + 1))])))).
  exists g.
  assert (C : createGoal toLowerCase e userId (JObj b) st
              = (mkPromise 500 (Resolved g),
                 mkState (BASE_URL st) true (goals st ++ [g]), [])).
  { unfold createGoal, post, mockPost. rewrite M, L, R, A, X, G.
    reflexivity. }
  split; [exact C|]. rewrite C. cbn [fst snd].
  split; [|split; [|split]].
  - rewrite (@mock_goals_read e' userId'
               (mkState (BASE_URL st) true (goals st ++ [g])) eq_refl U').
    reflexivity.
  - unfold g. cbn [field].
    rewrite prop_define_other by reflexivity. apply prop_define_same.
  - unfold g. cbn [field]. apply prop_define_same.
  - intros k K1 K2. unfold g. cbn [field].
    rewrite (@prop_define_other k _ _ _ K2), (@prop_define_other k _ _ _ K1).
    rewrite prop_spread. cbn [prop]. reflexivity.
Qed.

End WithToLowerCase.

Lemma mock_goal_round_trip_witness :
  let e := mkEnv (js "2025-10-20") None NetworkFailure 0 in
  let body := [(js "title", str "Bike"); (js "target_amount", num 5000);
               (js "deadline", str "2026-01-01")] in
  exists g,
    fst (getUserGoals e (js "1")
           (snd (fst (createGoal (fun s => s) e (js "1") (JObj body)
                        (setMockMode true loaded)))))
    = mkPromise 500 (Resolved (JArr (MOCK_DATA_goals ++ [g])))
    /\ field (js "id") g = Some (num 4)
    /\ field (js "title") g = Some (str "Bike")
    /\ field (js "current_amount") g = Some (num 0).
Proof.
  cbv zeta.
  destruct (@mock_goal_round_trip (fun s => s)
              (mkEnv (js "2025-10-20") None NetworkFailure 0)
              (mkEnv (js "2025-10-20") None NetworkFailure 0)
              (js "1") (js "1")
              [(js "title", str "Bike"); (js "target_amount", num 5000);
               (js "deadline", str "2026-01-01")]
              (setMockMode true loaded) eq_refl eq_refl eq_refl)
    as (g & _ & R & A & _ & F).
  exists g. split; [exact R|]. split; [|split].
  - exact (F (js "id") eq_refl eq_refl).
  - exact (F (js "title") eq_refl eq_refl).
  - exact A.
Defined.


End ApiDataProps.


(* ================================================================== *)
(** * The session in the requests *)

Module SessionProps.
Import JsString JsNumber Api ApiData.

Lemma real_get_request e path st :
  USE_MOCK st = false ->
  requests (snd (get e path st))
  = [mkRequest (BASE_URL st ++ path) (js "GET") (js "application/json")
       (authHeaders e) None].
Proof.
  intros M. unfold get. rewrite M.
  destruct (network e) as [|[|] status [v|]]; reflexivity.
Qed.

Lemma real_post_request toLowerCase e path body st :
  USE_MOCK st = false ->
  requests (snd (post toLowerCase e path body st))
  = [mkRequest (BASE_URL st ++ path) (js "POST") (js "application/json")
       (authHeaders e) (Some body)].
Proof.
  intros M. unfold post. rewrite M.
  destruct (network e) as [|[|] status [v|]]; reflexivity.
Qed.

Lemma login_token JSON_stringify r ls b :
  Auth.getItem (js "access_token")
    (fst (fst (Auth.login_resolved JSON_stringify r ls b)))
  = Some (Auth.access_token r).
Proof.
  unfold Auth.login_resolved. cbn [fst].
  destruct (AuthProps.stored_session (Auth.access_token r) (Auth.user_id r) ls)
    as (T & _).
  destruct (Auth.user r) as [u|]; [destruct (Api.is_truthy u)|].
  - rewrite AuthProps.getItem_setItem_other by reflexivity. exact T.
  - exact T.
  - exact T.
Qed.

Lemma logout_token ls :
  Auth.getItem (js "access_token") (fst (Auth.logout ls)) = None.
Proof.
  unfold Auth.logout. cbn [fst].
  rewrite !AuthProps.getItem_removeItem_other by reflexivity.
  apply AuthProps.getItem_removeItem_same.
Qed.

(** X21. With the mock off, every read and every write sends exactly one
    request, to the base URL followed by the path.  After a login that was
    answered with a token that is not empty, the request carries that
    token as its bearer; after the logout that follows, it carries an
    empty Authorization header. *)
Theorem session_requests_authorized
    (JSON_stringify : json -> jsstring) (toLowerCase : jsstring -> jsstring)
    (r : Auth.credentials) (ls : Auth.storage) (b : Auth.button)
    (e : env) (path : jsstring) (body : json) (st : state) :
  USE_MOCK st = false -> truthy (Auth.access_token r) = true ->
  let ls' := fst (fst (Auth.login_resolved JSON_stringify r ls b)) in
  let bearer := js "Bearer " ++ Auth.access_token r in
  let url := BASE_URL st ++ path in
  requests (snd (get (Auth.request_env ls' e) path st))
  = [mkRequest url (js "GET") (js "application/json") bearer None]
  /\ requests (snd (post toLowerCase (Auth.request_env ls' e) path body st))
     = [mkRequest url (js "POST") (js "application/json") bearer (Some body)]
  /\ requests (snd (get (Auth.request_env (fst (Auth.logout ls')) e) path st))
     = [mkRequest url (js "GET") (js "application/json") [] None]
  /\ requests (snd (post toLowerCase
                      (Auth.request_env (fst (Auth.logout ls')) e) path body st))
     = [mkRequest url (js "POST") (js "application/json") [] (Some body)].
Proof.
  intros M T. cbv zeta.
  rewrite !real_get_request, !real_post_request by exact M.
  unfold authHeaders, Auth.request_env. cbn [access_token BASE_URL].
  rewrite login_token, logout_token, T.
  split; [|split; [|split]]; reflexivity.
Qed.

Lemma session_requests_authorized_witness :
  let r := Auth.mkCredentials (js "t0k3n") 1 None in
  let e := mkEnv (js "2025-10-20") None NetworkFailure 0 in
  let ls' := fst (fst (Auth.login_resolved (fun _ => []) r [] (Auth.mkButton true []))) in
  map authorization
    (requests (snd (get (Auth.request_env ls' e) (js "/users/1/goals") loaded)))
  = [js "Bearer t0k3n"].
Proof.
  cbv zeta.
  destruct (@session_requests_authorized (fun _ => []) (fun s => s)
              (Auth.mkCredentials (js "t0k3n") 1 None) []
              (Auth.mkButton true [])
              (mkEnv (js "2025-10-20") None NetworkFailure 0)
              (js "/users/1/goals") JNull loaded eq_refl eq_refl)
    as (G & _).
  cbv zeta in G. rewrite G. reflexivity.
Defined.

End SessionProps.

(* ================================================================== *)
(** * The dashboard *)

Module DashboardProps.
Import JsString JsNumber JsParse Validator Dashboard.

(** A lower bound of 1000 and no upper bound. *)
Lemma amount_ok_iff toS v :
  ok (validateNumber toS v (Some (of_Z 1000)) None) = true
  <-> ge (parseFloat v) (of_Z 1000) = true.
Proof.
  unfold validateNumber, ge.
  destruct (parseFloat v) as [| |q|]; cbn; try tauto; try (split; discriminate).
  destruct (Qltb q (inject_Z 1000)); cbn; tauto.
Qed.

Lemma date_ok_iff getTime d :
  ok (validateDate getTime d) = true
  <-> d <> [] /\ isNaN (getTime d) = false.
Proof.
  unfold validateDate. destruct d as [|c d]; cbn [truthy negb].
  - cbn. split; [discriminate | intros [H _]; congruence].
  - destruct (isNaN (getTime (c :: d))); cbn [ok].
    + split; [discriminate | intros [_ H]; discriminate].
    + split; [intros _; split; [discriminate | reflexivity] | reflexivity].
Qed.

Section WithPlatform.

Variable Number_toString : number -> jsstring.
Variable Date_getTime : jsstring -> number.

Local Abbreviation rules := (goal_rules Number_toString Date_getTime).

Lemma goal_rules_pass f ti ai di :
  element (js "goal_title") f = Some ti ->
  element (js "target_amount") f = Some ai ->
  element (js "deadline") f = Some di ->
  all_pass f rules
  <-> acceptable Date_getTime (value_of ti) (value_of ai) (value_of di).
Proof.
  intros Et Ea Ed. unfold all_pass, goal_rules, acceptable.
  rewrite !Forall_cons_iff. cbn [fst snd]. unfold field_value.
  rewrite Et, Ea, Ed. cbn [option_map].
  rewrite <- (FormProps.required_ok_iff (value_of ti) (Some (js "Название цели"))).
  rewrite <- (amount_ok_iff Number_toString (VStr (value_of ai))).
  rewrite <- (date_ok_iff Date_getTime (value_of di)).
  split.
  - intros (A & B & C & _).
    specialize (A _ eq_refl). specialize (B _ eq_refl). specialize (C _ eq_refl).
    apply Forall_cons_iff in A as [A _]. apply Forall_cons_iff in B as [B _].
    apply Forall_cons_iff in C as [C _]. auto.
  - intros (A & B & C).
    split; [|split; [|split; [|constructor]]]; intros v [= <-];
      constructor; auto.
Qed.

(** X22. The goal form, with its three controls present, sends a request
    exactly when the title holds a character that is not white space, the
    amount reads as a number that is at least 1000 (an infinite one
    included), and the deadline is not empty and is a date the platform
    can read (a past one included).  The request then carries the title
    and the deadline as typed, the amount as the number read, and the user
    id of the session; otherwise nothing is sent.  Either way the values
    in the form are as they were. *)
Theorem goal_request_validated (f : form) (submitBtn : Auth.button)
    (ls : Auth.storage) (ti ai di : input) :
  element (js "goal_title") f = Some ti ->
  element (js "target_amount") f = Some ai ->
  element (js "deadline") f = Some di ->
  exists f',
    (forall n, field_value n f' = field_value n f)
    /\ ((acceptable Date_getTime (value_of ti) (value_of ai) (value_of di)
         /\ handleCreateGoal Number_toString Date_getTime f submitBtn ls
            = Some (Sent f' (Auth.mkButton true (js "Создание..."))
                      (Auth.getCurrentUserId ls)
                      (Api.JObj
                         [(js "title", Api.JStr (value_of ti));
                          (js "target_amount",
                           Api.JNum (parseFloat (VStr (value_of ai))));
                          (js "deadline", Api.JStr (value_of di))])))
        \/ (~ acceptable Date_getTime (value_of ti) (value_of ai) (value_of di)
            /\ handleCreateGoal Number_toString Date_getTime f submitBtn ls
               = Some (Invalid f'))).
Proof.
  intros Et Ea Ed.
  pose proof (FormProps.validateForm_ok_iff f rules) as V.
  pose proof (fun n => FormProps.validateForm_values f rules n) as K.
  rewrite (goal_rules_pass f Et Ea Ed) in V.
  unfold handleCreateGoal. rewrite Et, Ea, Ed.
  destruct (validateForm f rules) as [isValid f'].
  cbn [fst snd] in V, K. exists f'. split; [exact K|].
  destruct isValid; cbn [negb].
  - left. split; [apply V; reflexivity | reflexivity].
  - right. split; [|reflexivity]. intros A. apply V in A. discriminate.
Qed.

End WithPlatform.

Lemma goal_request_validated_witness :
  let f := groups [(js "goal_title", (mkInput (js "Bike") false, None));
                   (js "target_amount", (mkInput (js "500") false, None));
                   (js "deadline", (mkInput (js "2026-01-01") false, None))] in
  exists f',
    handleCreateGoal (fun _ => []) (fun _ => Fin 0) f (Auth.mkButton false []) []
    = Some (Invalid f').
Proof.
  cbv zeta.
  destruct (@goal_request_validated (fun _ => []) (fun _ => Fin 0)
              (groups [(js "goal_title", (mkInput (js "Bike") false, None));
                       (js "target_amount", (mkInput (js "500") false, None));
                       (js "deadline", (mkInput (js "2026-01-01") false, None))])
              (Auth.mkButton false []) []
              (mkInput (js "Bike") false)
              (mkInput (js "500") false)
              (mkInput (js "2026-01-01") false)
              eq_refl eq_refl eq_refl)
    as (f' & _ & [[(_ & A & _) _] | [_ H]]).
  - vm_compute in A. discriminate.
  - exists f'. exact H.
Defined.


(** A user id of zero is no user to the dashboard. *)
Lemma no_user_of_Z z : no_user (Some (of_Z z)) = (z =? 0)%Z.
Proof.
  unfold no_user, of_Z. destruct (z =? 0)%Z eqn:E.
  - apply Z.eqb_eq in E. subst. reflexivity.
  - apply Z.eqb_neq in E. destruct (Qeq_bool (inject_Z z) 0) eqn:Q; [|reflexivity].
    apply Qeq_bool_eq in Q. exfalso. apply E.
    unfold Qeq, inject_Z in Q. cbn in Q. lia.
Qed.

Lemma read_integer_cases sign radix s :
  read_integer sign radix s = NaN \/ exists z, read_integer sign radix s = of_Z z.
Proof.
  unfold read_integer. destruct (radix_digits radix s); [left; reflexivity|].
  right. eexists. reflexivity.
Qed.

Lemma read_unsigned_cases sign s :
  read_unsigned sign s = NaN \/ exists z, read_unsigned sign s = of_Z z.
Proof.
  unfold read_unsigned.
  repeat match goal with
         | |- context [match ?x with _ => _ end] => destruct x
         end; apply read_integer_cases.
Qed.

(** [parseInt] gives NaN or an integer. *)
Lemma parseInt_cases s : parseInt s = NaN \/ exists z, parseInt s = of_Z z.
Proof.
  unfold parseInt.
  repeat match goal with
         | |- context [match ?x with _ => _ end] => destruct x
         end; apply read_unsigned_cases.
Qed.

Lemma login_user_id J r ls b :
  Auth.getCurrentUserId (fst (fst (Auth.login_resolved J r ls b)))
  = Some (of_Z (Auth.user_id r)).
Proof.
  apply AuthProps.getCurrentUserId_stored.
  unfold Auth.login_resolved. cbn [fst].
  destruct (AuthProps.stored_session (Auth.access_token r) (Auth.user_id r) ls)
    as (_ & U & _).
  destruct (Auth.user r) as [u|]; [destruct (Api.is_truthy u)|].
  - rewrite AuthProps.getItem_setItem_other by reflexivity. exact U.
  - exact U.
  - exact U.
Qed.

(** X23. The dashboard asks for a session with a user id that is a number
    other than zero: it goes to the login page when no user id is stored,
    when the stored text is empty or does not begin as an integer, and
    when it reads as zero; otherwise it loads the goals, then the
    transactions, then the balance, for the id read.  So after a login
    answered with the user id [z] the dashboard loads for [z], unless [z]
    is zero. *)
Theorem dashboard_needs_user (ls : Auth.storage) :
  (loadDashboard ls = [Redirect (js "login.html")]
   <-> match Auth.getItem (js "user_id") ls with
       | None => True
       | Some s => s = [] \/ parseInt s = NaN \/ parseInt s = of_Z 0
       end)
  /\ (forall s z, Auth.getItem (js "user_id") ls = Some s -> s <> [] ->
       parseInt s = of_Z z -> z <> 0%Z ->
       loadDashboard ls
       = [LoadGoals (of_Z z); LoadTransactions (of_Z z); UpdateBalance])
  /\ (forall J r b,
        (Z.abs (Auth.user_id r) < 10 ^ 21)%Z ->
        loadDashboard (fst (fst (Auth.login_resolved J r ls b)))
        = if (Auth.user_id r =? 0)%Z then [Redirect (js "login.html")]
          else [LoadGoals (of_Z (Auth.user_id r));
                LoadTransactions (of_Z (Auth.user_id r)); UpdateBalance]).
Proof.
  split; [|split].
  - unfold loadDashboard, Auth.getCurrentUserId.
    destruct (Auth.getItem (js "user_id") ls) as [[|c s]|]; cbn [truthy].
    + split; [intros _; left; reflexivity | reflexivity].
    + destruct (parseInt_cases (c :: s)) as [N|[z Z]].
      * rewrite N. cbn [no_user]. split; [intros _; right; left; reflexivity
                                         | reflexivity].
      * rewrite Z, no_user_of_Z. destruct (z =? 0)%Z eqn:E.
        -- apply Z.eqb_eq in E. subst z.
           split; [intros _; right; right; reflexivity | reflexivity].
        -- apply Z.eqb_neq in E. split; [discriminate|].
           intros [H|[H|H]]; try discriminate.
           exfalso. apply E. unfold of_Z, inject_Z in H. congruence.
    + split; [exact (fun _ => I) | reflexivity].
  - intros s z G NE P Z. unfold loadDashboard, Auth.getCurrentUserId.
    rewrite G. destruct s as [|c s]; [congruence|]. cbn [truthy].
    rewrite P, no_user_of_Z.
    apply Z.eqb_neq in Z. rewrite Z. reflexivity.
  - intros J r b _. unfold loadDashboard.
    rewrite login_user_id, no_user_of_Z. reflexivity.
Qed.

End DashboardProps.


(* ================================================================== *)
(** * Debounced and throttled functions *)

Module TimingProps.
Import Timing.

Section WithArgs.

Variable A : Type.

Lemma ready_single {P} id now (t : timer P) t' :
  ready id now [t] = Some t' ->
  t' = t /\ timer_id t = id /\ (due t <= now)%N /\ without id [t] = [].
Proof.
  unfold ready, without. cbn [find filter].
  destruct (Nat.eqb (timer_id t) id) eqn:E; [|discriminate].
  destruct (due t <=? now)%N eqn:D; [|discriminate].
  intros [= <-]. apply Nat.eqb_eq in E. apply N.leb_le in D.
  cbn [negb]. auto.
Qed.

Lemma throttle_run_spaced limit evs :
  forall clock last st st' calls,
    throttle_inv limit clock last st ->
    run (@throttle_step A limit) evs clock st = Some (st', calls) ->
    spaced limit calls
    /\ match last, calls with
       | Some t1, (t2, _) :: _ => (t1 + limit <= t2)%N
       | _, _ => True
       end
    /\ incl calls (invocations evs).
Proof.
  induction evs as [|[now ev] rest IH]; intros clock last st st' calls Inv R.
  - cbn in R. injection R as <- <-. cbn.
    destruct last; (split; [exact I|split; [exact I|apply incl_refl]]).
  - cbn [run] in R. destruct (now <? clock)%N eqn:C; [discriminate|].
    apply N.ltb_ge in C. unfold throttle_inv in Inv.
    destruct ev as [a|id]; cbn [throttle_step] in R.
    + destruct (inThrottle st) eqn:T; cbn [negb] in R.
      * destruct (run _ rest now st) as [[st2 later]|] eqn:R2; [|discriminate].
        injection R as <- <-. cbn [map app].
        assert (I' : throttle_inv limit now last st).
        { unfold throttle_inv. rewrite T. exact Inv. }
        destruct (IH _ _ _ _ _ I' R2) as (S & H & L).
        split; [exact S|]. split; [exact H|].
        cbn [invocations]. apply incl_tl, L.
      * destruct Inv as (E & B).
        destruct (run _ rest now _) as [[st2 later]|] eqn:R2; [|discriminate].
        injection R as <- <-. cbn [map app].
        assert (I' : throttle_inv limit now (Some now)
                       (mkThrottled true
                          (resets st ++ [mkTimer (t_next st) (now + limit)%N tt])
                          (S (t_next st)))).
        { unfold throttle_inv. cbn [inThrottle resets]. rewrite E.
          exists (t_next st), now. split; reflexivity. }
        destruct (IH _ _ _ _ _ I' R2) as (S & H & L).
        split; [|split].
        -- cbn [spaced]. destruct later as [|[t2 a2] later']; [exact I|].
           split; [exact H | exact S].
        -- destruct last as [t1|]; [lia | exact I].
        -- cbn [invocations]. intros x [<-|X]; [left; reflexivity|].
           right. apply L, X.
    + destruct (ready id now (resets st)) as [t|] eqn:Rd; [|discriminate].
      destruct (run _ rest now _) as [[st2 later]|] eqn:R2; [|discriminate].
      injection R as <- <-. cbn [map app].
      destruct (inThrottle st) eqn:T.
      * destruct Inv as (id0 & t1 & -> & E). rewrite E in Rd.
        destruct (ready_single _ _ _ Rd) as (-> & Hid & D & W).
        cbn [due] in D.
        assert (I' : throttle_inv limit now (Some t1)
                       (mkThrottled false (without id (resets st)) (t_next st))).
        { unfold throttle_inv. cbn [inThrottle resets]. rewrite E, W.
          split; [reflexivity | exact D]. }
        destruct (IH _ _ _ _ _ I' R2) as (S & H & L).
        split; [exact S|]. split; [exact H|]. cbn [invocations]. exact L.
      * destruct Inv as (E & _). rewrite E in Rd. discriminate.
Qed.

(** X24. A throttled function lets the first call through at once, and
    from then on calls [func] only with the arguments of calls made to it,
    at the time they are made, when at least [limit] has passed since
    [func] was last called: any two calls of [func] are at least [limit]
    apart, given that a timer does not run before its time. *)
Theorem throttle_spacing (limit : N) (evs : list (N * event A))
    (st : throttled) (calls : list (N * A)) :
  run (@throttle_step A limit) evs 0 (throttle) = Some (st, calls) ->
  spaced limit calls
  /\ incl calls (invocations evs)
  /\ (forall t a rest, evs = (t, Invoke a) :: rest ->
      exists later, calls = (t, a) :: later).
Proof.
  intros R.
  assert (Inv : throttle_inv limit 0 None throttle).
  { unfold throttle_inv. cbn. auto. }
  destruct (@throttle_run_spaced limit evs 0%N None _ _ _ Inv R) as (S & _ & L).
  split; [exact S|]. split; [exact L|].
  intros t a rest ->. cbn [run throttle_step throttle inThrottle negb] in R.
  destruct (t <? 0)%N; [discriminate|].
  destruct (run _ rest t _) as [[st2 later]|]; [|discriminate].
  injection R as <- <-. exists later. reflexivity.
Qed.

Lemma debounce_run_settled wait evs :
  forall clock prev st st' calls,
    debounce_inv wait prev st ->
    run (@debounce_step A wait) evs clock st = Some (st', calls) ->
    calls = map (fun x => (snd (fst x), snd x)) (settled_after prev evs)
    /\ Forall (fun x => (fst (fst x) + wait <= snd (fst x))%N)
         (settled_after prev evs)
    /\ (List.length (laters st') <= 1)%nat.
Proof.
  induction evs as [|[now ev] rest IH]; intros clock prev st st' calls Inv R.
  - cbn in R. injection R as <- <-. cbn. split; [reflexivity|].
    split; [constructor|]. unfold debounce_inv in Inv.
    destruct prev as [[t0 a]|]; [destruct Inv as (id & -> & _)|rewrite Inv];
      cbn; lia.
  - cbn [run] in R. destruct (now <? clock)%N eqn:C; [discriminate|].
    destruct ev as [a|id]; cbn [debounce_step] in R.
    + destruct (run _ rest now _) as [[st2 later]|] eqn:R2; [|discriminate].
      injection R as <- <-. cbn [map app settled_after].
      refine (IH _ (Some (now, a)) _ _ _ _ R2).
      unfold debounce_inv. cbn [laters timeout]. exists (d_next st).
      split; [|reflexivity].
      replace (clearTimeout (timeout st) (laters st)) with (@nil (timer A));
        [reflexivity|].
      unfold debounce_inv in Inv. destruct prev as [[t0 a0]|].
      * destruct Inv as (id & -> & ->). cbn. rewrite Nat.eqb_refl. reflexivity.
      * rewrite Inv. destruct (timeout st); reflexivity.
    + destruct (ready id now (laters st)) as [t|] eqn:Rd; [|discriminate].
      destruct (run _ rest now _) as [[st2 later]|] eqn:R2; [|discriminate].
      injection R as <- <-. cbn [map app settled_after].
      unfold debounce_inv in Inv. destruct prev as [[t0 a0]|].
      * destruct Inv as (id0 & E & TO). rewrite E in Rd.
        destruct (ready_single _ _ _ Rd) as (-> & Hid & D & W).
        cbn [due payload] in *.
        assert (I' : debounce_inv wait None
                       (mkDebounced (timeout st)
                          (clearTimeout (timeout st) (without id (laters st)))
                          (d_next st))).
        { unfold debounce_inv. cbn [laters]. rewrite E, W.
          destruct (timeout st); reflexivity. }
        destruct (IH _ _ _ _ _ I' R2) as (Cs & F & L).
        split; [cbn [map fst snd]; rewrite Cs; reflexivity|].
        split; [constructor; [exact D | exact F] | exact L].
      * rewrite Inv in Rd. discriminate.
Qed.

(** Looking back at the call before is looking ahead at the timer after. *)
Lemma settled_after_ahead prev (evs : list (N * event A)) :
  settled_after prev evs
  = match prev, evs with
    | Some (t0, a), (t, Fire _ _) :: _ => [(t0, t, a)]
    | _, _ => []
    end ++ settled evs.
Proof.
  revert prev; induction evs as [|[t ev] rest IH]; intros prev.
  - destruct prev as [[t0 a]|]; reflexivity.
  - destruct ev as [a|id]; cbn [settled_after settled].
    + rewrite IH. destruct prev as [[t0 a0]|]; cbn [app];
        destruct rest as [|[t' [a'|id']] rest']; reflexivity.
    + destruct prev as [[t0 a0]|]; rewrite IH; cbn [app];
        destruct rest as [|[t' [a'|id']] rest']; reflexivity.
Qed.

(** X25. A debounced function calls [func] once for each call that a
    timer follows before the next call comes, with the arguments of that
    call, and then only: so at least [wait] after the call, and never for
    a call that another follows before its timer runs.  At most one timer
    is pending afterwards. *)
Theorem debounce_settles (wait : N) (evs : list (N * event A))
    (st : debounced A) (calls : list (N * A)) :
  run (@debounce_step A wait) evs 0 (debounce A) = Some (st, calls) ->
  calls = map (fun x => (snd (fst x), snd x)) (settled evs)
  /\ Forall (fun x => (fst (fst x) + wait <= snd (fst x))%N) (settled evs)
  /\ (List.length (laters st) <= 1)%nat.
Proof.
  intros R.
  assert (Inv : debounce_inv wait None (debounce A)) by reflexivity.
  pose proof (@debounce_run_settled wait evs 0%N None _ _ _ Inv R) as H.
  rewrite settled_after_ahead in H. exact H.
Qed.

End WithArgs.

Lemma throttle_spacing_witness :
  let evs := [(0, Invoke 1); (100, Invoke 2); (300, Fire N 0%nat);
              (350, Invoke 3)]%N in
  exists st,
    run (@throttle_step N 300) evs 0 throttle
    = Some (st, [(0, 1); (350, 3)]%N)
    /\ spaced 300 [(0, 1); (350, 3)]%N.
Proof.
  cbv zeta. eexists. split; [reflexivity|].
  exact (proj1 (@throttle_spacing N 300
                  [(0, Invoke 1); (100, Invoke 2); (300, Fire N 0%nat);
                   (350, Invoke 3)]%N _ _ eq_refl)).
Defined.

Lemma debounce_settles_witness :
  let evs := [(0, Invoke 1); (100, Invoke 2); (400, Fire N 1%nat);
              (500, Invoke 3)]%N in
  exists st,
    run (@debounce_step N 300) evs 0 (debounce N)
    = Some (st, [(400, 2)]%N)
    /\ (List.length (laters st) <= 1)%nat.
Proof.
  cbv zeta. eexists. split; [reflexivity|].
  exact (proj2 (proj2 (@debounce_settles N 300
                  [(0, Invoke 1); (100, Invoke 2); (400, Fire N 1%nat);
                   (500, Invoke 3)]%N _ _ eq_refl))).
Defined.

End TimingProps.
